(** * Persistent singly-linked lists (mccs-cpp-lists): embedding and properties

    The repository holds several realisations of one list contract.  Each
    realisation that a property below talks about is embedded in a module of
    its own, named after the header it comes from:

    - [ImmutableList]   src/ListV7/ImmutableList.hpp, the [std::shared_ptr]
                        list whose nodes are never assigned after construction;
    - [CopyingList]     src/unnamed/part_008, the raw-pointer list in which
                        every handle owns a deep copy of its chain;
    - [SharedStore]     the node store shared by the two [std::shared_ptr]
                        headers, with [tail] of ImmutableList.hpp and [tail] of
                        the first header of src/ListV7/ListTransparentMove.hpp;
    - [CountedStore]    the same store with the use counts of the
                        [std::shared_ptr]s, for [length] of that first header,
                        which ends the life of the lists [tail] returns;
    - [prelude]         the reference-counted [prelude::list] of
                        src/ListV7/ListTransparentMove.hpp (second header),
                        with its explicit [_refs] counter, on a heap.

    Part I holds the definitions, Part II the theorems.  The statements that
    settle a numbered claim of the specification carry its number. *)

From Stdlib Require Import ZArith NArith Lia.
From stdpp Require Import gmap strings list pretty.

Local Open Scope N_scope.

(** [unsigned] is 32 bits wide and [size_t] 64 bits wide on the platforms the
    build script targets; arithmetic on them wraps modulo these powers. *)
Definition UINT_MOD : N := 2 ^ 32.
Definition SIZE_MOD : Z := (2 ^ 64)%Z.

(* ===================================================================== *)
(** * Part I -- the embedding                                              *)
(* ===================================================================== *)

(* --------------------------------------------------------------------- *)
(** ** src/ListV7/ImmutableList.hpp                                        *)
(* --------------------------------------------------------------------- *)

(** [List<A>] is [std::shared_ptr<Node<A>>]; a [Node] is built once by
    [std::make_shared] and this header never assigns [_datum] or [_tail]
    afterwards, nor does it compare two lists by address.  A list is therefore
    embedded by the value it denotes: the null pointer, or a node with its
    datum and the list its [_tail] points to. *)
Module ImmutableList.

Inductive List (A : Type) : Type :=
| EMPTY : List A                                  (* List<A> EMPTY { nullptr } *)
| Node (_datum : A) (_tail : List A) : List A.    (* Node(B x, List<B> const& xs) *)
Arguments EMPTY {A}.
Arguments Node {A} _datum _tail.

(** A call either returns a value or throws; the only [throw] statements of
    the header are [throw xs;], whose operand is the list itself. *)
Inductive result (A T : Type) : Type :=
| Return (v : T)
| Throw (thrown : List A).
Arguments Return {A T} v.
Arguments Throw {A T} thrown.

Definition bind {A T U} (r : result A T) (k : T -> result A U) : result A U :=
  match r with
  | Return v => k v
  | Throw e => Throw e
  end.

Section Operations.
Context {A : Type}.

(** [inline bool null( List<A> const& xs ) { return !xs; }] *)
Definition null (xs : List A) : bool :=
  match xs with
  | EMPTY => true
  | Node _ _ => false
  end.

(** [operator| ( A x, List<A> const& xs )]: one [make_shared] node. *)
Definition operator_bar (x : A) (xs : List A) : List A := Node x xs.

(** [head]: [if ( null( xs ) ) { throw xs; } return xs->_datum;] *)
Definition head (xs : List A) : result A A :=
  match xs with
  | EMPTY => Throw xs
  | Node x _ => Return x
  end.

(** [tail]: [if ( null( xs ) ) { throw xs; } return xs->_tail;] *)
Definition tail (xs : List A) : result A (List A) :=
  match xs with
  | EMPTY => Throw xs
  | Node _ t => Return t
  end.

(** [last]: throws on the empty list; otherwise [ys = tail( xs )] and
    either [head( xs )] when [ys] is empty or [last( ys )]. *)
Fixpoint last (xs : List A) : result A A :=
  match xs with
  | EMPTY => Throw xs
  | Node _ ys => if null ys then head xs else last ys
  end.

(** [init]: throws on the empty list; otherwise [ys = tail( xs )] and
    either [ys] itself (empty) or [head( xs ) | init( ys )]. *)
Fixpoint init (xs : List A) : result A (List A) :=
  match xs with
  | EMPTY => Throw xs
  | Node x ys =>
      if null ys then Return ys
      else bind (init ys) (fun zs => Return (operator_bar x zs))
  end.

(** [length] returns [unsigned]: [1 + length( tail( xs ) )] wraps. *)
Fixpoint length (xs : List A) : N :=
  match xs with
  | EMPTY => 0
  | Node _ t => (1 + length t) mod UINT_MOD
  end.

(** The recursive lambda [rev] of [reverse], and [reverse] itself:
    [rev( tail( xs ), head( xs ) | ys )], started at [EMPTY<A>]. *)
Fixpoint rev (xs ys : List A) : List A :=
  match xs with
  | EMPTY => ys
  | Node x t => rev t (operator_bar x ys)
  end.

Definition reverse (xs : List A) : List A := rev xs EMPTY.

(** [operator+]: [if ( null( xs ) ) { return ys; }
    return head( xs ) | tail( xs ) + ys;] *)
Fixpoint operator_plus (xs ys : List A) : List A :=
  match xs with
  | EMPTY => ys
  | Node x t => operator_bar x (operator_plus t ys)
  end.

(** [take]: [if ( k == 0 || null( xs ) ) { return EMPTY<A>; }
    return head( xs ) | take( k - 1, tail( xs ) );]
    [k - 1] is evaluated only for [k != 0], so it never wraps. *)
Fixpoint take (k : N) (xs : List A) : List A :=
  match xs with
  | EMPTY => EMPTY
  | Node x t => if k =? 0 then EMPTY else operator_bar x (take (k - 1) t)
  end.

(** [drop]: [if ( k == 0 || null( xs ) ) { return xs; }
    return drop( k - 1, tail( xs ) );] *)
Fixpoint drop (k : N) (xs : List A) : List A :=
  match xs with
  | EMPTY => xs
  | Node _ t => if k =? 0 then xs else drop (k - 1) t
  end.

(** [operator<<].  The stream is the text written to it so far; [show] is
    [operator<<] of the element type.
    [[
      auto n = xs;
      if ( n ) {
        os << '[' << n->_datum;
        while ( (n = n->_tail) ) { os << ',' << n->_datum; }
        os << ']';
      }
      return os;
    ]] *)
Variable show : A -> string.

Fixpoint shl_loop (os : string) (n : List A) : string :=
  match n with
  | EMPTY => os
  | Node x t => shl_loop (os +:+ "," +:+ show x) t
  end.

Definition operator_shl (os : string) (xs : List A) : string :=
  match xs with
  | EMPTY => os
  | Node x t => shl_loop (os +:+ "[" +:+ show x) t +:+ "]"
  end.

(** The sequence of values a list holds, head first. *)
Fixpoint elems (xs : List A) : list A :=
  match xs with
  | EMPTY => []
  | Node x t => x :: elems t
  end.

End Operations.

Section MoreOperations.
Context {A : Type}.

(** [filter]:
    [[
      if ( null( xs ) ) { return EMPTY<A>; }
      auto ys = filter( pred, tail( xs ) );
      auto x = head( xs );
      return pred( x ) ? ( x | ys ) : ys;
    ]] *)
Fixpoint filter (pred : A -> bool) (xs : List A) : List A :=
  match xs with
  | EMPTY => EMPTY
  | Node x t =>
      let ys := filter pred t in
      if pred x then operator_bar x ys else ys
  end.

(** [sum]: [if ( null( xs ) ) { return 0; } return head( xs ) + sum( tail( xs ) );]
    [zero] is the element that [0] converts to and [add] the [operator+] of
    the element type. *)
Fixpoint sum (zero : A) (add : A -> A -> A) (xs : List A) : A :=
  match xs with
  | EMPTY => zero
  | Node x t => add x (sum zero add t)
  end.

(** [map]: [if ( null( xs ) ) { return EMPTY<decltype(f(head(xs)))>; }
    return f( head( xs ) ) | map<F,A>( f, tail( xs ) );] *)
Fixpoint map {B : Type} (f : A -> B) (xs : List A) : List B :=
  match xs with
  | EMPTY => EMPTY
  | Node x t => operator_bar (f x) (map f t)
  end.

End MoreOperations.

End ImmutableList.

(* --------------------------------------------------------------------- *)
(** ** src/unnamed/part_008                                                *)
(* --------------------------------------------------------------------- *)

(** The raw-pointer [prelude::List<T>] whose copy constructor and private
    constructor [List(Node* n)] clone the whole chain and whose destructor
    deletes it: every handle owns its nodes alone, so a chain is embedded by
    value.  Writes to [std::cerr] in constructors and destructors are tracing
    only and are left out.  [operator[]] of src/unnamed/part_004 has the same
    text over [std::shared_ptr] nodes. *)
Module CopyingList.

(** A [Node*]: [nullptr], or the address of a node with its two fields. *)
Inductive NodePtr (T : Type) : Type :=
| nullptr : NodePtr T
| new_Node (_datum : T) (_tail : NodePtr T) : NodePtr T.
Arguments nullptr {T}.
Arguments new_Node {T} _datum _tail.

Record List (T : Type) : Type := mkList { _head : NodePtr T }.
Arguments mkList {T} _head.
Arguments _head {T} _.

(** [throw xs;], [throw EMPTY;] and [throw List<U>::EMPTY;] all throw a
    list object. *)
Inductive result (T V : Type) : Type :=
| Return (v : V)
| Throw (thrown : List T).
Arguments Return {T V} v.
Arguments Throw {T V} thrown.

Section Operations.
Context {T : Type}.

(** [to = to->_tail = new Node( x )] where [to] is the last node of the
    chain under construction: the chain grows by one node at its end. *)
Fixpoint link_last (chain : NodePtr T) (x : T) : NodePtr T :=
  match chain with
  | nullptr => new_Node x nullptr
  | new_Node y t => new_Node y (link_last t x)
  end.

(** [while ((n = n->_tail)) { copy = copy->_tail = new Node(n->_datum, nullptr); }]
    with [n] the part of the source still to visit and [built] the chain
    built so far. *)
Fixpoint copy_loop (n : NodePtr T) (built : NodePtr T) : NodePtr T :=
  match n with
  | nullptr => built
  | new_Node x t => copy_loop t (link_last built x)
  end.

(** The private constructor [List(Node* n = nullptr)]. *)
Definition List_of_Node (n : NodePtr T) : List T :=
  match n with
  | nullptr => mkList nullptr
  | new_Node x t => mkList (copy_loop t (new_Node x nullptr))
  end.

(** [static List const EMPTY;] *)
Definition EMPTY : List T := List_of_Node nullptr.

(** Copy constructor [List(List const& xs) : List(xs._head)]. *)
Definition List_copy (xs : List T) : List T := List_of_Node (_head xs).

(** [explicit List(T x, List const& xs = EMPTY)]:
    [List(xs._head)] then [_head = new Node(x, _head)]. *)
Definition List_cons (x : T) (xs : List T) : List T :=
  mkList (new_Node x (_head (List_of_Node (_head xs)))).

(** [bool null( List<U> const& xs ) { return !xs._head; }] *)
Definition null (xs : List T) : bool :=
  match _head xs with
  | nullptr => true
  | new_Node _ _ => false
  end.

(** [head]: [if ( null( xs ) ) { throw xs;} return xs._head->_datum;] *)
Definition head (xs : List T) : result T T :=
  match _head xs with
  | nullptr => Throw xs
  | new_Node x _ => Return x
  end.

(** [tail]: [if ( null( xs ) ) { throw xs; } return xs._head->_tail;]
    The returned [Node*] converts to [List<U>] through [List(Node* n)]. *)
Definition tail (xs : List T) : result T (List T) :=
  match _head xs with
  | nullptr => Throw xs
  | new_Node _ t => Return (List_of_Node t)
  end.

(** [operator[]].  The recursion is on [k]:
    [[
      if ( !this->_head ) { throw EMPTY; }
      if ( k == 0 ) { return head( *this ); }
      else          { return tail( *this )[k-1]; }
    ]] *)
Fixpoint index_rec (k : nat) (this : List T) : result T T :=
  match _head this with
  | nullptr => Throw EMPTY
  | new_Node _ _ =>
      match k with
      | O => head this
      | S k' =>
          match tail this with
          | Return t => index_rec k' t
          | Throw e => Throw e
          end
      end
  end.

Definition operator_index (this : List T) (k : N) : result T T :=
  index_rec (N.to_nat k) this.

(** [init]:
    [[
      auto from = xs._head;
      if ( !from ) { throw xs; }
      List<U> ys( from->_datum );
      auto to = ys._head;
      while ( (from = from->_tail) ) { to = to->_tail = new Node( from->_datum ); }
      return ys;
    ]] *)
Definition init (xs : List T) : result T (List T) :=
  match _head xs with
  | nullptr => Throw xs
  | new_Node x from =>
      let ys := List_cons x EMPTY in
      Return (mkList (copy_loop from (_head ys)))
  end.

(** [take]:
    [[
      auto from = xs._head;
      if ( k <= 0 || !from ) { return xs; }
      auto ys = List<U>( from->_datum );
      auto to = ys._head;
      while ( --k > 0 && (from = from->_tail) ) { to = to->_tail = new Node( from->_datum ); }
      return ys;
    ]]
    [return xs;] copies [xs]; [return ys;] hands the local over.
    [take_loop k from built] is the loop entered with counter [k >= 1],
    [from] the chain after the node last copied. *)
Fixpoint take_loop (k : N) (from : NodePtr T) (built : NodePtr T) : NodePtr T :=
  match from with
  | nullptr => built
  | new_Node x t =>
      if 0 <? k - 1 then take_loop (k - 1) t (link_last built x) else built
  end.

Definition take (k : N) (xs : List T) : List T :=
  match _head xs with
  | nullptr => List_copy xs
  | new_Node x from =>
      if k <=? 0 then List_copy xs
      else
        let ys := List_cons x EMPTY in
        mkList (take_loop k from (_head ys))
  end.

(** The sequence of values of a chain and of a list. *)
Fixpoint chain_elems (n : NodePtr T) : list T :=
  match n with
  | nullptr => []
  | new_Node x t => x :: chain_elems t
  end.

Definition elems (xs : List T) : list T := chain_elems (_head xs).

(** [last]:
    [[
      if ( null( xs ) ) { throw List<U>::EMPTY; }
      auto e = xs._head;
      while ( e->_tail ) { e = e->_tail; }
      return e->_datum;
    ]]
    [last_loop x rest] is the loop at a node with datum [x] and tail [rest]. *)
Fixpoint last_loop (x : T) (rest : NodePtr T) : T :=
  match rest with
  | nullptr => x
  | new_Node y t => last_loop y t
  end.

Definition last (xs : List T) : result T T :=
  match _head xs with
  | nullptr => Throw EMPTY
  | new_Node x rest => Return (last_loop x rest)
  end.

(** [drop]: [auto to = xs._head;
    while ( k-- > 0 && to ) { to = to->_tail; } return to;]
    The returned [Node*] converts to [List<U>] through [List(Node* n)]. *)
Fixpoint drop_loop (k : nat) (to : NodePtr T) : NodePtr T :=
  match k, to with
  | S k', new_Node _ t => drop_loop k' t
  | _, _ => to
  end.

Definition drop (k : N) (xs : List T) : List T :=
  List_of_Node (drop_loop (N.to_nat k) (_head xs)).

(** [operator+]: [if ( null( xs ) ) { return ys; }
    return List<U>( head( xs ), tail( xs ) + ys );]
    [tail( xs )] is a clone of the remainder, and the recursion is on it. *)
Fixpoint plus_rec (n : NodePtr T) (ys : List T) : List T :=
  match n with
  | nullptr => List_copy ys
  | new_Node x t => List_cons x (plus_rec t ys)
  end.

Definition operator_plus (xs ys : List T) : List T := plus_rec (_head xs) ys.

(** [reverse]:
    [[
      auto ys = List<U>::EMPTY;
      auto from = xs._head;
      while ( from ) { ys = from->_datum | ys; from = from->_tail; }
      return ys;
    ]]
    [from->_datum | ys] is [List<U>(x, ys)]; the move assignment hands the
    new chain to [ys]. *)
Fixpoint reverse_loop (from : NodePtr T) (ys : List T) : List T :=
  match from with
  | nullptr => ys
  | new_Node x t => reverse_loop t (List_cons x ys)
  end.

Definition reverse (xs : List T) : List T :=
  reverse_loop (_head xs) (List_copy EMPTY).

(** [filter]:
    [[
      List<U> ys;
      auto from = xs._head, to = ys._head;
      while ( from ) {
        if ( pred( from->_datum ) ) { to = to->_tail = new Node( from->_datum ); }
        from = from->_tail;
      }
      return ys;
    ]]
    [to] starts as the null [ys._head], and nothing assigns [ys._head]: the
    first element that satisfies [pred] makes the loop write through the null
    pointer.  [None] stands for that undefined behaviour. *)
Fixpoint filter_loop (pred : T -> bool) (from : NodePtr T) (ys : List T)
  : option (List T) :=
  match from with
  | nullptr => Some ys
  | new_Node x t => if pred x then None else filter_loop pred t ys
  end.

Definition filter (pred : T -> bool) (xs : List T) : option (List T) :=
  filter_loop pred (_head xs) (List_of_Node nullptr).

End Operations.

End CopyingList.

(* --------------------------------------------------------------------- *)
(** ** The [std::shared_ptr] headers with their nodes in a store           *)
(* --------------------------------------------------------------------- *)

(** Where a property is about which nodes exist and who points to them, the
    nodes of the [std::shared_ptr] headers live in a store indexed by address.
    A [List<A>] is then a possibly null address.  The use counts that
    [std::shared_ptr] keeps belong to the standard library, not to these
    headers, and are not modelled in this store: a node stays in it.  The
    operations embedded here end the life of no [std::shared_ptr] that holds
    a node; [length] of the first header of ListTransparentMove.hpp does, and
    is embedded with the use counts in [CountedStore] below. *)
Module SharedStore.

Definition loc : Type := positive.

Record Node (A : Type) : Type := mkNode { _datum : A; _tail : option loc }.
Arguments mkNode {A} _datum _tail.
Arguments _datum {A} _.
Arguments _tail {A} _.

(** [List<A> = std::shared_ptr<Node<A>>]; [None] is [EMPTY<A>]. *)
Abbreviation List := (option loc).

Inductive result (A T : Type) : Type :=
| Return (v : T) (s : gmap loc (Node A))   (* normal return, store afterwards *)
| Throw (thrown : List) (s : gmap loc (Node A))   (* [throw xs;] *)
| Invalid                                  (* a non-null pointer to no node *)
| OutOfFuel.                               (* the recursion bound was reached *)
Arguments Return {A T} v s.
Arguments Throw {A T} thrown s.
Arguments Invalid {A T}.
Arguments OutOfFuel {A T}.

Definition M (A T : Type) : Type := gmap loc (Node A) -> result A T.

Definition ret {A T} (v : T) : M A T := fun s => Return v s.

Definition bind {A T U} (m : M A T) (k : T -> M A U) : M A U :=
  fun s =>
    match m s with
    | Return v s' => k v s'
    | Throw e s' => Throw e s'
    | Invalid => Invalid
    | OutOfFuel => OutOfFuel
    end.

Local Notation "'do' x <- m ; k" := (bind m (fun x => k))
  (at level 10, x name, m at level 100, k at level 200).

Section Operations.
Context {A : Type}.

Definition EMPTY : List := None.

(** [xs->...]: read the node a non-null pointer refers to. *)
Definition deref (a : loc) : M A (Node A) :=
  fun s =>
    match s !! a with
    | Some nd => Return nd s
    | None => Invalid
    end.

(** [null]: [return !xs;] *)
Definition null (xs : List) : bool :=
  match xs with
  | None => true
  | Some _ => false
  end.

(** [operator|]: [std::make_shared<Node<A>>( x, xs )], a node at an
    address not in use. *)
Definition operator_bar (x : A) (xs : List) : M A List :=
  fun s =>
    let a := fresh (dom s) in
    Return (Some a) (<[a := mkNode x xs]> s).

(** [head]: [if ( null( xs ) ) { throw xs; } return xs->_datum;] *)
Definition head (xs : List) : M A A :=
  match xs with
  | None => fun s => Throw xs s
  | Some a => do nd <- deref a; ret (_datum nd)
  end.

(** The sequence of addresses and of values reached from a pointer. *)
Inductive chain (s : gmap loc (Node A)) : List -> list loc -> list A -> Prop :=
| chain_null : chain s None [] []
| chain_node a nd ls vs :
    s !! a = Some nd ->
    chain s (_tail nd) ls vs ->
    chain s (Some a) (a :: ls) (_datum nd :: vs).

(** The same, computed; [fuel] bounds the number of nodes visited. *)
Fixpoint elems (fuel : nat) (s : gmap loc (Node A)) (xs : List) : option (list A) :=
  match xs with
  | None => Some []
  | Some a =>
      match fuel, s !! a with
      | S fuel', Some nd =>
          match elems fuel' s (_tail nd) with
          | Some vs => Some (_datum nd :: vs)
          | None => None
          end
      | _, _ => None
      end
  end.

(** Observation used in test programs: the value a list denotes. *)
Definition value_of (fuel : nat) (xs : List) : M A (option (list A)) :=
  fun s => Return (elems fuel s xs) s.

End Operations.

(** *** src/ListV7/ImmutableList.hpp *)
Module Immutable.
Section Operations.
Context {A : Type}.

(** [inline List<A> const& tail( List<A> const& xs )]:
    [if ( null( xs ) ) { throw xs; } return xs->_tail;]
    The result is a reference to the [_tail] member. *)
Definition tail (xs : List) : M A List :=
  match xs with
  | None => fun s => Throw xs s
  | Some a => do nd <- deref a; ret (_tail nd)
  end.

(** [take]: [if ( k == 0 || null( xs ) ) { return EMPTY<A>; }
    return head( xs ) | take( k - 1, tail( xs ) );]
    The recursion is on [k]. *)
Fixpoint take_rec (k : nat) (xs : List) : M A List :=
  match k with
  | O => ret EMPTY
  | S k' =>
      if null xs then ret EMPTY
      else
        do x <- head xs;
        do t <- tail xs;
        do r <- take_rec k' t;
        operator_bar x r
  end.

Definition take (k : N) (xs : List) : M A List := take_rec (N.to_nat k) xs.

End Operations.
End Immutable.

(** *** src/ListV7/ListTransparentMove.hpp, first header *)
Module TransparentMove.
Section Operations.
Context {A : Type}.

(** [inline List<A> tail( List<A> const& xs )]:
    [if ( null( xs ) ) { throw xs; } return std::move(xs->_tail);]
    [xs->] yields a [Node<A>*] to a non-const node, so [xs->_tail] is a
    modifiable lvalue; the returned [List<A>] is move-constructed from
    it, and a moved-from [std::shared_ptr] is null. *)
Definition tail (xs : List) : M A List :=
  match xs with
  | None => fun s => Throw xs s
  | Some a =>
      do nd <- deref a;
      fun s => Return (_tail nd) (<[a := mkNode (_datum nd) None]> s)
  end.

End Operations.
End TransparentMove.

End SharedStore.

Declare Scope store_scope.
Delimit Scope store_scope with store.
Notation "'do' x <- m ; k" := (SharedStore.bind m (fun x => k))
  (at level 10, x name, m at level 100, k at level 200) : store_scope.

(* --------------------------------------------------------------------- *)
(** ** The first header of ListTransparentMove.hpp with its use counts     *)
(* --------------------------------------------------------------------- *)

(** [length] of that header is [1 + length( tail( xs ) )]: the list that
    [tail] returns is a temporary, and each temporary is destroyed when the
    expression it belongs to has been evaluated.  Destroying a
    [std::shared_ptr] lowers the use count of the node it holds and, at zero,
    deletes the node, which destroys the node's [_tail] in turn.  To follow
    this a node carries, beside its members, the number of
    [std::shared_ptr]s that hold it. *)
Module CountedStore.

Definition loc : Type := positive.

Record Node (A : Type) : Type :=
  mkNode { use_count : Z; _datum : A; _tail : option loc }.
Arguments mkNode {A} use_count _datum _tail.
Arguments use_count {A} _.
Arguments _datum {A} _.
Arguments _tail {A} _.

(** [List<A> = std::shared_ptr<Node<A>>]; [None] is [EMPTY<A>]. *)
Abbreviation List := (option loc).

Inductive result (A T : Type) : Type :=
| Return (v : T) (s : gmap loc (Node A))   (* normal return, store afterwards *)
| Throw (thrown : List) (s : gmap loc (Node A))   (* [throw xs;] *)
| Invalid                                  (* a non-null pointer to no node *)
| OutOfFuel.                               (* the recursion bound was reached *)
Arguments Return {A T} v s.
Arguments Throw {A T} thrown s.
Arguments Invalid {A T}.
Arguments OutOfFuel {A T}.

Definition M (A T : Type) : Type := gmap loc (Node A) -> result A T.

Definition ret {A T} (v : T) : M A T := fun s => Return v s.

Definition bind {A T U} (m : M A T) (k : T -> M A U) : M A U :=
  fun s =>
    match m s with
    | Return v s' => k v s'
    | Throw e s' => Throw e s'
    | Invalid => Invalid
    | OutOfFuel => OutOfFuel
    end.

Local Notation "'do' x <- m ; k" := (bind m (fun x => k))
  (at level 10, x name, m at level 100, k at level 200).

Section Operations.
Context {A : Type}.

(** [xs->...]: read the node a non-null pointer refers to. *)
Definition deref (a : loc) : M A (Node A) :=
  fun s =>
    match s !! a with
    | Some nd => Return nd s
    | None => Invalid
    end.

(** [null]: [return !xs;] *)
Definition null (xs : List) : bool :=
  match xs with
  | None => true
  | Some _ => false
  end.

(** The destructor of a [std::shared_ptr<Node<A>>]: nothing for a null
    pointer; otherwise the use count goes down by one and, when it reaches
    zero, the node is deleted: its member [_tail] is destroyed and its
    storage given back.  One unit of fuel is spent per deleted node. *)
Fixpoint destroy (fuel : nat) (p : List) : M A unit :=
  match p with
  | None => ret tt
  | Some a =>
      do nd <- deref a;
      if (use_count nd - 1 =? 0)%Z then
        match fuel with
        | O => fun _ => OutOfFuel
        | S fuel' =>
            do _ <- destroy fuel' (_tail nd);
            fun s => Return tt (delete a s)
        end
      else
        fun s => Return tt (<[a := mkNode (use_count nd - 1) (_datum nd) (_tail nd)]> s)
  end.

(** [inline List<A> tail( List<A> const& xs )]:
    [if ( null( xs ) ) { throw xs; } return std::move(xs->_tail);]
    The returned [List<A>] is move-constructed from the member [_tail] of
    the node, which is left null; a move changes no use count.  The list
    thrown is the null [xs]. *)
Definition tail (xs : List) : M A List :=
  match xs with
  | None => fun s => Throw xs s
  | Some a =>
      do nd <- deref a;
      fun s => Return (_tail nd) (<[a := mkNode (use_count nd) (_datum nd) None]> s)
  end.

(** [length]: [if ( null( xs ) ) { return 0; }
    else { return 1 + length( tail( xs ) ); }], of type [unsigned].
    The temporary [tail( xs )] is bound to the parameter of the nested call
    and destroyed once the sum has been computed.  ([tail] is only called on
    a non-null [xs] here, so nothing is thrown past the temporary.) *)
Fixpoint length (fuel : nat) (xs : List) : M A N :=
  if null xs then ret 0
  else
    match fuel with
    | O => fun _ => OutOfFuel
    | S fuel' =>
        do t <- tail xs;
        do n <- length fuel' t;
        do _ <- destroy fuel t;
        ret ((1 + n) mod UINT_MOD)
    end.

(** The sequence of addresses and of values reached from a pointer. *)
Inductive chain (s : gmap loc (Node A)) : List -> list loc -> list A -> Prop :=
| chain_null : chain s None [] []
| chain_node a nd ls vs :
    s !! a = Some nd ->
    chain s (_tail nd) ls vs ->
    chain s (Some a) (a :: ls) (_datum nd :: vs).

End Operations.

End CountedStore.

Declare Scope counted_scope.
Delimit Scope counted_scope with counted.
Notation "'do' x <- m ; k" := (CountedStore.bind m (fun x => k))
  (at level 10, x name, m at level 100, k at level 200) : counted_scope.

(* --------------------------------------------------------------------- *)
(** ** src/ListV7/ListTransparentMove.hpp, second header: [prelude::list]  *)
(* --------------------------------------------------------------------- *)

(** The reference-counted list.  A [node] carries its own counter [_refs]
    (a [size_t]); a [list] is a handle holding one [node*]; [acquire] and
    [release] do the counting and [release] deletes.  Nodes live on a heap
    indexed by address, and every operation is a heap transformer that returns
    a value, propagates an exception, dereferences a pointer to no node
    ([Fault]) or exhausts the bound on loop iterations and nested calls
    ([OutOfFuel]). *)
Module prelude.

Definition loc : Type := positive.

Record node (A : Type) : Type :=
  mk_node { _refs : Z; _head : A; _tail : option loc }.
Arguments mk_node {A} _refs _head _tail.
Arguments _refs {A} _.
Arguments _head {A} _.
Arguments _tail {A} _.

(** [class list] has the single data member [node* _rep]. *)
Record list : Type := mk_list { _rep : option loc }.

(** [std::domain_error] with its [what()] text. *)
Inductive exception : Type :=
| domain_error (what_arg : string).

Inductive outcome (A T : Type) : Type :=
| Ok (v : T) (h : gmap loc (node A))
| Raise (e : exception) (h : gmap loc (node A))
| Fault
| OutOfFuel.
Arguments Ok {A T} v h.
Arguments Raise {A T} e h.
Arguments Fault {A T}.
Arguments OutOfFuel {A T}.

Definition M (A T : Type) : Type := gmap loc (node A) -> outcome A T.

Definition ret {A T} (v : T) : M A T := fun h => Ok v h.

Definition bind {A T U} (m : M A T) (k : T -> M A U) : M A U :=
  fun h =>
    match m h with
    | Ok v h' => k v h'
    | Raise e h' => Raise e h'
    | Fault => Fault
    | OutOfFuel => OutOfFuel
    end.

Definition throw {A T} (e : exception) : M A T := fun h => Raise e h.

Definition out_of_fuel {A T} : M A T := fun _ => OutOfFuel.

(** Run [cleanup] when [m] ends, whether by return or by exception: the
    destructor of a parameter or of a local.  Destructors here never throw. *)
Definition finally {A T} (m : M A T) (cleanup : M A unit) : M A T :=
  fun h =>
    match m h with
    | Ok v h' => bind cleanup (fun _ => ret v) h'
    | Raise e h' => bind cleanup (fun _ => throw e) h'
    | Fault => Fault
    | OutOfFuel => OutOfFuel
    end.

Local Notation "'do' x <- m ; k" := (bind m (fun x => k))
  (at level 10, x name, m at level 100, k at level 200).

Section Operations.
Context {A : Type}.

Definition set_refs (nd : node A) (r : Z) : node A :=
  mk_node r (_head nd) (_tail nd).

Definition set_tail (nd : node A) (t : option loc) : node A :=
  mk_node (_refs nd) (_head nd) t.

(** [n->...] for a non-null [n]: read the node. *)
Definition load (a : loc) : M A (node A) :=
  fun h =>
    match h !! a with
    | Some nd => Ok nd h
    | None => Fault
    end.

(** Assignment to a member of the node at [a]. *)
Definition store (a : loc) (nd : node A) : M A unit :=
  fun h =>
    match h !! a with
    | Some _ => Ok tt (<[a := nd]> h)
    | None => Fault
    end.

(** [new node(...)]: the node is placed at an address not in use. *)
Definition new (nd : node A) : M A loc :=
  fun h =>
    let a := fresh (dom h) in
    Ok a (<[a := nd]> h).

(** The storage of a deleted node is given back. *)
Definition free (a : loc) : M A unit :=
  fun h => Ok tt (delete a h).

(** [static node* acquire( node* n ) { if ( n ) { ++(n->_refs); } return n; }] *)
Definition acquire (n : option loc) : M A (option loc) :=
  match n with
  | None => ret n
  | Some a =>
      do nd <- load a;
      do _ <- store a (set_refs nd ((_refs nd + 1) mod SIZE_MOD));
      ret n
  end.

(** [static node* release( node* n )
      { if ( n ) { if ( !--(n->_refs) ) { delete n; } } return n; }]
    with [~node() { release( _tail ); }] run by [delete].  One unit of
    fuel is spent per nested [delete]. *)
Fixpoint release (fuel : nat) (n : option loc) : M A (option loc) :=
  match n with
  | None => ret n
  | Some a =>
      do nd <- load a;
      let r := ((_refs nd - 1) mod SIZE_MOD)%Z in
      do _ <- store a (set_refs nd r);
      if (r =? 0)%Z then
        match fuel with
        | O => out_of_fuel
        | S fuel' =>
            do _ <- release fuel' (_tail nd);
            do _ <- free a;
            ret n
        end
      else ret n
  end.

(** [explicit node( A x, node* xs ) : _refs( 0 ), _head( x ), _tail( acquire( xs ) )] *)
Definition new_node_cons (x : A) (xs : option loc) : M A loc :=
  do t <- acquire xs;
  new (mk_node 0 x t).

(** [explicit node( A x ) : _refs( 0 ), _head( x ), _tail( nullptr )] *)
Definition new_node (x : A) : M A loc :=
  new (mk_node 0 x None).

(** [list() : _rep( nullptr )] and [static list const EMPTY]. *)
Definition EMPTY : list := mk_list None.

(** [list( node* n ) : _rep( acquire( n ) )] *)
Definition list_of_node (n : option loc) : M A list :=
  do r <- acquire n;
  ret (mk_list r).

(** [list( list const& xs ) : _rep( acquire( xs._rep ) )] *)
Definition list_copy (xs : list) : M A list :=
  do r <- acquire (_rep xs);
  ret (mk_list r).

(** [list( A x, list const& xs ) : _rep( acquire( new node( x, xs._rep ) ) )] *)
Definition list_cons (x : A) (xs : list) : M A list :=
  do n <- new_node_cons x (_rep xs);
  do r <- acquire (Some n);
  ret (mk_list r).

(** [list( A x ) : list( x, EMPTY )] *)
Definition list_singleton (x : A) : M A list := list_cons x EMPTY.

(** [list( std::initializer_list<A> xs )]:
    [for (auto i = xs.end(); i-- != xs.begin();)
       { _rep = acquire( new node( *i, _rep ) ); }] *)
Fixpoint list_of_initializer (xs : Datatypes.list A) : M A list :=
  match xs with
  | [] => ret (mk_list None)
  | x :: later =>
      do this <- list_of_initializer later;
      do n <- new_node_cons x (_rep this);
      do r <- acquire (Some n);
      ret (mk_list r)
  end.

(** [~list() { release( _rep ); }] *)
Definition list_destroy (fuel : nat) (xs : list) : M A unit :=
  do _ <- release fuel (_rep xs);
  ret tt.

(** [list& operator= ( list const& xs )
      { if ( _rep != xs._rep ) { release( _rep ); _rep = acquire( xs._rep ); }
        return *this; }]
    The result is the handle [*this] after the assignment. *)
Definition operator_assign (fuel : nat) (this xs : list) : M A list :=
  if decide (_rep this <> _rep xs) then
    do _ <- release fuel (_rep this);
    do r <- acquire (_rep xs);
    ret (mk_list r)
  else ret this.

(** The same without the guard, for comparison only. *)
Definition unguarded_assign (fuel : nat) (this xs : list) : M A list :=
  do _ <- release fuel (_rep this);
  do r <- acquire (_rep xs);
  ret (mk_list r).

(** [list& operator= ( list && xs )
      { release( _rep ); _rep = xs._rep; xs._rep = nullptr; return *this; }]
    The result is [*this] and [xs] after the assignment. *)
Definition operator_assign_move (fuel : nat) (this xs : list) : M A (list * list) :=
  do _ <- release fuel (_rep this);
  ret (mk_list (_rep xs), mk_list None).

(** [explicit operator bool() { return static_cast<bool>(_rep); }] *)
Definition operator_bool (xs : list) : bool :=
  match _rep xs with
  | Some _ => true
  | None => false
  end.

(** A parameter of type [list<A>] bound to an lvalue argument: it is
    copy-constructed when the call starts and destroyed when it ends. *)
Definition by_value {T} (fuel : nat) (arg : list) (body : list -> M A T) : M A T :=
  do xs <- list_copy arg;
  finally (body xs) (list_destroy fuel xs).

(** A parameter of type [list<A>] bound to a temporary: the temporary is
    the parameter, destroyed when the call ends. *)
Definition by_value_temporary {T} (fuel : nat) (arg : list) (body : list -> M A T)
  : M A T :=
  finally (body arg) (list_destroy fuel arg).

(** [inline bool null( list<A> xs ) { return !xs; }] *)
Definition null (fuel : nat) (arg : list) : M A bool :=
  by_value fuel arg (fun xs => ret (negb (operator_bool xs))).

(** [cons] and [operator|]: [( A x, list<A> xs ) { return list<A>( x, xs ); }]
    Inside, [xs] is an lvalue, so the copying [list( A, list const& )] runs. *)
Definition cons (fuel : nat) (x : A) (arg : list) : M A list :=
  by_value fuel arg (fun xs => list_cons x xs).

Definition operator_bar (fuel : nat) (x : A) (arg : list) : M A list :=
  by_value fuel arg (fun xs => list_cons x xs).

Definition operator_bar_temporary (fuel : nat) (x : A) (arg : list) : M A list :=
  by_value_temporary fuel arg (fun xs => list_cons x xs).

(** [head]:
    [if ( null( xs ) ) { throw std::domain_error("prelude::head: empty list"); }
     return xs._rep->_head;] *)
Definition head (fuel : nat) (arg : list) : M A A :=
  by_value fuel arg (fun xs =>
    do b <- null fuel xs;
    if b then throw (domain_error "prelude::head: empty list")
    else
      match _rep xs with
      | None => fun _ => Fault
      | Some a => do nd <- load a; ret (_head nd)
      end).

(** [tail]:
    [if ( null( xs ) ) { throw std::domain_error("prelude::tail: empty list"); }
     return list<A>( xs._rep->_tail );] *)
Definition tail (fuel : nat) (arg : list) : M A list :=
  by_value fuel arg (fun xs =>
    do b <- null fuel xs;
    if b then throw (domain_error "prelude::tail: empty list")
    else
      match _rep xs with
      | None => fun _ => Fault
      | Some a => do nd <- load a; list_of_node (_tail nd)
      end).

(** [last]:
    [[
      if ( null( xs ) ) { throw std::domain_error("prelude::last: empty list"); }
      auto ys = tail( xs );
      if ( null( ys ) ) { return head( xs ); } else { return last( ys ); }
    ]]
    One unit of fuel is spent per nested call of [last]. *)
Fixpoint last (fuel : nat) (arg : list) : M A A :=
  by_value fuel arg (fun xs =>
    do b <- null fuel xs;
    if b then throw (domain_error "prelude::last: empty list")
    else
      do ys <- tail fuel xs;
      finally
        (do e <- null fuel ys;
         if e then head fuel xs
         else
           match fuel with
           | O => out_of_fuel
           | S fuel' => last fuel' ys
           end)
        (list_destroy fuel ys)).

(** [init]:
    [[
      if ( null( xs ) ) { throw std::domain_error("prelude::init: empty list"); }
      auto ys = tail( xs );
      if ( null( ys ) ) { return ys; } else { return head( xs ) | init( ys ); }
    ]]
    [return ys;] hands the local over to the caller; the result of
    [init( ys )] is a temporary that becomes the parameter of [operator|]. *)
Fixpoint init (fuel : nat) (arg : list) : M A list :=
  by_value fuel arg (fun xs =>
    do b <- null fuel xs;
    if b then throw (domain_error "prelude::init: empty list")
    else
      do ys <- tail fuel xs;
      do e <- null fuel ys;
      if e then ret ys
      else
        finally
          (do x <- head fuel xs;
           match fuel with
           | O => out_of_fuel
           | S fuel' =>
               do zs <- init fuel' ys;
               operator_bar_temporary fuel x zs
           end)
          (list_destroy fuel ys)).

(** [operator+ ( list<A> const& xs, list<A> const& ys )]:
    [[
      if ( null( xs ) ) { return ys; }
      auto zs = list<A>( xs._rep->_head );
      auto from = xs._rep;
      auto to = zs._rep;
      while ( (from = from->_tail) ) {
        to = to->_tail = list<A>::acquire( new node( from->_head ) );
      }
      to->_tail = list<A>::acquire( ys._rep );
      return zs;
    ]]
    [plus_loop fuel from to] is the loop with [from] the node last copied
    and [to] its copy; it returns the last copy. *)
Fixpoint plus_loop (fuel : nat) (from to : loc) : M A loc :=
  do fnd <- load from;
  match _tail fnd with
  | None => ret to
  | Some from' =>
      match fuel with
      | O => out_of_fuel
      | S fuel' =>
          do fnd' <- load from';
          do n <- new_node (_head fnd');
          do r <- acquire (Some n);
          do tnd <- load to;
          do _ <- store to (set_tail tnd r);
          plus_loop fuel' from' n
      end
  end.

Definition operator_plus (fuel : nat) (xs ys : list) : M A list :=
  do b <- null fuel xs;
  if b then list_copy ys
  else
    match _rep xs with
    | None => fun _ => Fault
    | Some from =>
        do fnd <- load from;
        do zs <- list_singleton (_head fnd);
        match _rep zs with
        | None => fun _ => Fault
        | Some to0 =>
            do to <- plus_loop fuel from to0;
            do t <- acquire (_rep ys);
            do tnd <- load to;
            do _ <- store to (set_tail tnd t);
            ret zs
        end
    end.

(** [append( list<A> const& xs, list<A> const& ys ) { return xs + ys; }] *)
Definition append (fuel : nat) (xs ys : list) : M A list :=
  operator_plus fuel xs ys.

(** [while ( to->_tail ) { to = to->_tail; }] *)
Fixpoint walk_to_last (fuel : nat) (to : loc) : M A loc :=
  do nd <- load to;
  match _tail nd with
  | None => ret to
  | Some next =>
      match fuel with
      | O => out_of_fuel
      | S fuel' => walk_to_last fuel' next
      end
  end.

(** [operator+ ( list<A> && xs, list<A> const& ys )]:
    [[
      if ( null( xs ) ) { return ys; }
      auto zs = std::move( xs );
      auto to = zs._rep;
      while ( to->_tail ) { to = to->_tail; }
      to->_tail = list<A>::acquire( ys._rep );
      return zs;
    ]]
    The result is the returned list together with what the caller's [xs]
    holds afterwards: the move constructor [list( list && xs )] takes
    [xs._rep] and leaves [nullptr]. *)
Definition operator_plus_move (fuel : nat) (xs ys : list) : M A (list * list) :=
  do b <- null fuel xs;
  if b then
    do r <- list_copy ys;
    ret (r, xs)
  else
    let zs := mk_list (_rep xs) in
    let xs' := mk_list None in
    match _rep zs with
    | None => fun _ => Fault
    | Some to0 =>
        do to <- walk_to_last fuel to0;
        do t <- acquire (_rep ys);
        do tnd <- load to;
        do _ <- store to (set_tail tnd t);
        ret (zs, xs')
    end.

(** [operator+ ( list<A> && xs, list<A> && ys )]: as above, but
    [to->_tail = ys._rep; ys._rep = nullptr;].  The result also holds what
    the caller's [ys] holds afterwards. *)
Definition operator_plus_move_move (fuel : nat) (xs ys : list)
  : M A (list * list * list) :=
  do b <- null fuel xs;
  if b then
    do r <- list_copy ys;
    ret (r, xs, ys)
  else
    let zs := mk_list (_rep xs) in
    let xs' := mk_list None in
    match _rep zs with
    | None => fun _ => Fault
    | Some to0 =>
        do to <- walk_to_last fuel to0;
        do tnd <- load to;
        do _ <- store to (set_tail tnd (_rep ys));
        ret (zs, xs', mk_list None)
    end.

(** [length]: [size_t n = 0; auto e = xs._rep;
    while ( e ) { ++n; e = e->_tail; } return n;] *)
Fixpoint length_loop (fuel : nat) (n : Z) (e : option loc) : M A Z :=
  match e with
  | None => ret n
  | Some a =>
      match fuel with
      | O => out_of_fuel
      | S fuel' =>
          do nd <- load a;
          length_loop fuel' ((n + 1) mod SIZE_MOD)%Z (_tail nd)
      end
  end.

Definition length (fuel : nat) (xs : list) : M A Z :=
  length_loop fuel 0%Z (_rep xs).

(** [operator<<].  The stream is the text written to it so far; [show] is
    [operator<<] of the element type.
    [[
      auto n = xs._rep;
      os << '[';
      if ( n ) {
        os << n->_head;
        while ( (n = n->_tail) ) { os << ',' << n->_head; }
      }
      return os << ']';
    ]]
    [shl_loop fuel os n] is the loop with [n] the node last written. *)
Variable show : A -> string.

Fixpoint shl_loop (fuel : nat) (os : string) (n : loc) : M A string :=
  do nd <- load n;
  match _tail nd with
  | None => ret os
  | Some n' =>
      match fuel with
      | O => out_of_fuel
      | S fuel' =>
          do nd' <- load n';
          shl_loop fuel' (os +:+ "," +:+ show (_head nd')) n'
      end
  end.

Definition operator_shl (fuel : nat) (os : string) (xs : list) : M A string :=
  let os1 := os +:+ "[" in
  do os2 <-
    match _rep xs with
    | None => ret os1
    | Some n =>
        do nd <- load n;
        shl_loop fuel (os1 +:+ show (_head nd)) n
    end;
  ret (os2 +:+ "]").

(** The addresses of the nodes reached from a pointer and the [_head] fields
    found there, in order. *)
Inductive chain (h : gmap loc (node A))
  : option loc -> Datatypes.list loc -> Datatypes.list A -> Prop :=
| chain_null : chain h None [] []
| chain_node a nd ls vs :
    h !! a = Some nd ->
    chain h (_tail nd) ls vs ->
    chain h (Some a) (a :: ls) (_head nd :: vs).

(** The value a handle denotes: the [_head] fields along its chain.
    [fuel] bounds the number of nodes visited. *)
Fixpoint elems (fuel : nat) (h : gmap loc (node A)) (n : option loc)
  : option (Datatypes.list A) :=
  match n with
  | None => Some []
  | Some a =>
      match fuel, h !! a with
      | S fuel', Some nd =>
          match elems fuel' h (_tail nd) with
          | Some vs => Some (_head nd :: vs)
          | None => None
          end
      | _, _ => None
      end
  end.

(** What a reader of values finds at an address: the [_head] and [_tail]
    fields, the counter left aside. *)
Definition links (h : gmap loc (node A)) (c : loc) : option (A * option loc) :=
  (fun nd => (_head nd, _tail nd)) <$> h !! c.

(** A handle counts in the node it holds: the node is on the heap and its
    counter is at least one and within [size_t]. *)
Definition counted (h : gmap loc (node A)) (xs : list) : Prop :=
  match _rep xs with
  | None => True
  | Some a => exists nd, h !! a = Some nd /\ (0 < _refs nd < SIZE_MOD)%Z
  end.

(** Observations used in test programs: the value a handle denotes and the
    counter of the node it holds. *)
Definition value_of (fuel : nat) (xs : list) : M A (option (Datatypes.list A)) :=
  fun h => Ok (elems fuel h (_rep xs)) h.

Definition refs_of (xs : list) : M A (option Z) :=
  fun h => Ok (match _rep xs with
               | Some a => _refs <$> h !! a
               | None => None
               end) h.

(** [take]:
    [[
      auto from = xs._rep;
      if ( k <= 0 || !from ) { return empty<A>(); }
      auto ys = list<A>( from->_head );
      auto to = ys._rep;
      while ( --k > 0 && (from = from->_tail) ) {
        to = to->_tail = list<A>::acquire( new node( from->_head ) );
      }
      return ys;
    ]]
    [take_loop k from to] is the loop entered with the counter at [k >= 1],
    [from] the node last copied and [to] its copy; the recursion is on [k]. *)
Fixpoint take_loop (k : nat) (from to : loc) : M A unit :=
  match k with
  | O => ret tt
  | S m =>
      match m with
      | O => ret tt
      | S _ =>
          do fnd <- load from;
          match _tail fnd with
          | None => ret tt
          | Some from' =>
              do fnd' <- load from';
              do n <- new_node (_head fnd');
              do r <- acquire (Some n);
              do tnd <- load to;
              do _ <- store to (set_tail tnd r);
              take_loop m from' n
          end
      end
  end.

Definition take (k : N) (xs : list) : M A list :=
  match _rep xs with
  | None => list_copy EMPTY
  | Some from =>
      if k <=? 0 then list_copy EMPTY
      else
        do fnd <- load from;
        do ys <- list_singleton (_head fnd);
        match _rep ys with
        | None => fun _ => Fault
        | Some to =>
            do _ <- take_loop (N.to_nat k) from to;
            ret ys
        end
  end.

(** [drop]:
    [[
      if ( k <= 0 ) { return xs; }
      auto to = xs._rep;
      while ( k-- > 0 && to ) { to = to->_tail; }
      return list<A>( to );
    ]] *)
Fixpoint drop_loop (k : nat) (to : option loc) : M A (option loc) :=
  match k, to with
  | S k', Some a =>
      do nd <- load a;
      drop_loop k' (_tail nd)
  | _, _ => ret to
  end.

Definition drop (k : N) (xs : list) : M A list :=
  if k <=? 0 then list_copy xs
  else
    do to <- drop_loop (N.to_nat k) (_rep xs);
    list_of_node to.

(** [reverse]:
    [[
      auto from = xs._rep;
      if ( !from ) { return xs; }
      auto to = new node( from->_head );
      while ( (from = from->_tail) ) { to = new node( from->_head, to ); }
      return list<A>( to );
    ]] *)
Fixpoint reverse_loop (fuel : nat) (from to : loc) : M A loc :=
  do fnd <- load from;
  match _tail fnd with
  | None => ret to
  | Some from' =>
      match fuel with
      | O => out_of_fuel
      | S fuel' =>
          do fnd' <- load from';
          do n <- new_node_cons (_head fnd') (Some to);
          reverse_loop fuel' from' n
      end
  end.

Definition reverse (fuel : nat) (xs : list) : M A list :=
  match _rep xs with
  | None => list_copy xs
  | Some from =>
      do fnd <- load from;
      do to <- new_node (_head fnd);
      do last_made <- reverse_loop fuel from to;
      list_of_node (Some last_made)
  end.

(** [filter]:
    [[
      list<A> ys;
      auto to = ys._rep;
      auto from = xs._rep;
      while ( from ) {
        if ( pred( from->_head ) ) {
          if ( to ) { to = to->_tail = list<A>::acquire( new node( from->_head ) ); }
          else      { to = ys._rep = list<A>::acquire( new node( from->_head ) ); }
        }
        from = from->_tail;
      }
      return ys;
    ]]
    [filter_loop pred fuel from ys_rep to] returns [ys._rep]. *)
Fixpoint filter_loop (pred : A -> bool) (fuel : nat)
    (from ys_rep to : option loc) : M A (option loc) :=
  match from with
  | None => ret ys_rep
  | Some f =>
      match fuel with
      | O => out_of_fuel
      | S fuel' =>
          do fnd <- load f;
          if pred (_head fnd) then
            match to with
            | Some t =>
                do n <- new_node (_head fnd);
                do r <- acquire (Some n);
                do tnd <- load t;
                do _ <- store t (set_tail tnd r);
                do fnd2 <- load f;
                filter_loop pred fuel' (_tail fnd2) ys_rep r
            | None =>
                do n <- new_node (_head fnd);
                do r <- acquire (Some n);
                do fnd2 <- load f;
                filter_loop pred fuel' (_tail fnd2) r r
            end
          else filter_loop pred fuel' (_tail fnd) ys_rep to
      end
  end.

Definition filter (pred : A -> bool) (fuel : nat) (xs : list) : M A list :=
  do r <- filter_loop pred fuel (_rep xs) None None;
  ret (mk_list r).

(** [sum]: [A result = 0; auto e = xs._rep;
    while ( e ) { result += e->_head; e = e->_tail; } return result;]
    [zero] is what [0] converts to and [add] the [operator+=] of the
    element type. *)
Fixpoint sum_loop (add : A -> A -> A) (fuel : nat) (result : A) (e : option loc)
  : M A A :=
  match e with
  | None => ret result
  | Some a =>
      match fuel with
      | O => out_of_fuel
      | S fuel' =>
          do nd <- load a;
          sum_loop add fuel' (add result (_head nd)) (_tail nd)
      end
  end.

Definition sum (zero : A) (add : A -> A -> A) (fuel : nat) (xs : list) : M A A :=
  sum_loop add fuel zero (_rep xs).

(** [operator==]:
    [[
      auto xs_ = xs._rep, ys_ = ys._rep;
      if ( xs_ == ys_ ) { return true; }
      while ( xs_ && ys_ ) {
        if ( xs_->_head != ys_->_head ) { return false; }
        xs_ = xs_->_tail;
        ys_ = ys_->_tail;
      }
      return xs_ == ys_;
    ]]
    [neq] is [operator!=] of the element type. *)
Fixpoint eq_loop (neq : A -> A -> bool) (fuel : nat) (xs_ ys_ : option loc)
  : M A bool :=
  match xs_, ys_ with
  | Some x, Some y =>
      match fuel with
      | O => out_of_fuel
      | S fuel' =>
          do xn <- load x;
          do yn <- load y;
          if neq (_head xn) (_head yn) then ret false
          else eq_loop neq fuel' (_tail xn) (_tail yn)
      end
  | _, _ => ret (bool_decide (xs_ = ys_))
  end.

Definition operator_eq (neq : A -> A -> bool) (fuel : nat) (xs ys : list) : M A bool :=
  if decide (_rep xs = _rep ys) then ret true
  else eq_loop neq fuel (_rep xs) (_rep ys).

End Operations.

End prelude.

Declare Scope heap_scope.
Delimit Scope heap_scope with heap.
Notation "'do' x <- m ; k" := (prelude.bind m (fun x => k))
  (at level 10, x name, m at level 100, k at level 200) : heap_scope.

(* --------------------------------------------------------------------- *)
(** ** Notions of the specification                                        *)
(* --------------------------------------------------------------------- *)

(** What the specification means by a rendering: an opening bracket, the
    rendered values separated by commas, a closing bracket. *)
Fixpoint comma_separated (ss : list string) : string :=
  match ss with
  | [] => ""
  | [s] => s
  | s :: rest => s +:+ "," +:+ comma_separated rest
  end.

Definition rendering_spec {A : Type} (show : A -> string) (vs : list A) : string :=
  "[" +:+ comma_separated (show <$> vs) +:+ "]".

(** The state of a loop that builds a fresh chain at its end, as [map],
    [take], [filter] and the copying [operator+] do: the heap [h] extends the
    heap [h0] the call started from, the chain built so far starts at [z], ends
    at [to], lies outside [h0], and each of its nodes has count 1. *)
Definition building {A : Type} (h0 h : gmap prelude.loc (prelude.node A))
    (z : prelude.loc) (lz : list prelude.loc) (vz : list A) (to : prelude.loc) : Prop :=
  h0 ⊆ h
  /\ prelude.chain h (Some z) lz vz
  /\ last lz = Some to
  /\ (forall c, c ∈ lz -> h0 !! c = None)
  /\ (forall c, c ∈ lz -> prelude._refs <$> h !! c = Some 1%Z).

(* ===================================================================== *)
(** * Part II -- properties                                                *)
(* ===================================================================== *)

Lemma comma_separated_cons (s t : string) (rest : list string) :
  comma_separated (s :: t :: rest) = s +:+ "," +:+ comma_separated (t :: rest).
Proof. reflexivity. Qed.

Lemma string_app_cons (c : Ascii.ascii) (s t : string) :
  String c s +:+ t = String c (s +:+ t).
Proof. reflexivity. Qed.

Lemma string_app_nil_l (t : string) : "" +:+ t = t.
Proof. reflexivity. Qed.

Lemma string_app_assoc (s t u : string) : (s +:+ t) +:+ u = s +:+ (t +:+ u).
Proof.
  induction s as [|c s IH]; [reflexivity|].
  rewrite !string_app_cons. now rewrite IH.
Qed.

Lemma string_app_empty_r (s : string) : s +:+ "" = s.
Proof.
  induction s as [|c s IH]; [reflexivity|].
  rewrite string_app_cons. now rewrite IH.
Qed.

(* --------------------------------------------------------------------- *)
(** ** ImmutableList.hpp                                                   *)
(* --------------------------------------------------------------------- *)

Section ImmutableListFacts.
Import ImmutableList.
Context {A : Type}.
Implicit Types (xs ys zs : List A) (k : N).

Lemma operator_plus_EMPTY_r xs : operator_plus xs EMPTY = xs.
Proof. induction xs as [|x t IH]; simpl; unfold operator_bar; congruence. Qed.

Lemma elems_operator_plus xs ys :
  elems (operator_plus xs ys) = elems xs ++ elems ys.
Proof. induction xs as [|x t IH]; simpl; congruence. Qed.

Lemma elems_inj xs ys : elems xs = elems ys -> xs = ys.
Proof.
  revert ys; induction xs as [|x t IH]; intros [|y u]; simpl; try discriminate.
  - reflexivity.
  - intros [= -> H]. f_equal. now apply IH.
Qed.

(** [length] counts the nodes, modulo the range of [unsigned]. *)
Lemma length_count xs :
  length xs = N.of_nat (Datatypes.length (elems xs)) mod UINT_MOD.
Proof.
  induction xs as [|x t IH]; [reflexivity|].
  cbn [length elems Datatypes.length]. rewrite IH, Nat2N.inj_succ, <- N.add_1_l.
  rewrite N.Div0.add_mod_idemp_r. reflexivity.
Qed.

Lemma length_le_count xs : length xs <= N.of_nat (Datatypes.length (elems xs)).
Proof. rewrite length_count. apply N.Div0.mod_le. Qed.

Lemma elems_rev xs ys : elems (rev xs ys) = List.rev (elems xs) ++ elems ys.
Proof.
  revert ys; induction xs as [|x t IH]; intros ys; [reflexivity|].
  cbn [rev elems List.rev]. rewrite IH, <- app_assoc. reflexivity.
Qed.

Lemma elems_reverse xs : elems (reverse xs) = List.rev (elems xs).
Proof. unfold reverse. rewrite elems_rev. apply app_nil_r. Qed.

(** Reversing what [rev] has accumulated gives back the input in front. *)
Lemma rev_rev xs ys zs : rev (rev xs ys) zs = rev ys (operator_plus xs zs).
Proof.
  revert ys zs; induction xs as [|x t IH]; intros ys zs; [reflexivity|].
  cbn [rev operator_plus]. rewrite IH. reflexivity.
Qed.

(** The split at [k] is exact for every [k], also beyond the end. *)
Lemma take_drop_any k xs : operator_plus (take k xs) (drop k xs) = xs.
Proof.
  revert k; induction xs as [|x t IH]; intros k; [reflexivity|].
  cbn [take drop]. destruct (k =? 0); [reflexivity|].
  cbn [operator_plus operator_bar]. now rewrite IH.
Qed.

Lemma elems_take k xs : elems (take k xs) = firstn (N.to_nat k) (elems xs).
Proof.
  revert k; induction xs as [|x t IH]; intros k.
  - now destruct (N.to_nat k).
  - cbn [take elems]. destruct (N.eqb_spec k 0) as [->|Hk]; [reflexivity|].
    replace (N.to_nat k) with (S (N.to_nat (k - 1))) by lia.
    cbn [elems operator_bar firstn]. now rewrite IH.
Qed.

Lemma elems_drop k xs : elems (drop k xs) = skipn (N.to_nat k) (elems xs).
Proof.
  revert k; induction xs as [|x t IH]; intros k.
  - now destruct (N.to_nat k).
  - cbn [drop elems]. destruct (N.eqb_spec k 0) as [->|Hk]; [reflexivity|].
    replace (N.to_nat k) with (S (N.to_nat (k - 1))) by lia.
    cbn [skipn]. now rewrite IH.
Qed.

Lemma take_all k xs :
  N.of_nat (Datatypes.length (elems xs)) <= k -> take k xs = xs.
Proof.
  intros H. apply elems_inj. rewrite elems_take. apply firstn_all2. lia.
Qed.

Lemma init_removelast x t :
  exists ys, init (Node x t) = Return ys /\ elems ys = removelast (x :: elems t).
Proof.
  revert x; induction t as [|y u IH]; intros x.
  - exists EMPTY. split; reflexivity.
  - destruct (IH y) as (ys & Hys & Hel).
    exists (Node x ys). split.
    + change (init (Node x (Node y u)))
        with (bind (init (Node y u)) (fun zs => Return (operator_bar x zs))).
      now rewrite Hys.
    + cbn [elems]. rewrite Hel. reflexivity.
Qed.

Variable show : A -> string.

Lemma shl_loop_spec os n :
  shl_loop show os n
  = os +:+ (if null n then "" else "," +:+ comma_separated (show <$> elems n)).
Proof.
  revert os; induction n as [|x t IH]; intros os.
  - cbn. now rewrite string_app_empty_r.
  - cbn [shl_loop null]. rewrite IH. destruct t as [|y u].
    + cbn. now rewrite string_app_empty_r, ?string_app_assoc.
    + cbn [null]. change (show <$> elems (Node x (Node y u)))
        with (show x :: show y :: (show <$> elems u)).
      rewrite comma_separated_cons. now rewrite !string_app_assoc.
Qed.

Lemma operator_shl_nonempty os x t :
  operator_shl show os (Node x t) = os +:+ rendering_spec show (elems (Node x t)).
Proof.
  unfold operator_shl, rendering_spec. rewrite shl_loop_spec. destruct t as [|y u].
  - cbn. now rewrite string_app_empty_r, ?string_app_assoc.
  - cbn [null]. change (show <$> elems (Node x (Node y u)))
      with (show x :: show y :: (show <$> elems u)).
    rewrite comma_separated_cons. now rewrite !string_app_assoc.
Qed.

End ImmutableListFacts.

(** C4.  For every list [xs] and every [k] with [0 <= k <= length(xs)],
    [append(take(k, xs), drop(k, xs))] is structurally equal to [xs]:
    the list that [operator+] builds from the two parts is node for node
    the list [xs].  (ImmutableList.hpp: [take], [drop], [operator+].) *)
Theorem append_take_drop (A : Type) (xs : ImmutableList.List A) (k : N) :
  0 <= k <= ImmutableList.length xs ->
  ImmutableList.operator_plus (ImmutableList.take k xs) (ImmutableList.drop k xs) = xs.
Proof. intros _. apply take_drop_any. Qed.

Lemma append_take_drop_witness :
  0 <= 2 <= ImmutableList.length
              (ImmutableList.Node 1 (ImmutableList.Node 2 (ImmutableList.Node 3 ImmutableList.EMPTY)))
  /\ ImmutableList.operator_plus
       (ImmutableList.take 2
          (ImmutableList.Node 1 (ImmutableList.Node 2 (ImmutableList.Node 3 ImmutableList.EMPTY))))
       (ImmutableList.drop 2
          (ImmutableList.Node 1 (ImmutableList.Node 2 (ImmutableList.Node 3 ImmutableList.EMPTY))))
     = ImmutableList.Node 1 (ImmutableList.Node 2 (ImmutableList.Node 3 ImmutableList.EMPTY)).
Proof.
  assert (H : 0 <= 2 <= ImmutableList.length
                (ImmutableList.Node 1 (ImmutableList.Node 2 (ImmutableList.Node 3 ImmutableList.EMPTY))))
    by (vm_compute; split; discriminate).
  exact (conj H (append_take_drop N _ 2 H)).
Defined.

(** C8.  For every list [xs], [length(reverse(xs)) == length(xs)], and
    [reverse(reverse(xs))] is structurally equal to [xs].
    (ImmutableList.hpp: [reverse] with its accumulating lambda, [length].) *)
Theorem reverse_length_and_involution (A : Type) (xs : ImmutableList.List A) :
  ImmutableList.length (ImmutableList.reverse xs) = ImmutableList.length xs
  /\ ImmutableList.reverse (ImmutableList.reverse xs) = xs.
Proof.
  split.
  - rewrite !length_count, elems_reverse, length_rev. reflexivity.
  - unfold ImmutableList.reverse. rewrite rev_rev. cbn [ImmutableList.rev].
    apply operator_plus_EMPTY_r.
Qed.

Lemma length_removelast_cons {A : Type} (x : A) (l : list A) :
  Datatypes.length (removelast (x :: l)) = Datatypes.length l.
Proof.
  revert x; induction l as [|y l IH]; intros x; [reflexivity|].
  change (removelast (x :: y :: l)) with (x :: removelast (y :: l)).
  cbn [Datatypes.length]. now rewrite IH.
Qed.

(** [init] of ImmutableList.hpp drops exactly the last element, and the
    length it reports is one less (in [unsigned] arithmetic). *)
Lemma ImmutableList_init_all_but_last (A : Type) (xs : ImmutableList.List A) :
  xs <> ImmutableList.EMPTY ->
  exists ys, ImmutableList.init xs = ImmutableList.Return ys
             /\ ImmutableList.elems ys = removelast (ImmutableList.elems xs)
             /\ (ImmutableList.length ys + 1) mod UINT_MOD = ImmutableList.length xs.
Proof.
  destruct xs as [|x t]; [congruence|]. intros _.
  destruct (init_removelast x t) as (ys & Hys & Hel).
  exists ys. split; [exact Hys|]. split; [exact Hel|].
  rewrite !length_count, Hel. cbn [ImmutableList.elems].
  rewrite N.Div0.add_mod_idemp_l. f_equal.
  pose proof (length_removelast_cons x (ImmutableList.elems t)) as H.
  rewrite H. cbn [Datatypes.length]. lia.
Qed.

(* --------------------------------------------------------------------- *)
(** ** part_008                                                            *)
(* --------------------------------------------------------------------- *)

Section CopyingListFacts.
Import CopyingList.
Context {T : Type}.
Implicit Types (n built : NodePtr T) (xs : List T).

Lemma chain_elems_inj n m : chain_elems n = chain_elems m -> n = m.
Proof.
  revert m; induction n as [|x t IH]; intros [|y u]; simpl; try discriminate.
  - reflexivity.
  - intros [= -> H]. f_equal. now apply IH.
Qed.

Lemma chain_elems_link_last n x :
  chain_elems (link_last n x) = chain_elems n ++ [x].
Proof. induction n as [|y t IH]; simpl; congruence. Qed.

Lemma chain_elems_copy_loop n built :
  chain_elems (copy_loop n built) = chain_elems built ++ chain_elems n.
Proof.
  revert built; induction n as [|x t IH]; intros built; simpl.
  - now rewrite app_nil_r.
  - rewrite IH, chain_elems_link_last, <- app_assoc. reflexivity.
Qed.

(** A clone made by [List(Node* n)] has the value of its source. *)
Lemma List_of_Node_value n : List_of_Node n = mkList n.
Proof.
  destruct n as [|x t]; [reflexivity|]. unfold List_of_Node. f_equal.
  apply chain_elems_inj. now rewrite chain_elems_copy_loop.
Qed.

Lemma EMPTY_value : @EMPTY T = @mkList T nullptr.
Proof. reflexivity. Qed.

(** [init] clones the whole chain: the loop runs until [from] is null. *)
Lemma init_clones_all (x : T) (t : NodePtr T) :
  init (mkList (new_Node x t)) = Return (mkList (new_Node x t)).
Proof.
  unfold init. cbn [_head]. f_equal. f_equal.
  apply chain_elems_inj. now rewrite chain_elems_copy_loop.
Qed.

Lemma index_rec_spec (k : nat) xs :
  match elems xs !! k with
  | Some x => index_rec k xs = Return x
  | None => index_rec k xs = Throw EMPTY
  end.
Proof.
  revert xs; induction k as [|k IH]; intros [[|x t]]; try reflexivity.
  cbn [index_rec _head tail]. rewrite List_of_Node_value.
  specialize (IH (mkList t)). exact IH.
Qed.

End CopyingListFacts.

(** C7 (evaluation at the failing input).  On [xs = [1,2,3]] the [init] of
    part_008 returns a list holding [1,2,3]: the last element is still there,
    where all but the last, [1,2], are expected. *)
Theorem CopyingList_init_keeps_last :
  exists ys,
    CopyingList.init
      (CopyingList.mkList
         (CopyingList.new_Node 1 (CopyingList.new_Node 2 (CopyingList.new_Node 3 CopyingList.nullptr))))
    = CopyingList.Return ys
    /\ CopyingList.elems ys = [1; 2; 3]
    /\ CopyingList.elems ys <> removelast [1; 2; 3].
Proof. eexists. split; [reflexivity|]. split; [reflexivity | discriminate]. Qed.

(** The [take] of part_008 at [k == 0] hands back a copy of [xs], where the
    other headers return the empty list. *)
Lemma CopyingList_take_zero (T : Type) (xs : CopyingList.List T) :
  CopyingList.take 0 xs = xs.
Proof.
  destruct xs as [n]. unfold CopyingList.take. cbn [CopyingList._head].
  destruct n; unfold CopyingList.List_copy; now rewrite List_of_Node_value.
Qed.

(** C9.  Indexed access [xs[k]] is zero-based: for [k] below the number of
    elements it returns the element at position [k]; for every [k] at or
    beyond the number of elements of any list, empty or not, the recursion
    reaches the empty list and throws the empty-list value [EMPTY] itself,
    the same object whatever the index was.  (part_008 and part_004,
    [List::operator[]].) *)
Theorem operator_index_zero_based (T : Type) (xs : CopyingList.List T) (k : N) :
  (k < N.of_nat (Datatypes.length (CopyingList.elems xs)) ->
   exists x, CopyingList.elems xs !! N.to_nat k = Some x
             /\ CopyingList.operator_index xs k = CopyingList.Return x)
  /\ (N.of_nat (Datatypes.length (CopyingList.elems xs)) <= k ->
      CopyingList.operator_index xs k = CopyingList.Throw CopyingList.EMPTY).
Proof.
  unfold CopyingList.operator_index.
  pose proof (index_rec_spec (N.to_nat k) xs) as H. split; intros Hk.
  - destruct (lookup_lt_is_Some_2 (CopyingList.elems xs) (N.to_nat k)) as [x Hx]; [lia|].
    rewrite Hx in H. eauto.
  - rewrite (lookup_ge_None_2 (CopyingList.elems xs) (N.to_nat k)) in H by lia.
    exact H.
Qed.

Lemma operator_index_zero_based_witness :
  (exists x, CopyingList.elems
               (CopyingList.mkList
                  (CopyingList.new_Node 7 (CopyingList.new_Node 8 CopyingList.nullptr)))
             !! N.to_nat 1 = Some x
             /\ CopyingList.operator_index
                  (CopyingList.mkList
                     (CopyingList.new_Node 7 (CopyingList.new_Node 8 CopyingList.nullptr))) 1
                = CopyingList.Return x)
  /\ CopyingList.operator_index
       (CopyingList.mkList
          (CopyingList.new_Node 7 (CopyingList.new_Node 8 CopyingList.nullptr))) 2
     = CopyingList.Throw CopyingList.EMPTY.
Proof.
  split.
  - apply (operator_index_zero_based N
             (CopyingList.mkList
                (CopyingList.new_Node 7 (CopyingList.new_Node 8 CopyingList.nullptr))) 1).
    vm_compute. reflexivity.
  - apply (operator_index_zero_based N
             (CopyingList.mkList
                (CopyingList.new_Node 7 (CopyingList.new_Node 8 CopyingList.nullptr))) 2).
    vm_compute. discriminate.
Defined.

(* --------------------------------------------------------------------- *)
(** ** The [std::shared_ptr] headers: who points where                     *)
(* --------------------------------------------------------------------- *)

Section SharedStoreFacts.
Import SharedStore.
Context {A : Type}.
Implicit Types (s : gmap loc (Node A)) (xs : List) (ls : list loc) (vs : list A).

Lemma bind_Return {T U} (m : M A T) (k : T -> M A U) s v s' :
  m s = Return v s' -> bind m k s = k v s'.
Proof. unfold bind. now intros ->. Qed.

Lemma deref_Some s a nd : s !! a = Some nd -> deref a s = Return nd s.
Proof. unfold deref. now intros ->. Qed.


(** A node placed at an unused address leaves every chain as it was. *)
Lemma chain_insert_fresh s xs ls vs a nd :
  s !! a = None -> chain s xs ls vs -> chain (<[a := nd]> s) xs ls vs.
Proof.
  intros Ha. induction 1 as [|b nb ls vs Hb _ IH]; [constructor|].
  econstructor; [|exact IH].
  rewrite lookup_insert_ne; [exact Hb | congruence].
Qed.

Lemma chain_elems s xs ls vs (fuel : nat) :
  chain s xs ls vs -> (Datatypes.length ls <= fuel)%nat -> elems fuel s xs = Some vs.
Proof.
  intros H. revert fuel. induction H as [|a nd ls vs Ha _ IH]; intros fuel Hf.
  - now destruct fuel.
  - destruct fuel as [|fuel]; cbn [Datatypes.length] in Hf; [lia|].
    cbn [elems]. rewrite Ha, IH by lia. reflexivity.
Qed.

(** [tail] of ImmutableList.hpp returns the [_tail] member as it stands and
    writes nothing. *)
Lemma Immutable_tail_shares s a nd :
  s !! a = Some nd -> Immutable.tail (Some a) s = Return (_tail nd) s.
Proof.
  intros Ha. unfold Immutable.tail. now rewrite (bind_Return _ _ s nd s (deref_Some _ _ _ Ha)).
Qed.

(** [tail] of the first header of ListTransparentMove.hpp empties the
    [_tail] member of the node it reads. *)
Lemma TransparentMove_tail_moves s a nd :
  s !! a = Some nd ->
  TransparentMove.tail (Some a) s
  = Return (_tail nd) (<[a := mkNode (_datum nd) None]> s).
Proof.
  intros Ha. unfold TransparentMove.tail.
  now rewrite (bind_Return _ _ s nd s (deref_Some _ _ _ Ha)).
Qed.


End SharedStoreFacts.




(** The [tail] of ImmutableList.hpp does what C2 says: it returns the
    remainder that [xs] already points to, no node is made or changed, and
    [xs] denotes afterwards what it denoted before. *)
Lemma Immutable_tail_leaves_argument (A : Type)
    (s : gmap SharedStore.loc (SharedStore.Node A)) (a : SharedStore.loc)
    (ls : list SharedStore.loc) (x : A) (vs : list A) :
  SharedStore.chain s (Some a) (a :: ls) (x :: vs) ->
  exists t,
    SharedStore.Immutable.tail (Some a) s = SharedStore.Return t s
    /\ SharedStore.chain s t ls vs.
Proof.
  inversion 1 as [|a' nd ls' vs' Ha Hc]; subst.
  exists (SharedStore._tail nd). split; [now apply Immutable_tail_shares | exact Hc].
Qed.

(** The [tail] of the first header of ListTransparentMove.hpp returns the
    same remainder, but afterwards [xs] denotes its first element only. *)
Lemma TransparentMove_tail_truncates (A : Type)
    (s : gmap SharedStore.loc (SharedStore.Node A)) (a : SharedStore.loc)
    (ls : list SharedStore.loc) (x : A) (vs : list A) :
  SharedStore.chain s (Some a) (a :: ls) (x :: vs) ->
  exists t s',
    SharedStore.TransparentMove.tail (Some a) s = SharedStore.Return t s'
    /\ SharedStore.chain s' (Some a) [a] [x].
Proof.
  inversion 1 as [|a' nd ls' vs' Ha Hc]; subst.
  exists (SharedStore._tail nd), (<[a := SharedStore.mkNode (SharedStore._datum nd) None]> s).
  split; [now apply TransparentMove_tail_moves|].
  change (SharedStore._datum nd)
    with (SharedStore._datum (SharedStore.mkNode (SharedStore._datum nd) None)) at 2.
  econstructor; [apply lookup_insert_eq | constructor].
Qed.

(** C2 (evaluation at the failing input).  Build [xs = 1 | (2 | EMPTY)] and
    call [tail( xs )] of the first header of ListTransparentMove.hpp: the
    call returns [[2]], and [xs], which denoted [[1,2]] before the call,
    denotes [[1]] after it.  The node of [xs] was changed after its
    construction. *)
Theorem TransparentMove_tail_changes_its_argument :
  exists s',
    (do t <- SharedStore.operator_bar 2 SharedStore.EMPTY;
     do xs <- SharedStore.operator_bar 1 t;
     do before <- SharedStore.value_of 3 xs;
     do ys <- SharedStore.TransparentMove.tail xs;
     do result <- SharedStore.value_of 3 ys;
     do after <- SharedStore.value_of 3 xs;
     SharedStore.ret (before, result, after))%store ∅
    = SharedStore.Return (Some [1; 2], Some [2], Some [1]) s'.
Proof. eexists. vm_compute. reflexivity. Qed.

(** The same program with the [tail] of ImmutableList.hpp leaves [xs] alone. *)
Lemma Immutable_tail_keeps_its_argument :
  exists s',
    (do t <- SharedStore.operator_bar 2 SharedStore.EMPTY;
     do xs <- SharedStore.operator_bar 1 t;
     do before <- SharedStore.value_of 3 xs;
     do ys <- SharedStore.Immutable.tail xs;
     do result <- SharedStore.value_of 3 ys;
     do after <- SharedStore.value_of 3 xs;
     SharedStore.ret (before, result, after))%store ∅
    = SharedStore.Return (Some [1; 2], Some [2], Some [1; 2]) s'.
Proof. eexists. vm_compute. reflexivity. Qed.

(** In the first header of ListTransparentMove.hpp [length] is written with
    that [tail]: on [xs = [1,2]], the only owner of its two nodes, it reports
    2 and leaves a list on which it then reports 1; the node that held 2 has
    been deleted with the temporary that [tail] returned. *)
Lemma TransparentMove_length_consumes :
  (do first <- CountedStore.length 3 (Some 2%positive);
   do second <- CountedStore.length 3 (Some 2%positive);
   CountedStore.ret (first, second))%counted
    (<[2%positive := CountedStore.mkNode 1%Z 1 (Some 1%positive)]>
       {[1%positive := CountedStore.mkNode 1%Z 2 None]})
  = CountedStore.Return (2, 1) {[2%positive := CountedStore.mkNode 1%Z 1 None]}.
Proof. vm_compute. reflexivity. Qed.

(* --------------------------------------------------------------------- *)
(** ** [prelude::list]: counting, errors, rendering                         *)
(* --------------------------------------------------------------------- *)

Section PreludeFacts.
Context {A : Type}.
Implicit Types (h : gmap prelude.loc (prelude.node A)) (xs ys : prelude.list)
  (a b l : prelude.loc) (nd : prelude.node A) (fuel : nat).

Lemma bind_Ok {T U} (m : prelude.M A T) (k : T -> prelude.M A U) h v h' :
  m h = prelude.Ok v h' -> prelude.bind m k h = k v h'.
Proof. unfold prelude.bind. now intros ->. Qed.

Lemma load_Some h a nd : h !! a = Some nd -> prelude.load a h = prelude.Ok nd h.
Proof. unfold prelude.load. now intros ->. Qed.

Lemma store_Some h a nd nd' :
  h !! a = Some nd -> prelude.store a nd' h = prelude.Ok tt (<[a := nd']> h).
Proof. unfold prelude.store. now intros ->. Qed.

Lemma set_refs_same nd r : prelude.set_refs (prelude.set_refs nd r) (prelude._refs nd) = nd.
Proof. now destruct nd. Qed.

Lemma release_null fuel h : prelude.release fuel None h = prelude.Ok None h.
Proof. now destruct fuel. Qed.

Lemma acquire_Some h a nd :
  h !! a = Some nd ->
  prelude.acquire (Some a) h
  = prelude.Ok (Some a)
      (<[a := prelude.set_refs nd ((prelude._refs nd + 1) mod SIZE_MOD)%Z]> h).
Proof.
  intros Ha. unfold prelude.acquire.
  rewrite (bind_Ok _ _ h nd h (load_Some _ _ _ Ha)).
  now rewrite (bind_Ok _ _ h tt _ (store_Some _ _ _ _ Ha)).
Qed.

(** A release that leaves the counter above zero only writes the counter. *)
Lemma release_keeps fuel h a nd :
  h !! a = Some nd ->
  ((prelude._refs nd - 1) mod SIZE_MOD)%Z <> 0%Z ->
  prelude.release fuel (Some a) h
  = prelude.Ok (Some a)
      (<[a := prelude.set_refs nd ((prelude._refs nd - 1) mod SIZE_MOD)%Z]> h).
Proof.
  intros Ha Hr.
  assert (E : prelude.release fuel (Some a)
              = prelude.bind (prelude.load a) (fun nd =>
                  let r := ((prelude._refs nd - 1) mod SIZE_MOD)%Z in
                  prelude.bind (prelude.store a (prelude.set_refs nd r)) (fun _ =>
                    if (r =? 0)%Z then
                      match fuel with
                      | O => prelude.out_of_fuel
                      | S fuel' =>
                          prelude.bind (prelude.release fuel' (prelude._tail nd)) (fun _ =>
                          prelude.bind (prelude.free a) (fun _ => prelude.ret (Some a)))
                      end
                    else prelude.ret (Some a))))
    by now destruct fuel.
  rewrite E. rewrite (bind_Ok _ _ h nd h (load_Some _ _ _ Ha)). cbv zeta.
  rewrite (bind_Ok _ _ h tt _ (store_Some _ _ _ _ Ha)).
  now apply Z.eqb_neq in Hr as ->.
Qed.

Lemma counter_round_trip (r : Z) :
  (0 < r < SIZE_MOD)%Z ->
  (((r + 1) mod SIZE_MOD - 1) mod SIZE_MOD)%Z = r.
Proof.
  unfold SIZE_MOD. change (2 ^ 64)%Z with 18446744073709551616%Z. intros Hr.
  destruct (Z.eq_dec (r + 1)%Z 18446744073709551616%Z) as [E|E].
  - rewrite E, Z.mod_same by lia. change (0 - 1)%Z with (-1)%Z.
    change (-1 mod 18446744073709551616)%Z with 18446744073709551615%Z. lia.
  - rewrite (Z.mod_small (r + 1)%Z) by lia.
    replace (r + 1 - 1)%Z with r by lia. apply Z.mod_small. lia.
Qed.

(** The copy made for a by-value parameter and its destruction cancel out
    while the caller's handle counts in the node. *)
Lemma acquire_then_release fuel h a nd :
  h !! a = Some nd ->
  (0 < prelude._refs nd < SIZE_MOD)%Z ->
  prelude.release fuel (Some a)
    (<[a := prelude.set_refs nd ((prelude._refs nd + 1) mod SIZE_MOD)%Z]> h)
  = prelude.Ok (Some a) h.
Proof.
  intros Ha Hr.
  rewrite (release_keeps fuel _ a
             (prelude.set_refs nd ((prelude._refs nd + 1) mod SIZE_MOD)%Z))
    by (cbn [prelude.set_refs prelude._refs];
        rewrite ?lookup_insert_eq, ?counter_round_trip by assumption;
        first [reflexivity | lia]).
  cbn [prelude.set_refs prelude._refs prelude._head prelude._tail].
  rewrite counter_round_trip by assumption.
  rewrite insert_insert_eq. f_equal. apply insert_id.
  rewrite Ha. now destruct nd.
Qed.

Lemma list_copy_Some h a nd :
  h !! a = Some nd ->
  prelude.list_copy (prelude.mk_list (Some a)) h
  = prelude.Ok (prelude.mk_list (Some a))
      (<[a := prelude.set_refs nd ((prelude._refs nd + 1) mod SIZE_MOD)%Z]> h).
Proof.
  intros Ha. unfold prelude.list_copy. cbn [prelude._rep].
  now rewrite (bind_Ok _ _ h (Some a) _ (acquire_Some _ _ _ Ha)).
Qed.

Lemma list_destroy_null fuel h :
  prelude.list_destroy fuel (prelude.mk_list None) h = prelude.Ok tt h.
Proof.
  unfold prelude.list_destroy. cbn [prelude._rep].
  now rewrite (bind_Ok _ _ _ None h (release_null fuel h)).
Qed.

Lemma by_value_frame {T} fuel xs (body : prelude.list -> prelude.M A T) h (v : T) :
  prelude.counted h xs ->
  (forall h1, body xs h1 = prelude.Ok v h1) ->
  prelude.by_value fuel xs body h = prelude.Ok v h.
Proof.
  intros Hc Hbody. unfold prelude.by_value, prelude.counted in *.
  destruct xs as [[a|]]; cbn [prelude._rep] in *.
  - destruct Hc as (nd & Ha & Hr).
    rewrite (bind_Ok _ _ h _ _ (list_copy_Some _ _ _ Ha)).
    unfold prelude.finally. rewrite Hbody.
    unfold prelude.list_destroy. cbn [prelude._rep].
    rewrite (bind_Ok _ _ _ tt h); [reflexivity|].
    now rewrite (bind_Ok _ _ _ (Some a) h (acquire_then_release fuel _ _ _ Ha Hr)).
  - rewrite (bind_Ok _ _ h (prelude.mk_list None) h) by reflexivity.
    unfold prelude.finally. rewrite Hbody.
    now rewrite (bind_Ok _ _ _ tt h (list_destroy_null fuel h)).
Qed.

Lemma null_spec fuel xs h :
  prelude.counted h xs ->
  prelude.null fuel xs h = prelude.Ok (negb (prelude.operator_bool xs)) h.
Proof. intros Hc. unfold prelude.null. now apply by_value_frame. Qed.

Lemma walk_to_last_eq fuel a :
  prelude.walk_to_last (A := A) fuel a
  = prelude.bind (prelude.load a) (fun nd =>
      match prelude._tail nd with
      | None => prelude.ret a
      | Some next =>
          match fuel with
          | O => prelude.out_of_fuel
          | S fuel' => prelude.walk_to_last fuel' next
          end
      end).
Proof. now destruct fuel. Qed.

Lemma shl_loop_eq (show : A -> string) fuel os a :
  prelude.shl_loop show fuel os a
  = prelude.bind (prelude.load a) (fun nd =>
      match prelude._tail nd with
      | None => prelude.ret os
      | Some n' =>
          match fuel with
          | O => prelude.out_of_fuel
          | S fuel' =>
              prelude.bind (prelude.load n') (fun nd' =>
                prelude.shl_loop show fuel'
                  (os +:+ "," +:+ show (prelude._head nd')) n')
          end
      end).
Proof. now destruct fuel. Qed.

(** The walk of the splice stops at the last node of the chain. *)
Lemma walk_to_last_spec h ls vs a fuel :
  prelude.chain h (Some a) ls vs ->
  (Datatypes.length ls <= S fuel)%nat ->
  exists l nd,
    last ls = Some l /\ h !! l = Some nd /\ prelude._tail nd = None
    /\ prelude.walk_to_last fuel a h = prelude.Ok l h.
Proof.
  revert vs a fuel; induction ls as [|a0 ls IH]; intros vs a fuel Hc Hf;
    inversion Hc as [|a' nd ls' vs' Ha Hc' E1 E2]; subst.
  rewrite walk_to_last_eq, (bind_Ok _ _ h nd h (load_Some _ _ _ Ha)).
  destruct (prelude._tail nd) as [next|] eqn:Et.
  - destruct fuel as [|fuel].
    { inversion Hc'; subst; cbn in Hf; lia. }
    destruct (IH _ next fuel Hc') as (l & ndl & Hl & Hndl & Htl & Hw).
    { cbn in Hf |- *; lia. }
    exists l, ndl. repeat split; try assumption.
    inversion Hc'; subst. exact Hl.
  - inversion Hc'; subst. exists a0, nd. repeat split; assumption.
Qed.

(** Heaps that agree on the links along a chain agree on the chain. *)
Lemma chain_agree h h' p ls vs :
  prelude.chain h p ls vs ->
  (forall c, c ∈ ls -> prelude.links h' c = prelude.links h c) ->
  prelude.chain h' p ls vs.
Proof.
  induction 1 as [|a nd ls vs Ha Hc IH]; intros Hl; [constructor|].
  pose proof (Hl a ltac:(left)) as Hla. unfold prelude.links in Hla.
  rewrite Ha in Hla. destruct (h' !! a) as [nd'|] eqn:Ha'; [|discriminate].
  cbn in Hla. injection Hla as Hh Ht. rewrite <- Hh.
  econstructor; [exact Ha'|]. rewrite Ht. apply IH.
  intros c Hc'. apply Hl. now right.
Qed.

Lemma acquire_links h (n : option prelude.loc) :
  (forall b, n = Some b -> is_Some (h !! b)) ->
  exists h1, prelude.acquire n h = prelude.Ok n h1
             /\ forall c, prelude.links h1 c = prelude.links h c.
Proof.
  intros Hn. destruct n as [b|]; [|now exists h].
  destruct (Hn b eq_refl) as [nb Hb].
  eexists. split; [exact (acquire_Some _ _ _ Hb)|].
  intros c. unfold prelude.links. destruct (decide (c = b)) as [->|Hne].
  - rewrite lookup_insert_eq, Hb. reflexivity.
  - now rewrite lookup_insert_ne by congruence.
Qed.

Lemma chain_elems_heap h p ls vs fuel :
  prelude.chain h p ls vs -> (Datatypes.length ls <= fuel)%nat ->
  prelude.elems fuel h p = Some vs.
Proof.
  intros H. revert fuel. induction H as [|a nd ls vs Ha _ IH]; intros fuel Hf.
  - now destruct fuel.
  - destruct fuel as [|fuel]; cbn [Datatypes.length] in Hf; [lia|].
    cbn [prelude.elems]. rewrite Ha, IH by lia. reflexivity.
Qed.

Lemma prelude_shl_loop_spec (show : A -> string) h ls vs a nd fuel os :
  h !! a = Some nd ->
  prelude.chain h (prelude._tail nd) ls vs ->
  (Datatypes.length ls <= fuel)%nat ->
  prelude.shl_loop show fuel os a h
  = prelude.Ok
      (os +:+ match vs with
              | [] => ""
              | _ :: _ => "," +:+ comma_separated (show <$> vs)
              end) h.
Proof.
  revert vs a nd fuel os; induction ls as [|a0 ls IH]; intros vs a nd fuel os Ha Hc Hf;
    inversion Hc as [E1|a' nd' ls' vs' Ha' Hc' E1 E2]; subst;
    rewrite shl_loop_eq, (bind_Ok _ _ h nd h (load_Some _ _ _ Ha)), <- E1.
  - unfold prelude.ret. now rewrite string_app_empty_r.
  - destruct fuel as [|fuel]; [cbn in Hf; lia|].
    rewrite (bind_Ok _ _ h nd' h (load_Some _ _ _ Ha')).
    rewrite (IH _ a0 nd' fuel _ Ha' Hc') by (cbn in Hf; lia).
    f_equal. destruct vs' as [|v vs'].
    + cbn. now rewrite string_app_empty_r, ?string_app_assoc.
    + change (show <$> prelude._head nd' :: v :: vs')
        with (show (prelude._head nd') :: show v :: (show <$> vs')).
      rewrite comma_separated_cons. now rewrite !string_app_assoc.
Qed.

Lemma prelude_operator_shl_spec (show : A -> string) h xs ls vs fuel os :
  prelude.chain h (prelude._rep xs) ls vs ->
  (Datatypes.length ls <= S fuel)%nat ->
  prelude.operator_shl show fuel os xs h
  = prelude.Ok (os +:+ rendering_spec show vs) h.
Proof.
  intros Hc Hf. unfold prelude.operator_shl, rendering_spec.
  inversion Hc as [E1|a nd ls' vs' Ha Hc' E1 E2]; subst.
  - rewrite (bind_Ok _ _ h (os +:+ "[") h) by reflexivity.
    unfold prelude.ret. now rewrite string_app_assoc.
  - rewrite (bind_Ok _ _ h
               ((os +:+ "[" +:+ show (prelude._head nd))
                +:+ match vs' with
                    | [] => ""
                    | _ :: _ => "," +:+ comma_separated (show <$> vs')
                    end) h).
    + unfold prelude.ret. f_equal. destruct vs' as [|v vs'].
      * cbn. now rewrite string_app_empty_r, ?string_app_assoc.
      * change (show <$> prelude._head nd :: v :: vs')
          with (show (prelude._head nd) :: show v :: (show <$> vs')).
        rewrite comma_separated_cons. now rewrite !string_app_assoc.
    + rewrite (bind_Ok _ _ h nd h (load_Some _ _ _ Ha)).
      rewrite (prelude_shl_loop_spec show h ls' vs' a nd fuel _ Ha Hc')
        by (cbn in Hf; lia).
      now rewrite !string_app_assoc.
Qed.

Lemma chain_functional h p ls1 vs1 ls2 vs2 :
  prelude.chain h p ls1 vs1 -> prelude.chain h p ls2 vs2 -> ls1 = ls2 /\ vs1 = vs2.
Proof.
  intros H. revert ls2 vs2. induction H as [|a nd ls vs Ha _ IH]; intros ls2 vs2 H2;
    inversion H2 as [|a' nd' ls' vs' Ha' Hc']; subst; [done|].
  rewrite Ha in Ha'. injection Ha' as <-.
  destruct (IH _ _ Hc') as [-> ->]. done.
Qed.

Lemma chain_suffix h p ls vs c :
  prelude.chain h p ls vs -> c ∈ ls ->
  exists ls2 vs2, prelude.chain h (Some c) ls2 vs2
                  /\ (Datatypes.length ls2 <= Datatypes.length ls)%nat.
Proof.
  induction 1 as [|a nd ls vs Ha Hc IH]; intros Hin; [inversion Hin|].
  apply elem_of_cons in Hin as [->|Hin].
  - exists (a :: ls), (prelude._head nd :: vs). split; [econstructor; eauto | lia].
  - destruct (IH Hin) as (ls2 & vs2 & H2 & Hlen). exists ls2, vs2.
    split; [exact H2 | cbn; lia].
Qed.

(** A chain that ends visits no node twice. *)
Lemma chain_NoDup h p ls vs : prelude.chain h p ls vs -> NoDup ls.
Proof.
  induction 1 as [|a nd ls vs Ha Hc IH]; constructor; [|exact IH].
  intros Hin. destruct (chain_suffix _ _ _ _ _ Hc Hin) as (ls2 & vs2 & H2 & Hlen).
  assert (Hfull : prelude.chain h (Some a) (a :: ls) (prelude._head nd :: vs))
    by (econstructor; eauto).
  destruct (chain_functional _ _ _ _ _ _ H2 Hfull) as [-> _]. cbn in Hlen. lia.
Qed.

(** Relinking the last node of a chain to [q] puts the chain of [q] behind it. *)
Lemma chain_splice h h' p ls vs l ndl' q lsq vsq :
  prelude.chain h p ls vs ->
  last ls = Some l ->
  (forall c, c <> l -> prelude.links h' c = prelude.links h c) ->
  h' !! l = Some ndl' ->
  prelude._head <$> h !! l = Some (prelude._head ndl') ->
  prelude._tail ndl' = q ->
  prelude.chain h' q lsq vsq ->
  prelude.chain h' p (ls ++ lsq) (vs ++ vsq).
Proof.
  intros Hc. pose proof (chain_NoDup _ _ _ _ Hc) as Hnd.
  induction Hc as [|a nd ls vs Ha Hc IH]; intros Hlast Hlinks Hl' Hhead Htail Hq;
    [discriminate|].
  destruct ls as [|a2 ls].
  - injection Hlast as ->. inversion Hc; subst.
    rewrite Ha in Hhead. injection Hhead as ->.
    cbn [app]. econstructor; [exact Hl'|]. exact Hq.
  - assert (Hne : a <> l).
    { intros ->. apply NoDup_cons in Hnd as [Hnot _]. apply Hnot.
      change (last (l :: a2 :: ls)) with (last (a2 :: ls)) in Hlast.
      now apply last_Some_elem_of. }
    pose proof (Hlinks a Hne) as Hla. unfold prelude.links in Hla. rewrite Ha in Hla.
    destruct (h' !! a) as [nd'|] eqn:Ha'; [|discriminate].
    cbn in Hla. injection Hla as Hh Ht.
    cbn [app]. rewrite <- Hh. econstructor; [exact Ha'|]. rewrite Ht.
    apply IH; try assumption. now apply NoDup_cons in Hnd as [_ ?].
Qed.
Lemma by_value_Some {T} fuel a nd (body : prelude.list -> prelude.M A T) h (v : T) h2 nd2 :
  h !! a = Some nd ->
  body (prelude.mk_list (Some a))
    (<[a := prelude.set_refs nd ((prelude._refs nd + 1) mod SIZE_MOD)%Z]> h)
  = prelude.Ok v h2 ->
  h2 !! a = Some nd2 ->
  ((prelude._refs nd2 - 1) mod SIZE_MOD)%Z <> 0%Z ->
  prelude.by_value fuel (prelude.mk_list (Some a)) body h
  = prelude.Ok v (<[a := prelude.set_refs nd2 ((prelude._refs nd2 - 1) mod SIZE_MOD)%Z]> h2).
Proof.
  intros Ha Hbody Ha2 Hr. unfold prelude.by_value.
  rewrite (bind_Ok _ _ h _ _ (list_copy_Some _ _ _ Ha)).
  unfold prelude.finally. rewrite Hbody.
  unfold prelude.list_destroy. cbn [prelude._rep].
  rewrite (bind_Ok _ _ _ tt (<[a := prelude.set_refs nd2 ((prelude._refs nd2 - 1) mod SIZE_MOD)%Z]> h2)); [reflexivity|].
  now rewrite (bind_Ok _ _ _ (Some a) _ (release_keeps fuel _ _ _ Ha2 Hr)).
Qed.

(** The net effect of [tail( xs )] on a non-empty [xs] is one reference
    taken on the node after the first: the handle returned holds the very
    node that [xs]'s first node points to, and no node is made. *)
Lemma prelude_tail_shares fuel h a nd :
  h !! a = Some nd ->
  (0 < prelude._refs nd < SIZE_MOD - 1)%Z ->
  (forall b, prelude._tail nd = Some b -> b <> a /\ is_Some (h !! b)) ->
  exists h',
    prelude.acquire (prelude._tail nd) h = prelude.Ok (prelude._tail nd) h'
    /\ prelude.tail fuel (prelude.mk_list (Some a)) h
       = prelude.Ok (prelude.mk_list (prelude._tail nd)) h'.
Proof.
  intros Ha Hr Ht.
  set (r1 := ((prelude._refs nd + 1) mod SIZE_MOD)%Z).
  set (nd1 := prelude.set_refs nd r1).
  set (h1 := <[a := nd1]> h).
  assert (Hr1 : r1 = (prelude._refs nd + 1)%Z).
  { unfold r1. apply Z.mod_small. lia. }
  assert (H1a : h1 !! a = Some nd1) by apply lookup_insert_eq.
  assert (Hnull : prelude.null fuel (prelude.mk_list (Some a)) h1 = prelude.Ok false h1).
  { apply (null_spec fuel (prelude.mk_list (Some a)) h1).
    exists nd1. split; [exact H1a|]. cbn [nd1 prelude.set_refs prelude._refs]. lia. }
  assert (Hback : <[a := prelude.set_refs nd1 ((prelude._refs nd1 - 1) mod SIZE_MOD)%Z]> h1 = h).
  { unfold h1, nd1. cbn [prelude.set_refs prelude._refs prelude._head prelude._tail].
    rewrite insert_insert_eq. apply insert_id. rewrite Ha. f_equal.
    rewrite Hr1. replace (prelude._refs nd + 1 - 1)%Z with (prelude._refs nd) by lia.
    rewrite Z.mod_small by lia. now destruct nd. }
  assert (Hkeep : ((prelude._refs nd1 - 1) mod SIZE_MOD)%Z <> 0%Z).
  { cbn [nd1 prelude.set_refs prelude._refs]. rewrite Hr1.
    replace (prelude._refs nd + 1 - 1)%Z with (prelude._refs nd) by lia.
    rewrite Z.mod_small; lia. }
  unfold prelude.tail.
  destruct (prelude._tail nd) as [b|] eqn:Etl.
  - destruct (Ht b eq_refl) as [Hne [nb Hb]].
    set (nb' := prelude.set_refs nb ((prelude._refs nb + 1) mod SIZE_MOD)%Z).
    exists (<[b := nb']> h). split; [exact (acquire_Some _ _ _ Hb)|].
    rewrite (by_value_Some fuel a nd _ h (prelude.mk_list (Some b)) (<[b := nb']> h1) nd1 Ha).
    + f_equal. rewrite insert_insert_ne by congruence. now rewrite Hback.
    + fold r1 nd1 h1. rewrite (bind_Ok _ _ h1 false h1 Hnull). cbn [prelude._rep].
      rewrite (bind_Ok _ _ h1 nd1 h1 (load_Some _ _ _ H1a)).
      unfold prelude.list_of_node. cbn [nd1 prelude.set_refs prelude._tail]. rewrite Etl.
      assert (Hb1 : h1 !! b = Some nb) by (unfold h1; now rewrite lookup_insert_ne).
      now rewrite (bind_Ok _ _ h1 (Some b) _ (acquire_Some _ _ _ Hb1)).
    + now rewrite lookup_insert_ne by congruence.
    + exact Hkeep.
  - exists h. split; [reflexivity|].
    rewrite (by_value_Some fuel a nd _ h (prelude.mk_list None) h1 nd1 Ha).
    + now rewrite Hback.
    + fold r1 nd1 h1. rewrite (bind_Ok _ _ h1 false h1 Hnull). cbn [prelude._rep].
      rewrite (bind_Ok _ _ h1 nd1 h1 (load_Some _ _ _ H1a)).
      unfold prelude.list_of_node. cbn [nd1 prelude.set_refs prelude._tail]. rewrite Etl.
      reflexivity.
    + exact H1a.
    + exact Hkeep.
Qed.

(** What a run of the rvalue [operator+] on a non-empty [xs] does to the
    heap, step by step: the walk ends at the last node [l]; the acquire of
    [ys] gives [h1]; the node at [l] gets its [_tail] set. *)
Lemma operator_plus_move_run h xs ys a (ls : list prelude.loc) (vs : list A) fuel :
  prelude._rep xs = Some a ->
  prelude.chain h (Some a) ls vs ->
  prelude.counted h xs ->
  (forall b, prelude._rep ys = Some b -> is_Some (h !! b)) ->
  (Datatypes.length ls <= S fuel)%nat ->
  exists l ndl h1 nd1,
    last ls = Some l /\ h !! l = Some ndl /\ prelude._tail ndl = None
    /\ prelude.acquire (prelude._rep ys) h = prelude.Ok (prelude._rep ys) h1
    /\ (forall c, prelude.links h1 c = prelude.links h c)
    /\ h1 !! l = Some nd1
    /\ prelude.operator_plus_move fuel xs ys h
       = prelude.Ok (prelude.mk_list (Some a), prelude.mk_list None)
           (<[l := prelude.set_tail nd1 (prelude._rep ys)]> h1).
Proof.
  intros Hrep Hc Hcnt Hys Hf.
  destruct (walk_to_last_spec h ls vs a fuel Hc Hf) as (l & ndl & Hl & Hndl & Htl & Hw).
  destruct (acquire_links h (prelude._rep ys) Hys) as (h1 & Hacq & Hlinks).
  pose proof (Hlinks l) as Hll. unfold prelude.links in Hll. rewrite Hndl in Hll.
  destruct (h1 !! l) as [nd1|] eqn:Hl1; [|discriminate].
  exists l, ndl, h1, nd1. repeat split; try assumption.
  unfold prelude.operator_plus_move.
  rewrite (bind_Ok _ _ h false h).
  2:{ rewrite null_spec by assumption. unfold prelude.operator_bool.
      now rewrite Hrep. }
  cbn [prelude._rep]. rewrite Hrep.
  rewrite (bind_Ok _ _ h l h Hw).
  rewrite (bind_Ok _ _ h _ h1 Hacq).
  rewrite (bind_Ok _ _ h1 nd1 h1 (load_Some _ _ _ Hl1)).
  now rewrite (bind_Ok _ _ h1 tt _ (store_Some _ _ _ _ Hl1)).
Qed.

End PreludeFacts.

(** C3 (as amended).  On the empty list each of [head], [tail], [last] and
    [init] fails.  In [prelude::list] each throws [std::domain_error] with the
    text [prelude::<operation>: empty list], which names the operation and
    says that the list was empty, and leaves the heap as it was; in
    ImmutableList.hpp each throws the empty list itself. *)
Theorem empty_list_violations (A : Type) (fuel : nat)
    (h : gmap prelude.loc (prelude.node A)) :
  (prelude.head fuel prelude.EMPTY h
   = prelude.Raise (prelude.domain_error "prelude::head: empty list") h
   /\ prelude.tail fuel prelude.EMPTY h
      = prelude.Raise (prelude.domain_error "prelude::tail: empty list") h
   /\ prelude.last fuel prelude.EMPTY h
      = prelude.Raise (prelude.domain_error "prelude::last: empty list") h
   /\ prelude.init fuel prelude.EMPTY h
      = prelude.Raise (prelude.domain_error "prelude::init: empty list") h)
  /\ (ImmutableList.head (@ImmutableList.EMPTY A) = ImmutableList.Throw ImmutableList.EMPTY
      /\ ImmutableList.tail (@ImmutableList.EMPTY A) = ImmutableList.Throw ImmutableList.EMPTY
      /\ ImmutableList.last (@ImmutableList.EMPTY A) = ImmutableList.Throw ImmutableList.EMPTY
      /\ ImmutableList.init (@ImmutableList.EMPTY A) = ImmutableList.Throw ImmutableList.EMPTY).
Proof.
  split; [|repeat split].
  repeat split; destruct fuel; reflexivity.
Qed.

(** C3 (the claim as written fails).  In ImmutableList.hpp [head] and [tail]
    throw the same object on the empty list, so nothing computed from the
    propagated error can tell which operation was invoked. *)
Lemma thrown_list_does_not_name_operation :
  ~ exists operation_of : ImmutableList.List N -> string,
      (forall e, ImmutableList.head (@ImmutableList.EMPTY N) = ImmutableList.Throw e ->
                 operation_of e = "head")
      /\ (forall e, ImmutableList.tail (@ImmutableList.EMPTY N) = ImmutableList.Throw e ->
                    operation_of e = "tail").
Proof.
  intros (f & Hhead & Htail).
  specialize (Hhead ImmutableList.EMPTY eq_refl).
  specialize (Htail ImmutableList.EMPTY eq_refl).
  rewrite Hhead in Htail. discriminate.
Qed.

(** Rendering in the two headers.  A non-empty list renders as an opening
    bracket, its values in list order separated by commas, and a closing
    bracket, in both.  The empty list renders as the two characters [[]] in
    [prelude::list]; in ImmutableList.hpp nothing is written for it. *)
Theorem rendering_of_lists (A : Type) (show : A -> string) :
  (forall os x t,
      ImmutableList.operator_shl show os (ImmutableList.Node x t)
      = os +:+ rendering_spec show (ImmutableList.elems (ImmutableList.Node x t)))
  /\ (forall os, ImmutableList.operator_shl show os ImmutableList.EMPTY = os)
  /\ (forall (h : gmap prelude.loc (prelude.node A)) xs ls vs (fuel : nat) os,
         prelude.chain h (prelude._rep xs) ls vs ->
         (Datatypes.length ls <= S fuel)%nat ->
         prelude.operator_shl show fuel os xs h
         = prelude.Ok (os +:+ rendering_spec show vs) h)
  /\ (forall (h : gmap prelude.loc (prelude.node A)) (fuel : nat) os,
         prelude.operator_shl show fuel os prelude.EMPTY h = prelude.Ok (os +:+ "[]") h).
Proof.
  split; [apply operator_shl_nonempty|]. split; [reflexivity|].
  split; [apply prelude_operator_shl_spec|].
  intros h fuel os.
  apply (prelude_operator_shl_spec show h prelude.EMPTY [] [] fuel os); [constructor|].
  cbn. lia.
Qed.

Lemma rendering_of_lists_witness :
  prelude.operator_shl pretty 1 ""
    (prelude.mk_list (Some 2%positive))
    (<[2%positive := prelude.mk_node 1%Z 2 (Some 1%positive)]>
       {[1%positive := prelude.mk_node 1%Z 3 None]})
  = prelude.Ok ("" +:+ rendering_spec pretty [2; 3])
      (<[2%positive := prelude.mk_node 1%Z 2 (Some 1%positive)]>
         {[1%positive := prelude.mk_node 1%Z 3 None]}).
Proof.
  apply (proj1 (proj2 (proj2 (rendering_of_lists N pretty)))
           _ _ [2%positive; 1%positive]).
  - apply (prelude.chain_node _ 2%positive (prelude.mk_node 1%Z 2 (Some 1%positive)));
      [reflexivity|].
    apply (prelude.chain_node _ 1%positive (prelude.mk_node 1%Z 3 None));
      [reflexivity | constructor].
  - cbn. lia.
Defined.

(** C5 (evaluation at the failing input).  [operator<<] of ImmutableList.hpp
    on the empty list writes no character: the stream holds the empty text, not
    the two characters [[]] that the rendering tests of part_006 expect and
    that [prelude::list] writes. *)
Theorem ImmutableList_renders_empty_as_nothing :
  ImmutableList.operator_shl (pretty : N -> string) "" ImmutableList.EMPTY = ""
  /\ ImmutableList.operator_shl (pretty : N -> string) "" ImmutableList.EMPTY <> "[]".
Proof. split; [reflexivity | discriminate]. Qed.

(** The rendering tests of src/unnamed/part_006 on [prelude::list]. *)
Lemma prelude_rendering_tests :
  exists h1 h2,
    (do xs <- prelude.list_of_initializer ([] : list N);
     prelude.operator_shl (pretty : N -> string) 9 "" xs)%heap ∅ = prelude.Ok "[]" h1
    /\ (do xs <- prelude.list_of_initializer [2; 3; 4; 5; 6; 7; 8; 9; 10];
        prelude.operator_shl (pretty : N -> string) 9 "" xs)%heap ∅
       = prelude.Ok "[2,3,4,5,6,7,8,9,10]" h2.
Proof. do 2 eexists. split; vm_compute; reflexivity. Qed.

(** C10.  Copy-assigning a handle from a source that holds the same node
    pointer, self-assignment included, is a no-op: the guard skips both the
    release and the acquire, the handle keeps its pointer, and the heap, hence
    every reference count on it, is left as it was; nothing is released.
    ([list::operator= ( list const& )].) *)
Theorem copy_assign_same_chain (A : Type) (fuel : nat) (this xs : prelude.list)
    (h : gmap prelude.loc (prelude.node A)) :
  prelude._rep this = prelude._rep xs ->
  prelude.operator_assign fuel this xs h = prelude.Ok this h.
Proof.
  intros E. unfold prelude.operator_assign.
  destruct (decide (prelude._rep this <> prelude._rep xs)) as [Hne|_];
    [contradiction | reflexivity].
Qed.

Lemma copy_assign_same_chain_witness :
  prelude._rep (prelude.mk_list (Some 1%positive)) = prelude._rep (prelude.mk_list (Some 1%positive))
  /\ prelude.operator_assign 1 (prelude.mk_list (Some 1%positive))
       (prelude.mk_list (Some 1%positive)) {[1%positive := prelude.mk_node 1%Z 7 None]}
     = prelude.Ok (prelude.mk_list (Some 1%positive))
         {[1%positive := prelude.mk_node 1%Z 7 None]}.
Proof.
  split; [reflexivity|].
  apply (copy_assign_same_chain N 1 (prelude.mk_list (Some 1%positive))
           (prelude.mk_list (Some 1%positive))).
  reflexivity.
Defined.

(** What the guard is for: without it, assigning a list to itself when its
    handle is the only reference deletes the node and then counts on it. *)
Lemma unguarded_self_assign_faults (A : Type) (fuel : nat)
    (h : gmap prelude.loc (prelude.node A)) (a : prelude.loc) (x : A) :
  h !! a = Some (prelude.mk_node 1%Z x None) ->
  prelude.unguarded_assign (S fuel) (prelude.mk_list (Some a)) (prelude.mk_list (Some a)) h
  = prelude.Fault.
Proof.
  intros Ha. unfold prelude.unguarded_assign. cbn [prelude._rep prelude.release].
  unfold prelude.bind at 1 2. rewrite (load_Some _ _ _ Ha).
  unfold prelude.bind at 1. rewrite (store_Some _ _ _ _ Ha).
  cbn [prelude.set_refs prelude._refs prelude._head prelude._tail Z.eqb].
  change ((1 - 1) mod SIZE_MOD =? 0)%Z with true. cbv iota.
  unfold prelude.bind at 1 2. rewrite release_null.
  unfold prelude.bind, prelude.free, prelude.ret, prelude.acquire, prelude.load.
  unfold prelude.bind. now rewrite lookup_delete_eq.
Qed.

(** C1 (evaluation at the failing input).  [a] is a one-element list and [b]
    a copy of its handle, so the node both hold has count 2 when
    [std::move(b) + ys] is evaluated: it is not uniquely owned.
    [operator+ ( list<A> &&, list<A> const& )] splices all the same, and the
    list reached through the live handle [a] changes from [[10]] to
    [[10,20]]. *)
Theorem append_splice_changes_shared_list :
  exists h',
    (do a <- prelude.list_singleton 10;
     do b <- prelude.list_copy a;
     do ys <- prelude.list_singleton 20;
     do count <- prelude.refs_of b;
     do before <- prelude.value_of 5 a;
     do zs <- prelude.operator_plus_move 5 b ys;
     do after <- prelude.value_of 5 a;
     prelude.ret (count, before, after))%heap ∅
    = prelude.Ok (Some 2%Z, Some [10], Some [10; 20]) h'.
Proof. eexists. vm_compute. reflexivity. Qed.

(** What the rvalue [operator+] does on every non-empty [xs], whatever the
    counts of its nodes: it takes over the handle of [xs], and the last node
    [l] of the chain of [xs] gets the node of [ys] as its [_tail] and keeps
    its [_head]; the node of [ys] gains one reference, and no other count
    changes; at every address but [l] the fields [_head] and [_tail] are as
    before.  So a list reached through any handle whose chain does not pass
    through [l] has the nodes and the value it had, and one whose chain does,
    as in the evaluation above, has not. *)
Lemma append_splice_relinks_last_node (A : Type)
    (h : gmap prelude.loc (prelude.node A)) (xs ys : prelude.list)
    (a : prelude.loc) (ls : list prelude.loc) (vs : list A) (fuel : nat) :
  prelude._rep xs = Some a ->
  prelude.chain h (Some a) ls vs ->
  prelude.counted h xs ->
  (forall b, prelude._rep ys = Some b -> is_Some (h !! b)) ->
  (Datatypes.length ls <= S fuel)%nat ->
  exists h' l nd,
    last ls = Some l
    /\ prelude.operator_plus_move fuel xs ys h
       = prelude.Ok (prelude.mk_list (Some a), prelude.mk_list None) h'
    /\ h' !! l = Some nd
    /\ prelude._tail nd = prelude._rep ys
    /\ prelude._head <$> h !! l = Some (prelude._head nd)
    /\ (forall c nc, h !! c = Some nc ->
          prelude._refs <$> h' !! c
          = Some (if decide (prelude._rep ys = Some c)
                  then ((prelude._refs nc + 1) mod SIZE_MOD)%Z
                  else prelude._refs nc))
    /\ (forall c, h !! c = None -> h' !! c = None)
    /\ (forall c, c <> l -> prelude.links h' c = prelude.links h c)
    /\ (forall p ls' vs',
           prelude.chain h p ls' vs' -> l ∉ ls' -> prelude.chain h' p ls' vs').
Proof.
  intros Hrep Hc Hcnt Hys Hf.
  destruct (operator_plus_move_run h xs ys a ls vs fuel Hrep Hc Hcnt Hys Hf)
    as (l & ndl & h1 & nd1 & Hl & Hndl & Htl & Hacq & Hlinks & Hl1 & Hrun).
  assert (Hcount1 : forall c nc, h !! c = Some nc ->
            prelude._refs <$> h1 !! c
            = Some (if decide (prelude._rep ys = Some c)
                    then ((prelude._refs nc + 1) mod SIZE_MOD)%Z
                    else prelude._refs nc)).
  { intros c nc Hcn. destruct (prelude._rep ys) as [b|] eqn:Eys.
    - destruct (Hys b eq_refl) as [nb Hb].
      rewrite (acquire_Some _ _ _ Hb) in Hacq. injection Hacq as <-.
      destruct (decide (Some b = Some c)) as [[= ->]|Hne].
      + rewrite lookup_insert_eq. rewrite Hb in Hcn. now injection Hcn as <-.
      + rewrite lookup_insert_ne by congruence. now rewrite Hcn.
    - injection Hacq as <-. rewrite Hcn.
      now destruct (decide (None = Some c)). }
  exists (<[l := prelude.set_tail nd1 (prelude._rep ys)]> h1), l,
    (prelude.set_tail nd1 (prelude._rep ys)).
  split; [exact Hl|]. split; [exact Hrun|].
  split; [apply lookup_insert_eq|]. split; [reflexivity|].
  split; [|split; [|split; [|split]]].
  - pose proof (Hlinks l) as Hll. unfold prelude.links in Hll.
    rewrite Hl1, Hndl in Hll. cbn in Hll. injection Hll as Hh _.
    rewrite Hndl. cbn. now rewrite Hh.
  - intros c nc Hcn. destruct (decide (c = l)) as [->|Hne].
    + rewrite lookup_insert_eq. cbn [fmap option_fmap option_map].
      rewrite <- (Hcount1 l nc Hcn), Hl1. reflexivity.
    + rewrite lookup_insert_ne by congruence. now apply Hcount1.
  - intros c Hcn. destruct (decide (c = l)) as [->|Hne]; [congruence|].
    rewrite lookup_insert_ne by congruence.
    pose proof (Hlinks c) as Hlc. unfold prelude.links in Hlc. rewrite Hcn in Hlc.
    destruct (h1 !! c); [discriminate | reflexivity].
  - intros c Hne. unfold prelude.links.
    rewrite lookup_insert_ne by congruence. apply Hlinks.
  - intros p ls' vs' Hp Hnot. apply (chain_agree h); [exact Hp|].
    intros c Hin. unfold prelude.links. rewrite lookup_insert_ne.
    + apply Hlinks.
    + intros ->. contradiction.
Qed.

Lemma append_splice_relinks_last_node_witness :
  exists h' l nd,
    last [1%positive] = Some l
    /\ prelude.operator_plus_move 0 (prelude.mk_list (Some 1%positive))
         (prelude.mk_list (Some 2%positive))
         (<[2%positive := prelude.mk_node 1%Z 20 None]>
            {[1%positive := prelude.mk_node 1%Z 10 None]})
       = prelude.Ok (prelude.mk_list (Some 1%positive), prelude.mk_list None) h'
    /\ h' !! l = Some nd
    /\ prelude._tail nd = Some 2%positive
    /\ prelude._refs <$> h' !! 2%positive = Some 2%Z.
Proof.
  destruct (append_splice_relinks_last_node N
              (<[2%positive := prelude.mk_node 1%Z 20 None]>
                 {[1%positive := prelude.mk_node 1%Z 10 None]})
              (prelude.mk_list (Some 1%positive)) (prelude.mk_list (Some 2%positive))
              1%positive [1%positive] [10] 0)
    as (h' & l & nd & Hl & Hrun & Hnd & Htl & _ & Hcount & _).
  - reflexivity.
  - apply (prelude.chain_node _ 1%positive (prelude.mk_node 1%Z 10 None));
      [reflexivity | constructor].
  - exists (prelude.mk_node 1%Z 10 None). split; [reflexivity|].
    split; [reflexivity|]. vm_compute. reflexivity.
  - intros b [= <-]. eexists. reflexivity.
  - cbn. lia.
  - exists h', l, nd. split; [exact Hl|]. split; [exact Hrun|].
    split; [exact Hnd|]. split; [exact Htl|].
    exact (Hcount 2%positive (prelude.mk_node 1%Z 20 None) eq_refl).
Defined.

(** A live list changes also through the library's own operations alone:
    [tail( xs )] is an rvalue that shares the remainder of [xs], so
    [tail( xs ) + ys] appends [ys] to [xs] itself. *)
Lemma append_to_tail_changes_list :
  exists h',
    (do xs <- prelude.list_of_initializer [1; 2];
     do ys <- prelude.list_singleton 20;
     do before <- prelude.value_of 5 xs;
     do t <- prelude.tail 5 xs;
     do zs <- prelude.operator_plus_move 5 t ys;
     do after <- prelude.value_of 5 xs;
     prelude.ret (before, after))%heap ∅
    = prelude.Ok (Some [1; 2], Some [1; 2; 20]) h'.
Proof. eexists. vm_compute. reflexivity. Qed.

(** When the chain of [ys] does not pass through the last node of [xs], the
    list that the rvalue [operator+] returns is [xs] followed by [ys]. *)
Lemma append_splice_result (A : Type) (h : gmap prelude.loc (prelude.node A))
    (xs ys : prelude.list) (a : prelude.loc) (ls lsy : list prelude.loc)
    (vs vsy : list A) (fuel : nat) :
  prelude._rep xs = Some a ->
  prelude.chain h (Some a) ls vs ->
  prelude.counted h xs ->
  prelude.chain h (prelude._rep ys) lsy vsy ->
  (forall l, last ls = Some l -> l ∉ lsy) ->
  (Datatypes.length ls <= S fuel)%nat ->
  exists h',
    prelude.operator_plus_move fuel xs ys h
    = prelude.Ok (prelude.mk_list (Some a), prelude.mk_list None) h'
    /\ prelude.chain h' (Some a) (ls ++ lsy) (vs ++ vsy).
Proof.
  intros Hrep Hc Hcnt Hcy Hfree Hf.
  assert (Hys : forall b, prelude._rep ys = Some b -> is_Some (h !! b)).
  { intros b Hb. rewrite Hb in Hcy. inversion Hcy; subst. eauto. }
  destruct (operator_plus_move_run h xs ys a ls vs fuel Hrep Hc Hcnt Hys Hf)
    as (l & ndl & h1 & nd1 & Hl & Hndl & Htl & Hacq & Hlinks & Hl1 & Hrun).
  eexists. split; [exact Hrun|].
  assert (Hother : forall c, c <> l ->
            prelude.links (<[l := prelude.set_tail nd1 (prelude._rep ys)]> h1) c
            = prelude.links h c).
  { intros c Hne. unfold prelude.links.
    rewrite lookup_insert_ne by congruence. apply Hlinks. }
  apply (chain_splice h _ (Some a) ls vs l
           (prelude.set_tail nd1 (prelude._rep ys)) (prelude._rep ys));
    try assumption.
  - apply lookup_insert_eq.
  - pose proof (Hlinks l) as Hll. unfold prelude.links in Hll.
    rewrite Hl1, Hndl in Hll. cbn in Hll. injection Hll as Hh _.
    rewrite Hndl. cbn. now rewrite Hh.
  - reflexivity.
  - apply (chain_agree h); [exact Hcy|].
    intros c Hin. apply Hother. intros ->. now apply (Hfree l Hl).
Qed.

(** The tests of src/unnamed/part_006 that concern the operations embedded
    here, run on [prelude::list] from the empty heap (with integers for the
    doubles of the test file): [null], [length], [head], [last], [tail],
    [init], [cons] and [append], and the argument [xs] is as it was. *)
Lemma prelude_tests_of_part_006 :
  exists h',
    (do xs1 <- prelude.list_of_initializer [1];
     do xs <- prelude.list_of_initializer [2; 3; 4; 5; 6; 7; 8; 9; 10];
     do n0 <- prelude.null 20 prelude.EMPTY;
     do n1 <- prelude.null 20 xs1;
     do len <- prelude.length 20 xs;
     do hd <- prelude.head 20 xs;
     do la <- prelude.last 20 xs;
     do tl <- prelude.tail 20 xs;
     do tlv <- prelude.value_of 20 tl;
     do in1 <- prelude.init 20 xs1;
     do in1v <- prelude.value_of 20 in1;
     do ini <- prelude.init 20 xs;
     do iniv <- prelude.value_of 20 ini;
     do c <- prelude.cons 20 1 xs;
     do cv <- prelude.value_of 20 c;
     do ap <- prelude.append 20 xs xs1;
     do apv <- prelude.value_of 20 ap;
     do xsv <- prelude.value_of 20 xs;
     prelude.ret (n0, n1, len, hd, la, tlv, in1v, iniv, cv, apv, xsv))%heap ∅
    = prelude.Ok
        (true, false, 9%Z, 2, 10, Some [3; 4; 5; 6; 7; 8; 9; 10], Some [],
         Some [2; 3; 4; 5; 6; 7; 8; 9], Some [1; 2; 3; 4; 5; 6; 7; 8; 9; 10],
         Some [2; 3; 4; 5; 6; 7; 8; 9; 10; 1], Some [2; 3; 4; 5; 6; 7; 8; 9; 10]) h'.
Proof. eexists. vm_compute. reflexivity. Qed.

(* ===================================================================== *)
(** * Part III -- further properties of the operations                     *)
(* ===================================================================== *)

(* --------------------------------------------------------------------- *)
(** ** ImmutableList.hpp: [map], [filter], [sum], [last], [init], [drop]    *)
(* --------------------------------------------------------------------- *)

Section ImmutableListMore.
Context {A : Type}.
Implicit Types (xs ys : ImmutableList.List A).

Lemma ImmutableList_elems_filter (pred : A -> bool) xs :
  ImmutableList.elems (ImmutableList.filter pred xs)
  = List.filter pred (ImmutableList.elems xs).
Proof.
  induction xs as [|x t IH]; [reflexivity|].
  cbn [ImmutableList.filter ImmutableList.elems List.filter].
  destruct (pred x); cbn [ImmutableList.operator_bar ImmutableList.elems]; congruence.
Qed.

Lemma ImmutableList_elems_map {B : Type} (f : A -> B) xs :
  ImmutableList.elems (ImmutableList.map f xs) = f <$> ImmutableList.elems xs.
Proof.
  induction xs as [|x t IH]; [reflexivity|].
  cbn [ImmutableList.map ImmutableList.operator_bar ImmutableList.elems]. now rewrite IH.
Qed.

Lemma last_nonempty_default (a : A) (l : list A) (d d' : A) :
  List.last (a :: l) d = List.last (a :: l) d'.
Proof.
  revert a; induction l as [|b l IH]; intros a; [reflexivity|].
  change (List.last (a :: b :: l) d) with (List.last (b :: l) d).
  change (List.last (a :: b :: l) d') with (List.last (b :: l) d').
  apply IH.
Qed.

Lemma last_cons_default (x : A) (l : list A) :
  last (x :: l) = Some (List.last l x).
Proof.
  revert x; induction l as [|a l IH]; intros x; [reflexivity|].
  change (last (x :: a :: l)) with (last (a :: l)). rewrite IH. f_equal.
  destruct l as [|b l]; [reflexivity|].
  change (List.last (a :: b :: l) x) with (List.last (b :: l) x).
  apply last_nonempty_default.
Qed.

Lemma ImmutableList_last_elems x (t : ImmutableList.List A) :
  ImmutableList.last (ImmutableList.Node x t)
  = ImmutableList.Return (List.last (ImmutableList.elems t) x).
Proof.
  revert x; induction t as [|y u IH]; intros x; [reflexivity|].
  change (ImmutableList.last (ImmutableList.Node x (ImmutableList.Node y u)))
    with (ImmutableList.last (ImmutableList.Node y u)).
  rewrite IH. cbn [ImmutableList.elems]. f_equal.
  destruct (ImmutableList.elems u) as [|a l]; [reflexivity|].
  change (List.last (y :: a :: l) x) with (List.last (a :: l) x).
  apply last_nonempty_default.
Qed.

End ImmutableListMore.

(** X1.  [map] keeps the number of elements and their order: the result holds
    [f] of each element of [xs], in the order of [xs], and [length] reports the
    same for both; mapping the identity gives [xs] back. *)
Theorem ImmutableList_map_preserves_shape (A B : Type) (f : A -> B)
    (xs : ImmutableList.List A) :
  ImmutableList.elems (ImmutableList.map f xs) = List.map f (ImmutableList.elems xs)
  /\ ImmutableList.length (ImmutableList.map f xs) = ImmutableList.length xs
  /\ ImmutableList.map (fun x => x) xs = xs.
Proof.
  split; [apply ImmutableList_elems_map|]. split.
  - rewrite !length_count, ImmutableList_elems_map, length_fmap. reflexivity.
  - apply elems_inj. rewrite ImmutableList_elems_map. apply list_fmap_id.
Qed.

(** X2.  [filter] keeps exactly the elements that satisfy the predicate, in
    their original order; a predicate that always holds gives [xs] back and one
    that never holds gives the empty list. *)
Theorem ImmutableList_filter_keeps_satisfying (A : Type) (pred : A -> bool)
    (xs : ImmutableList.List A) :
  ImmutableList.elems (ImmutableList.filter pred xs)
  = List.filter pred (ImmutableList.elems xs)
  /\ ImmutableList.filter (fun _ => true) xs = xs
  /\ ImmutableList.filter (fun _ => false) xs = ImmutableList.EMPTY.
Proof.
  split; [apply ImmutableList_elems_filter|]. split.
  - induction xs as [|x t IH]; [reflexivity|].
    cbn [ImmutableList.filter ImmutableList.operator_bar]. now rewrite IH.
  - induction xs as [|x t IH]; [reflexivity|]. exact IH.
Qed.

(** X3.  On a non-empty list [init] and [last] both return, and putting the
    last element behind [init(xs)] gives [xs] back. *)
Theorem ImmutableList_init_last_round_trip (A : Type) (xs : ImmutableList.List A) :
  xs <> ImmutableList.EMPTY ->
  exists ys z,
    ImmutableList.init xs = ImmutableList.Return ys
    /\ ImmutableList.last xs = ImmutableList.Return z
    /\ ImmutableList.operator_plus ys (ImmutableList.operator_bar z ImmutableList.EMPTY) = xs.
Proof.
  destruct xs as [|x t]; [congruence|]. intros _.
  destruct (init_removelast x t) as (ys & Hys & Hel).
  exists ys, (List.last (ImmutableList.elems t) x).
  split; [exact Hys|]. split; [apply ImmutableList_last_elems|].
  apply elems_inj. rewrite elems_operator_plus, Hel.
  cbn [ImmutableList.elems ImmutableList.operator_bar].
  change (x :: ImmutableList.elems t) with (ImmutableList.elems (ImmutableList.Node x t)).
  cbn [ImmutableList.elems]. generalize (ImmutableList.elems t) as l. intros l.
  transitivity (removelast (x :: l) ++ [List.last (x :: l) x]).
  - f_equal. f_equal. destruct l; reflexivity.
  - symmetry. apply app_removelast_last. discriminate.
Qed.

Lemma ImmutableList_init_last_round_trip_witness :
  exists ys z,
    ImmutableList.init (ImmutableList.Node 1 (ImmutableList.Node 2 ImmutableList.EMPTY))
    = ImmutableList.Return ys
    /\ ImmutableList.last (ImmutableList.Node 1 (ImmutableList.Node 2 ImmutableList.EMPTY))
       = ImmutableList.Return z
    /\ ImmutableList.operator_plus ys (ImmutableList.operator_bar z ImmutableList.EMPTY)
       = ImmutableList.Node 1 (ImmutableList.Node 2 ImmutableList.EMPTY).
Proof.
  apply (ImmutableList_init_last_round_trip N
           (ImmutableList.Node 1 (ImmutableList.Node 2 ImmutableList.EMPTY))).
  discriminate.
Defined.

(** X4.  The [length] of an appended list is the sum of the two lengths, in
    the arithmetic of [unsigned]; and appending the empty list on either side
    gives the other operand. *)
Theorem ImmutableList_length_of_append (A : Type) (xs ys : ImmutableList.List A) :
  ImmutableList.length (ImmutableList.operator_plus xs ys)
  = (ImmutableList.length xs + ImmutableList.length ys) mod UINT_MOD
  /\ ImmutableList.operator_plus ImmutableList.EMPTY ys = ys
  /\ ImmutableList.operator_plus xs ImmutableList.EMPTY = xs.
Proof.
  split; [|split; [reflexivity | apply operator_plus_EMPTY_r]].
  rewrite !length_count, elems_operator_plus, length_app, Nat2N.inj_add.
  now rewrite <- N.Div0.add_mod.
Qed.

(** X5.  Reversing an appended list is appending the reversed operands the
    other way round, and the result of [reverse] holds the elements of [xs]
    last to first. *)
Theorem ImmutableList_reverse_of_append (A : Type) (xs ys : ImmutableList.List A) :
  ImmutableList.reverse (ImmutableList.operator_plus xs ys)
  = ImmutableList.operator_plus (ImmutableList.reverse ys) (ImmutableList.reverse xs)
  /\ ImmutableList.elems (ImmutableList.reverse xs) = List.rev (ImmutableList.elems xs).
Proof.
  split; [|apply elems_reverse].
  apply elems_inj.
  rewrite elems_operator_plus, !elems_reverse, elems_operator_plus.
  apply rev_app_distr.
Qed.

(** X6.  [drop(k, xs)] is [xs] without its first [k] elements: [xs] itself
    for [k == 0], the empty list once [k] reaches the number of elements; and
    the sizes of [take(k, xs)] and [drop(k, xs)] add up to the size of [xs]. *)
Theorem ImmutableList_drop_skips (A : Type) (k : N) (xs : ImmutableList.List A) :
  ImmutableList.elems (ImmutableList.drop k xs)
  = skipn (N.to_nat k) (ImmutableList.elems xs)
  /\ ImmutableList.drop 0 xs = xs
  /\ (N.of_nat (Datatypes.length (ImmutableList.elems xs)) <= k ->
      ImmutableList.drop k xs = ImmutableList.EMPTY)
  /\ (Datatypes.length (ImmutableList.elems (ImmutableList.take k xs))
      + Datatypes.length (ImmutableList.elems (ImmutableList.drop k xs))
      = Datatypes.length (ImmutableList.elems xs))%nat.
Proof.
  split; [apply elems_drop|]. split; [now destruct xs|]. split.
  - intros Hk. apply elems_inj. rewrite elems_drop. apply skipn_all2. lia.
  - rewrite <- length_app, <- elems_operator_plus, take_drop_any. reflexivity.
Qed.

Lemma ImmutableList_drop_skips_witness :
  ImmutableList.drop 5 (ImmutableList.Node 1 (ImmutableList.Node 2 ImmutableList.EMPTY))
  = ImmutableList.EMPTY.
Proof.
  apply (ImmutableList_drop_skips N 5
           (ImmutableList.Node 1 (ImmutableList.Node 2 ImmutableList.EMPTY))).
  vm_compute. discriminate.
Defined.

(** X7.  When the addition of the element type is associative and the
    converted [0] is neutral on the left, the [sum] of an appended list is the
    sum of the two sums. *)
Theorem ImmutableList_sum_of_append (A : Type) (zero : A) (add : A -> A -> A)
    (xs ys : ImmutableList.List A) :
  (forall a b c, add a (add b c) = add (add a b) c) ->
  (forall a, add zero a = a) ->
  ImmutableList.sum zero add (ImmutableList.operator_plus xs ys)
  = add (ImmutableList.sum zero add xs) (ImmutableList.sum zero add ys).
Proof.
  intros Hassoc Hzero. induction xs as [|x t IH].
  - cbn [ImmutableList.operator_plus ImmutableList.sum]. now rewrite Hzero.
  - cbn [ImmutableList.operator_plus ImmutableList.operator_bar ImmutableList.sum].
    now rewrite IH, Hassoc.
Qed.

Lemma ImmutableList_sum_of_append_witness :
  ImmutableList.sum 0 N.add
    (ImmutableList.operator_plus (ImmutableList.Node 1 (ImmutableList.Node 4 ImmutableList.EMPTY))
       (ImmutableList.Node 9 ImmutableList.EMPTY))
  = N.add (ImmutableList.sum 0 N.add (ImmutableList.Node 1 (ImmutableList.Node 4 ImmutableList.EMPTY)))
      (ImmutableList.sum 0 N.add (ImmutableList.Node 9 ImmutableList.EMPTY)).
Proof.
  apply (ImmutableList_sum_of_append N 0 N.add).
  - intros a b c. lia.
  - intros a. lia.
Defined.

(* --------------------------------------------------------------------- *)
(** ** part_008: [take], [last], [reverse], [operator+], [filter]           *)
(* --------------------------------------------------------------------- *)

Section CopyingListMore.
Context {T : Type}.
Implicit Types (n built : CopyingList.NodePtr T) (xs ys : CopyingList.List T).

Lemma CopyingList_take_loop_elems (k : N) n built :
  0 < k ->
  CopyingList.chain_elems (CopyingList.take_loop k n built)
  = CopyingList.chain_elems built ++ firstn (N.to_nat (k - 1)) (CopyingList.chain_elems n).
Proof.
  revert k built; induction n as [|x t IH]; intros k built Hk.
  - cbn. rewrite firstn_nil. now rewrite app_nil_r.
  - cbn [CopyingList.take_loop CopyingList.chain_elems].
    destruct (N.ltb_spec 0 (k - 1)) as [Hlt|Hge].
    + rewrite IH by assumption. rewrite chain_elems_link_last, <- app_assoc.
      replace (N.to_nat (k - 1)) with (S (N.to_nat (k - 1 - 1))) by lia.
      reflexivity.
    + replace (N.to_nat (k - 1)) with O by lia. cbn. now rewrite app_nil_r.
Qed.

Lemma CopyingList_last_loop x n :
  CopyingList.last_loop x n = List.last (CopyingList.chain_elems n) x.
Proof.
  revert x; induction n as [|y t IH]; intros x; [reflexivity|].
  cbn [CopyingList.last_loop CopyingList.chain_elems]. rewrite IH.
  destruct (CopyingList.chain_elems t) as [|a l]; [reflexivity|].
  change (List.last (y :: a :: l) x) with (List.last (a :: l) x).
  apply last_nonempty_default.
Qed.

Lemma CopyingList_reverse_loop_elems n ys :
  CopyingList.elems (CopyingList.reverse_loop n ys)
  = List.rev (CopyingList.chain_elems n) ++ CopyingList.elems ys.
Proof.
  revert ys; induction n as [|x t IH]; intros ys; [reflexivity|].
  cbn [CopyingList.reverse_loop CopyingList.chain_elems List.rev]. rewrite IH.
  unfold CopyingList.List_cons. rewrite List_of_Node_value.
  unfold CopyingList.elems. cbn [CopyingList._head CopyingList.chain_elems].
  now rewrite <- app_assoc.
Qed.

Lemma CopyingList_plus_rec_elems n ys :
  CopyingList.elems (CopyingList.plus_rec n ys)
  = CopyingList.chain_elems n ++ CopyingList.elems ys.
Proof.
  induction n as [|x t IH].
  - cbn [CopyingList.plus_rec CopyingList.chain_elems app].
    unfold CopyingList.List_copy. now rewrite List_of_Node_value.
  - cbn [CopyingList.plus_rec CopyingList.chain_elems].
    unfold CopyingList.List_cons. rewrite List_of_Node_value.
    unfold CopyingList.elems in *. cbn [CopyingList._head CopyingList.chain_elems].
    now rewrite IH.
Qed.

Lemma CopyingList_filter_loop_spec (pred : T -> bool) n ys :
  CopyingList.filter_loop pred n ys
  = if existsb pred (CopyingList.chain_elems n) then None else Some ys.
Proof.
  induction n as [|x t IH]; [reflexivity|].
  cbn [CopyingList.filter_loop CopyingList.chain_elems existsb].
  destruct (pred x); [reflexivity | exact IH].
Qed.

End CopyingListMore.

(** X8.  In part_008, [take(k, xs)] with [k >= 1] holds the first
    [min(k, length)] elements of [xs] in order, while [take(0, xs)] hands back
    all of [xs]. *)
Theorem CopyingList_take_elems (T : Type) (k : N) (xs : CopyingList.List T) :
  (0 < k ->
   CopyingList.elems (CopyingList.take k xs) = firstn (N.to_nat k) (CopyingList.elems xs))
  /\ CopyingList.take 0 xs = xs.
Proof.
  split; [|apply CopyingList_take_zero].
  intros Hk. destruct xs as [[|x t]].
  - cbn. now rewrite firstn_nil.
  - unfold CopyingList.take. cbn [CopyingList._head].
    destruct (N.leb_spec k 0) as [Hle|_]; [lia|].
    unfold CopyingList.elems. cbn [CopyingList._head].
    rewrite CopyingList_take_loop_elems by assumption.
    replace (N.to_nat k) with (S (N.to_nat (k - 1))) by lia. reflexivity.
Qed.

Lemma CopyingList_take_elems_witness :
  CopyingList.elems
    (CopyingList.take 2
       (CopyingList.mkList
          (CopyingList.new_Node 7 (CopyingList.new_Node 8 (CopyingList.new_Node 9 CopyingList.nullptr)))))
  = firstn (N.to_nat 2)
      (CopyingList.elems
         (CopyingList.mkList
            (CopyingList.new_Node 7 (CopyingList.new_Node 8 (CopyingList.new_Node 9 CopyingList.nullptr))))).
Proof.
  apply (CopyingList_take_elems N 2). reflexivity.
Defined.

(** X9.  In part_008, [last] throws the empty list [EMPTY] on an empty list
    and returns the final element of any other; [reverse] returns the elements
    last to first; [operator+] returns the elements of [xs] followed by those
    of [ys]. *)
Theorem CopyingList_last_reverse_append (T : Type) (xs ys : CopyingList.List T) :
  CopyingList.last xs
  = match last (CopyingList.elems xs) with
    | Some z => CopyingList.Return z
    | None => CopyingList.Throw CopyingList.EMPTY
    end
  /\ CopyingList.elems (CopyingList.reverse xs) = List.rev (CopyingList.elems xs)
  /\ CopyingList.elems (CopyingList.operator_plus xs ys)
     = CopyingList.elems xs ++ CopyingList.elems ys.
Proof.
  split; [|split].
  - destruct xs as [[|x t]]; [reflexivity|].
    unfold CopyingList.last, CopyingList.elems. cbn [CopyingList._head].
    rewrite CopyingList_last_loop. cbn [CopyingList.chain_elems].
    now rewrite last_cons_default.
  - unfold CopyingList.reverse. rewrite CopyingList_reverse_loop_elems.
    now rewrite app_nil_r.
  - apply CopyingList_plus_rec_elems.
Qed.

(** X10.  In part_008, [filter] never returns a list with an element: it
    returns the empty list when no element of [xs] satisfies the predicate,
    and as soon as one does the loop assigns through the null [to]. *)
Theorem CopyingList_filter_defined_only_without_match (T : Type) (pred : T -> bool)
    (xs : CopyingList.List T) :
  CopyingList.filter pred xs
  = if existsb pred (CopyingList.elems xs) then None else Some CopyingList.EMPTY.
Proof. unfold CopyingList.filter. apply CopyingList_filter_loop_spec. Qed.

(* --------------------------------------------------------------------- *)
(** ** The [std::shared_ptr] headers: [operator|] and what [tail] does to it *)
(* --------------------------------------------------------------------- *)

Section CountedStoreFacts.
Context {A : Type}.
Implicit Types (s : gmap CountedStore.loc (CountedStore.Node A)) (xs : CountedStore.List)
  (ls : list CountedStore.loc) (vs : list A).

Lemma counted_bind_Return {T U} (m : CountedStore.M A T) (k : T -> CountedStore.M A U)
    s v s' :
  m s = CountedStore.Return v s' -> CountedStore.bind m k s = k v s'.
Proof. unfold CountedStore.bind. now intros ->. Qed.

Lemma counted_chain_functional s xs ls1 vs1 ls2 vs2 :
  CountedStore.chain s xs ls1 vs1 -> CountedStore.chain s xs ls2 vs2 ->
  ls1 = ls2 /\ vs1 = vs2.
Proof.
  intros H. revert ls2 vs2. induction H as [|a nd ls vs Ha _ IH]; intros ls2 vs2 H2;
    inversion H2 as [|a' nd' ls' vs' Ha' Hc']; subst; [done|].
  rewrite Ha in Ha'. injection Ha' as <-.
  destruct (IH _ _ Hc') as [-> ->]. done.
Qed.

Lemma counted_chain_suffix s xs ls vs c :
  CountedStore.chain s xs ls vs -> c ∈ ls ->
  exists ls2 vs2, CountedStore.chain s (Some c) ls2 vs2
                  /\ (Datatypes.length ls2 <= Datatypes.length ls)%nat.
Proof.
  induction 1 as [|a nd ls vs Ha Hc IH]; intros Hin; [inversion Hin|].
  apply elem_of_cons in Hin as [->|Hin].
  - exists (a :: ls), (CountedStore._datum nd :: vs). split; [econstructor; eauto | lia].
  - destruct (IH Hin) as (ls2 & vs2 & H2 & Hlen). exists ls2, vs2.
    split; [exact H2 | cbn; lia].
Qed.

Lemma counted_chain_NoDup s xs ls vs : CountedStore.chain s xs ls vs -> NoDup ls.
Proof.
  induction 1 as [|a nd ls vs Ha Hc IH]; constructor; [|exact IH].
  intros Hin. destruct (counted_chain_suffix _ _ _ _ _ Hc Hin) as (ls2 & vs2 & H2 & Hlen).
  assert (Hfull : CountedStore.chain s (Some a) (a :: ls) (CountedStore._datum nd :: vs))
    by (econstructor; eauto).
  destruct (counted_chain_functional _ _ _ _ _ _ H2 Hfull) as [-> _]. cbn in Hlen. lia.
Qed.

Lemma counted_chain_agree s s' xs ls vs :
  CountedStore.chain s xs ls vs ->
  (forall c, c ∈ ls -> s' !! c = s !! c) ->
  CountedStore.chain s' xs ls vs.
Proof.
  induction 1 as [|a nd ls vs Ha Hc IH]; intros Hl; [constructor|].
  econstructor.
  - rewrite Hl by left. exact Ha.
  - apply IH. intros c Hc'. apply Hl. now right.
Qed.

Lemma CountedStore_length_eq (fuel : nat) xs :
  CountedStore.length (A := A) fuel xs
  = if CountedStore.null xs then CountedStore.ret 0
    else match fuel with
         | O => fun _ => CountedStore.OutOfFuel
         | S fuel' =>
             CountedStore.bind (CountedStore.tail xs) (fun t =>
             CountedStore.bind (CountedStore.length fuel' t) (fun n =>
             CountedStore.bind (CountedStore.destroy fuel t) (fun _ =>
             CountedStore.ret ((1 + n) mod UINT_MOD))))
         end.
Proof. now destruct fuel. Qed.

Lemma CountedStore_destroy_null (fuel : nat) s :
  CountedStore.destroy fuel None s = CountedStore.Return tt s.
Proof. now destruct fuel. Qed.

(** Destroying a pointer to a node whose [_tail] is null: the node goes when
    this was its last owner, and otherwise only loses one use. *)
Lemma CountedStore_destroy_unlinked (fuel : nat) s b nb :
  s !! b = Some nb ->
  CountedStore._tail nb = None ->
  CountedStore.destroy (S fuel) (Some b) s
  = CountedStore.Return tt
      (if (CountedStore.use_count nb =? 1)%Z then delete b s
       else <[b := CountedStore.mkNode (CountedStore.use_count nb - 1)
                     (CountedStore._datum nb) None]> s).
Proof.
  intros Hb Ht. cbn [CountedStore.destroy].
  rewrite (counted_bind_Return _ _ s nb s) by (unfold CountedStore.deref; now rewrite Hb).
  rewrite Ht.
  destruct (Z.eqb_spec (CountedStore.use_count nb - 1) 0) as [E|E];
    destruct (Z.eqb_spec (CountedStore.use_count nb) 1) as [E1|E1]; try lia.
  - now rewrite (counted_bind_Return _ _ s tt s (CountedStore_destroy_null fuel s)).
  - reflexivity.
Qed.

Lemma CountedStore_length_run ls : forall s xs vs (fuel : nat),
  CountedStore.chain s xs ls vs ->
  (Datatypes.length ls <= fuel)%nat ->
  exists s',
    CountedStore.length fuel xs s
    = CountedStore.Return (N.of_nat (Datatypes.length ls) mod UINT_MOD) s'
    /\ (forall c, head ls = Some c ->
          s' !! c = (fun nd => CountedStore.mkNode (CountedStore.use_count nd)
                                 (CountedStore._datum nd) None) <$> s !! c)
    /\ (forall c nd, c ∈ tail ls -> s !! c = Some nd ->
          s' !! c = if (CountedStore.use_count nd =? 1)%Z then None
                    else Some (CountedStore.mkNode (CountedStore.use_count nd - 1)
                                 (CountedStore._datum nd) None))
    /\ (forall c, c ∉ ls -> s' !! c = s !! c).
Proof.
  induction ls as [|a ls IH]; intros s xs vs fuel Hc Hf;
    pose proof (counted_chain_NoDup _ _ _ _ Hc) as Hnd;
    inversion Hc as [|a' nd ls' vs' Ha Hc' E1 E2]; subst.
  - exists s. rewrite CountedStore_length_eq. cbn [CountedStore.null].
    split; [reflexivity|]. split; [intros c [=]|].
    split; [intros c nd Hin; inversion Hin | reflexivity].
  - apply NoDup_cons in Hnd as [Hnot Hnd].
    destruct fuel as [|fuel]; [cbn in Hf; lia|].
    set (nd0 := CountedStore.mkNode (CountedStore.use_count nd) (CountedStore._datum nd) None).
    set (s1 := <[a := nd0]> s).
    assert (Htail : CountedStore.tail (Some a) s
                    = CountedStore.Return (CountedStore._tail nd) s1).
    { unfold CountedStore.tail.
      now rewrite (counted_bind_Return _ _ s nd s)
        by (unfold CountedStore.deref; now rewrite Ha). }
    assert (Hc1 : CountedStore.chain s1 (CountedStore._tail nd) ls vs').
    { apply (counted_chain_agree s); [exact Hc'|]. intros c Hin. unfold s1.
      apply lookup_insert_ne. intros ->. contradiction. }
    destruct (IH s1 _ _ fuel Hc1) as (s2 & Hrun & Hhead2 & Hrest2 & Hout2);
      [cbn in Hf; lia|].
    assert (H2a : s2 !! a = Some nd0).
    { rewrite Hout2 by exact Hnot. apply lookup_insert_eq. }
    assert (Hsum : ((1 + N.of_nat (Datatypes.length ls) mod UINT_MOD) mod UINT_MOD)
                   = N.of_nat (Datatypes.length (a :: ls)) mod UINT_MOD).
    { cbn [Datatypes.length]. rewrite Nat2N.inj_succ, <- N.add_1_l.
      now rewrite N.Div0.add_mod_idemp_r. }
    destruct (CountedStore._tail nd) as [b|] eqn:Et.
    + (* the temporary holds the next node, whose [_tail] is null by now *)
      inversion Hc1 as [|b' nb ls'' vs'' Hb1 Hc'' F1 F2]; subst.
      assert (Hba : b <> a) by (intros ->; apply Hnot; left).
      assert (Hb : s !! b = Some nb).
      { unfold s1 in Hb1. now rewrite lookup_insert_ne in Hb1 by congruence. }
      pose proof (Hhead2 b eq_refl) as H2b. rewrite Hb1 in H2b. cbn [fmap option_fmap option_map] in H2b.
      set (nb0 := CountedStore.mkNode (CountedStore.use_count nb)
                    (CountedStore._datum nb) None) in *.
      pose proof (CountedStore_destroy_unlinked fuel s2 b nb0 H2b eq_refl) as Hd.
      cbn [nb0 CountedStore.use_count CountedStore._datum] in Hd.
      eexists. split; [|split; [|split]].
      * rewrite CountedStore_length_eq. cbn [CountedStore.null].
        rewrite (counted_bind_Return _ _ s _ s1 Htail).
        rewrite (counted_bind_Return _ _ s1 _ s2 Hrun).
        rewrite (counted_bind_Return _ _ s2 tt _ Hd).
        unfold CountedStore.ret. now rewrite Hsum.
      * intros c [= <-]. rewrite Ha. cbn [fmap option_fmap option_map]. fold nd0.
        destruct (CountedStore.use_count nb =? 1)%Z.
        -- now rewrite lookup_delete_ne by congruence.
        -- now rewrite lookup_insert_ne by congruence.
      * cbn [tail]. intros c nc Hin Hcn.
        apply elem_of_cons in Hin as [->|Hin].
        -- rewrite Hb in Hcn. injection Hcn as <-.
           destruct (CountedStore.use_count nb =? 1)%Z.
           ++ apply lookup_delete_eq.
           ++ apply lookup_insert_eq.
        -- assert (Hcb : c <> b).
           { intros ->. apply NoDup_cons in Hnd as [Hnb _]. contradiction. }
           assert (Hca : c <> a) by (intros ->; apply Hnot; now right).
           assert (H2c : s2 !! c
                         = if (CountedStore.use_count nc =? 1)%Z then None
                           else Some (CountedStore.mkNode (CountedStore.use_count nc - 1)
                                        (CountedStore._datum nc) None)).
           { apply Hrest2; [exact Hin|]. unfold s1. now rewrite lookup_insert_ne by congruence. }
           rewrite <- H2c.
           destruct (CountedStore.use_count nb =? 1)%Z.
           ++ now rewrite lookup_delete_ne by congruence.
           ++ now rewrite lookup_insert_ne by congruence.
      * intros c Hnin. apply not_elem_of_cons in Hnin as [Hca Hnin].
        assert (Hcb : c <> b) by (intros ->; apply Hnin; left).
        assert (H2c : s2 !! c = s !! c).
        { rewrite Hout2 by exact Hnin. unfold s1. now rewrite lookup_insert_ne by congruence. }
        rewrite <- H2c.
        destruct (CountedStore.use_count nb =? 1)%Z.
        -- now rewrite lookup_delete_ne by congruence.
        -- now rewrite lookup_insert_ne by congruence.
    + (* the temporary is null *)
      inversion Hc1; subst.
      exists s2. split; [|split; [|split]].
      * rewrite CountedStore_length_eq. cbn [CountedStore.null].
        rewrite (counted_bind_Return _ _ s _ s1 Htail).
        rewrite (counted_bind_Return _ _ s1 _ s2 Hrun).
        rewrite (counted_bind_Return _ _ s2 tt s2 (CountedStore_destroy_null _ s2)).
        unfold CountedStore.ret. now rewrite Hsum.
      * intros c [= <-]. rewrite H2a, Ha. reflexivity.
      * intros c nc Hin. inversion Hin.
      * intros c Hnin. apply not_elem_of_cons in Hnin as [Hca Hnin].
        rewrite Hout2 by exact Hnin. unfold s1. now rewrite lookup_insert_ne by congruence.
Qed.

End CountedStoreFacts.

(** X11.  [x | xs] makes exactly one node, at an address not in use, whose
    tail is the pointer [xs] itself: [tail( x | xs )] of ImmutableList.hpp
    returns that very pointer, [head( x | xs )] returns [x], every node that
    existed is as it was, and the new list holds [x] followed by the elements
    of [xs]. *)
Theorem SharedStore_cons_shares_tail (A : Type)
    (s : gmap SharedStore.loc (SharedStore.Node A)) (x : A) (xs : SharedStore.List)
    (ls : list SharedStore.loc) (vs : list A) :
  SharedStore.chain s xs ls vs ->
  exists a,
    s !! a = None
    /\ (do r <- SharedStore.operator_bar x xs;
        do t <- SharedStore.Immutable.tail r;
        do v <- SharedStore.head r;
        SharedStore.ret (r, t, v))%store s
       = SharedStore.Return (Some a, xs, x) (<[a := SharedStore.mkNode x xs]> s)
    /\ s ⊆ <[a := SharedStore.mkNode x xs]> s
    /\ SharedStore.chain (<[a := SharedStore.mkNode x xs]> s) (Some a) (a :: ls) (x :: vs).
Proof.
  intros Hc. pose (a := fresh (dom s)).
  assert (Ha : s !! a = None) by (apply not_elem_of_dom, is_fresh).
  assert (Hnew : <[a := SharedStore.mkNode x xs]> s !! a = Some (SharedStore.mkNode x xs))
    by apply lookup_insert_eq.
  exists a. split; [exact Ha|]. split; [|split].
  - rewrite (bind_Return _ _ s (Some a) (<[a := SharedStore.mkNode x xs]> s)) by reflexivity.
    rewrite (bind_Return _ _ _ xs _ (Immutable_tail_shares _ _ _ Hnew)).
    rewrite (bind_Return _ _ _ x (<[a := SharedStore.mkNode x xs]> s)); [reflexivity|].
    unfold SharedStore.head.
    now rewrite (bind_Return _ _ _ _ _ (deref_Some _ _ _ Hnew)).
  - now apply insert_subseteq.
  - change x with (SharedStore._datum (SharedStore.mkNode x xs)) at 2.
    econstructor; [exact Hnew|]. cbn [SharedStore._tail].
    now apply chain_insert_fresh.
Qed.

Lemma SharedStore_cons_shares_tail_witness :
  exists a,
    ({[1%positive := SharedStore.mkNode 2 None]} : gmap SharedStore.loc (SharedStore.Node N))
      !! a = None
    /\ (do r <- SharedStore.operator_bar 1 (Some 1%positive);
        do t <- SharedStore.Immutable.tail r;
        do v <- SharedStore.head r;
        SharedStore.ret (r, t, v))%store {[1%positive := SharedStore.mkNode 2 None]}
       = SharedStore.Return (Some a, Some 1%positive, 1)
           (<[a := SharedStore.mkNode 1 (Some 1%positive)]>
              {[1%positive := SharedStore.mkNode 2 None]}).
Proof.
  destruct (SharedStore_cons_shares_tail N {[1%positive := SharedStore.mkNode 2 None]}
              1 (Some 1%positive) [1%positive] [2]) as (a & Ha & Hrun & _).
  - apply (SharedStore.chain_node _ 1%positive (SharedStore.mkNode 2 None));
      [reflexivity | constructor].
  - exists a. split; [exact Ha | exact Hrun].
Defined.

(** X12.  In the first header of ListTransparentMove.hpp, [length( xs )]
    returns the number of nodes of [xs] (in [unsigned] arithmetic) and, being
    written with the moving [tail], takes the list apart: the first node is
    left with a null [_tail], so a non-empty [xs] holds its first element only
    afterwards; every later node of the chain has lost the use of the node
    before it, and is deleted when that was its only use (as for a list that
    is the sole owner of its nodes), and otherwise stays with a null [_tail]
    and one use less.  Nodes outside the chain are as they were. *)
Theorem TransparentMove_length_takes_list_apart (A : Type)
    (s : gmap CountedStore.loc (CountedStore.Node A)) (xs : CountedStore.List)
    (ls : list CountedStore.loc) (vs : list A) (fuel : nat) :
  CountedStore.chain s xs ls vs ->
  (Datatypes.length ls <= fuel)%nat ->
  exists s',
    CountedStore.length fuel xs s
    = CountedStore.Return (N.of_nat (Datatypes.length ls) mod UINT_MOD) s'
    /\ (forall c, head ls = Some c ->
          s' !! c = (fun nd => CountedStore.mkNode (CountedStore.use_count nd)
                                 (CountedStore._datum nd) None) <$> s !! c)
    /\ (forall c nd, c ∈ tail ls -> s !! c = Some nd ->
          s' !! c = if (CountedStore.use_count nd =? 1)%Z then None
                    else Some (CountedStore.mkNode (CountedStore.use_count nd - 1)
                                 (CountedStore._datum nd) None))
    /\ (forall c, c ∉ ls -> s' !! c = s !! c)
    /\ CountedStore.chain s' xs (firstn 1 ls) (firstn 1 vs).
Proof.
  intros Hc Hf.
  destruct (CountedStore_length_run ls s xs vs fuel Hc Hf)
    as (s' & Hrun & Hhead & Hrest & Hout).
  exists s'. split; [exact Hrun|]. split; [exact Hhead|]. split; [exact Hrest|].
  split; [exact Hout|].
  inversion Hc as [|a nd ls' vs' Ha Hc' E1 E2]; subst; [constructor|].
  cbn [firstn].
  apply (CountedStore.chain_node s' a
           (CountedStore.mkNode (CountedStore.use_count nd) (CountedStore._datum nd) None));
    [|constructor].
  rewrite (Hhead a eq_refl), Ha. reflexivity.
Qed.

Lemma TransparentMove_length_takes_list_apart_witness :
  exists s',
    CountedStore.length 2 (Some 2%positive)
      (<[2%positive := CountedStore.mkNode 1%Z 1 (Some 1%positive)]>
         {[1%positive := CountedStore.mkNode 1%Z 2 None]})
    = CountedStore.Return (N.of_nat (Datatypes.length [2%positive; 1%positive]) mod UINT_MOD) s'
    /\ s' !! 1%positive = None
    /\ CountedStore.chain s' (Some 2%positive) [2%positive] [1].
Proof.
  destruct (TransparentMove_length_takes_list_apart N
              (<[2%positive := CountedStore.mkNode 1%Z 1 (Some 1%positive)]>
                 {[1%positive := CountedStore.mkNode 1%Z 2 None]})
              (Some 2%positive) [2%positive; 1%positive] [1; 2] 2)
    as (s' & Hrun & _ & Hrest & _ & Hc').
  - apply (CountedStore.chain_node _ 2%positive
             (CountedStore.mkNode 1%Z 1 (Some 1%positive))); [reflexivity|].
    apply (CountedStore.chain_node _ 1%positive (CountedStore.mkNode 1%Z 2 None));
      [reflexivity | constructor].
  - cbn. lia.
  - exists s'. split; [exact Hrun|]. split; [|exact Hc'].
    exact (Hrest 1%positive (CountedStore.mkNode 1%Z 2 None) ltac:(left) eq_refl).
Defined.

(* --------------------------------------------------------------------- *)
(** ** [prelude::list]: chains under construction                           *)
(* --------------------------------------------------------------------- *)

Section PreludeMore.
Context {A : Type}.
Implicit Types (h : gmap prelude.loc (prelude.node A)) (xs ys : prelude.list)
  (a b l : prelude.loc) (nd : prelude.node A) (fuel : nat)
  (ls : list prelude.loc) (vs : list A).

Lemma chain_in_heap h p ls vs c :
  prelude.chain h p ls vs -> c ∈ ls -> is_Some (h !! c).
Proof.
  induction 1 as [|a nd ls vs Ha _ IH]; intros Hin; [inversion Hin|].
  apply elem_of_cons in Hin as [->|Hin]; eauto.
Qed.

Lemma chain_lengths h p ls vs :
  prelude.chain h p ls vs -> Datatypes.length vs = Datatypes.length ls.
Proof. induction 1; cbn; congruence. Qed.

(** Relinking the last node of a chain to [q] puts the chain of [q] behind
    it; only the nodes of the chain itself have to agree. *)
Lemma chain_relink h h' p ls vs l ndl' lsq vsq :
  prelude.chain h p ls vs ->
  last ls = Some l ->
  (forall c, c ∈ ls -> c <> l -> prelude.links h' c = prelude.links h c) ->
  h' !! l = Some ndl' ->
  prelude._head <$> h !! l = Some (prelude._head ndl') ->
  prelude.chain h' (prelude._tail ndl') lsq vsq ->
  prelude.chain h' p (ls ++ lsq) (vs ++ vsq).
Proof.
  intros Hc. pose proof (chain_NoDup _ _ _ _ Hc) as Hnd.
  induction Hc as [|a nd ls vs Ha Hc IH]; intros Hlast Hlinks Hl' Hhead Hq;
    [discriminate|].
  destruct ls as [|a2 ls].
  - injection Hlast as ->. inversion Hc; subst.
    rewrite Ha in Hhead. injection Hhead as ->.
    cbn [app]. econstructor; [exact Hl'|]. exact Hq.
  - assert (Hne : a <> l).
    { intros ->. apply NoDup_cons in Hnd as [Hnot _]. apply Hnot.
      change (last (l :: a2 :: ls)) with (last (a2 :: ls)) in Hlast.
      now apply last_Some_elem_of. }
    pose proof (Hlinks a ltac:(left) Hne) as Hla. unfold prelude.links in Hla.
    rewrite Ha in Hla.
    destruct (h' !! a) as [nd'|] eqn:Ha'; [|discriminate].
    cbn in Hla. injection Hla as Hh Ht.
    cbn [app]. rewrite <- Hh. econstructor; [exact Ha'|]. rewrite Ht.
    apply IH; try assumption.
    + now apply NoDup_cons in Hnd as [_ ?].
    + intros c Hin Hcl. apply Hlinks; [now right | exact Hcl].
Qed.

Lemma new_node_run h (v : A) :
  prelude.new_node v h
  = prelude.Ok (fresh (dom h)) (<[fresh (dom h) := prelude.mk_node 0 v None]> h).
Proof. reflexivity. Qed.

Lemma fresh_not_in h : h !! fresh (dom h) = None.
Proof. apply not_elem_of_dom, is_fresh. Qed.

(** [acquire( new node( v ) )]: a node with count 1 at an unused address. *)
Lemma acquire_new_node h (v : A) :
  prelude.bind (prelude.new_node v) (fun n => prelude.acquire (Some n)) h
  = prelude.Ok (Some (fresh (dom h)))
      (<[fresh (dom h) := prelude.mk_node 1 v None]> h).
Proof.
  rewrite (bind_Ok _ _ h _ _ (new_node_run h v)).
  rewrite (acquire_Some _ _ (prelude.mk_node 0 v None)) by apply lookup_insert_eq.
  now rewrite insert_insert_eq.
Qed.

(** [to = to->_tail = acquire( new node( v ) )], followed by anything. *)
Lemma link_new_node {T} h to tnd (v : A) (k : prelude.loc -> prelude.M A T) :
  h !! to = Some tnd ->
  prelude.bind (prelude.new_node v) (fun n =>
    prelude.bind (prelude.acquire (Some n)) (fun r =>
      prelude.bind (prelude.load to) (fun tnd =>
        prelude.bind (prelude.store to (prelude.set_tail tnd r)) (fun _ =>
          k n)))) h
  = k (fresh (dom h))
      (<[to := prelude.set_tail tnd (Some (fresh (dom h)))]>
         (<[fresh (dom h) := prelude.mk_node 1 v None]> h)).
Proof.
  intros Hto. set (n := fresh (dom h)).
  assert (Hn : h !! n = None) by apply fresh_not_in.
  assert (Hne : to <> n) by congruence.
  rewrite (bind_Ok _ _ h _ _ (new_node_run h v)). fold n.
  rewrite (bind_Ok _ _ _ (Some n) (<[n := prelude.mk_node 1 v None]> h)).
  2:{ rewrite (acquire_Some _ _ (prelude.mk_node 0 v None)) by apply lookup_insert_eq.
      now rewrite insert_insert_eq. }
  assert (Hto1 : <[n := prelude.mk_node 1 v None]> h !! to = Some tnd)
    by now rewrite lookup_insert_ne.
  rewrite (bind_Ok _ _ _ tnd _ (load_Some _ _ _ Hto1)).
  now rewrite (bind_Ok _ _ _ tt _ (store_Some _ _ _ _ Hto1)).
Qed.

Lemma building_start h (v : A) :
  building h (<[fresh (dom h) := prelude.mk_node 1 v None]> h)
    (fresh (dom h)) [fresh (dom h)] [v] (fresh (dom h)).
Proof.
  pose proof (fresh_not_in h) as Hn. repeat split.
  - now apply insert_subseteq.
  - change v with (prelude._head (prelude.mk_node 1 v None)) at 2.
    econstructor; [apply lookup_insert_eq | constructor].
  - intros c ->%list_elem_of_singleton. exact Hn.
  - intros c ->%list_elem_of_singleton. now rewrite lookup_insert_eq.
Qed.

Lemma building_step h0 h z lz vz to (v : A) :
  building h0 h z lz vz to ->
  exists tnd,
    h !! to = Some tnd
    /\ building h0
         (<[to := prelude.set_tail tnd (Some (fresh (dom h)))]>
            (<[fresh (dom h) := prelude.mk_node 1 v None]> h))
         z (lz ++ [fresh (dom h)]) (vz ++ [v]) (fresh (dom h)).
Proof.
  intros (Hsub & Hc & Hlast & Hfresh & Hrefs).
  set (n := fresh (dom h)).
  assert (Hn : h !! n = None) by apply fresh_not_in.
  assert (Hto_in : to ∈ lz) by now apply last_Some_elem_of.
  destruct (chain_in_heap _ _ _ _ _ Hc Hto_in) as [tnd Hto].
  assert (Hne : to <> n) by congruence.
  assert (Hn0 : h0 !! n = None).
  { destruct (h0 !! n) eqn:E; [|reflexivity].
    pose proof (lookup_weaken _ _ _ _ E Hsub). congruence. }
  exists tnd. split; [exact Hto|]. repeat split.
  - apply insert_subseteq_r; [now apply Hfresh|].
    now apply insert_subseteq_r.
  - apply (chain_relink h _ (Some z) lz vz to (prelude.set_tail tnd (Some n)) [n] [v]);
      try assumption.
    + intros c Hin Hcl. unfold prelude.links.
      rewrite lookup_insert_ne by congruence.
      rewrite lookup_insert_ne; [reflexivity|].
      intros ->. destruct (chain_in_heap _ _ _ _ _ Hc Hin). congruence.
    + apply lookup_insert_eq.
    + now rewrite Hto.
    + cbn [prelude.set_tail prelude._tail].
      change v with (prelude._head (prelude.mk_node 1 v None)).
      econstructor; [|constructor].
      rewrite lookup_insert_ne by congruence. apply lookup_insert_eq.
  - apply last_snoc.
  - intros c [Hin| ->%list_elem_of_singleton]%elem_of_app; [now apply Hfresh | exact Hn0].
  - intros c [Hin| ->%list_elem_of_singleton]%elem_of_app.
    + destruct (decide (c = to)) as [->|Hcto].
      * rewrite lookup_insert_eq. cbn. specialize (Hrefs to Hin).
        rewrite Hto in Hrefs. exact Hrefs.
      * rewrite lookup_insert_ne by congruence.
        rewrite lookup_insert_ne; [now apply Hrefs|].
        intros ->. destruct (chain_in_heap _ _ _ _ _ Hc Hin). congruence.
    + rewrite lookup_insert_ne by congruence. now rewrite lookup_insert_eq.
Qed.
End PreludeMore.

(* --------------------------------------------------------------------- *)
(** ** [prelude::list]: copies, destruction and the cascade                 *)
(* --------------------------------------------------------------------- *)

Section PreludeRelease.
Context {A : Type}.
Implicit Types (h : gmap prelude.loc (prelude.node A)) (xs ys : prelude.list)
  (a b l : prelude.loc) (nd : prelude.node A) (fuel : nat)
  (ls lu lr : list prelude.loc) (vs : list A).

Lemma release_eq fuel (n : option prelude.loc) :
  prelude.release (A := A) fuel n
  = match n with
    | None => prelude.ret n
    | Some a =>
        prelude.bind (prelude.load a) (fun nd =>
          let r := ((prelude._refs nd - 1) mod SIZE_MOD)%Z in
          prelude.bind (prelude.store a (prelude.set_refs nd r)) (fun _ =>
            if (r =? 0)%Z then
              match fuel with
              | O => prelude.out_of_fuel
              | S fuel' =>
                  prelude.bind (prelude.release fuel' (prelude._tail nd)) (fun _ =>
                  prelude.bind (prelude.free a) (fun _ => prelude.ret n))
              end
            else prelude.ret n))
    end.
Proof. now destruct fuel. Qed.

(** The cascade: a release that starts at [p] deletes the nodes [lu] that
    only the chain itself counts in, and stops at the first node [lr] starts
    with, whose count it lowers without reaching zero. *)
Lemma release_cascade lu : forall h (p : option prelude.loc) lr vs fuel,
  prelude.chain h p (lu ++ lr) vs ->
  (forall c, c ∈ lu -> prelude._refs <$> h !! c = Some 1%Z) ->
  (forall b nb, head lr = Some b -> h !! b = Some nb ->
                ((prelude._refs nb - 1) mod SIZE_MOD)%Z <> 0%Z) ->
  (Datatypes.length lu <= fuel)%nat ->
  exists h',
    prelude.release fuel p h = prelude.Ok p h'
    /\ (forall c, c ∈ lu -> h' !! c = None)
    /\ (forall b nb, head lr = Some b -> h !! b = Some nb ->
          h' !! b = Some (prelude.set_refs nb ((prelude._refs nb - 1) mod SIZE_MOD)%Z))
    /\ (forall c, c ∉ lu -> head lr <> Some c -> h' !! c = h !! c).
Proof.
  induction lu as [|a lu IH]; intros h p lr vs fuel Hc Hone Hshared Hf.
  - cbn [app] in Hc. rewrite release_eq.
    inversion Hc as [E1 E2|b nb ls' vs' Hb Hc' E1 E2]; subst.
    + exists h. split; [reflexivity|]. split; [intros c Hin; inversion Hin|].
      split; [intros b nb [=] | reflexivity].
    + pose proof (Hshared b nb eq_refl Hb) as Hr.
      exists (<[b := prelude.set_refs nb ((prelude._refs nb - 1) mod SIZE_MOD)%Z]> h).
      split; [|split; [|split]].
      * rewrite (bind_Ok _ _ h nb h (load_Some _ _ _ Hb)). cbv zeta.
        rewrite (bind_Ok _ _ h tt _ (store_Some _ _ _ _ Hb)).
        now apply Z.eqb_neq in Hr as ->.
      * intros c Hin; inversion Hin.
      * intros b' nb' [= <-] Hb'. rewrite Hb in Hb'. injection Hb' as <-.
        apply lookup_insert_eq.
      * intros c _ Hne. apply lookup_insert_ne. intros ->. now apply Hne.
  - pose proof (chain_NoDup _ _ _ _ Hc) as Hnd.
    cbn [app] in Hc, Hnd. apply NoDup_cons in Hnd as [Hnot Hnd].
    inversion Hc as [|a' nd ls' vs' Ha Hc' E1 E2]; subst.
    destruct fuel as [|fuel]; [cbn in Hf; lia|].
    pose proof (Hone a ltac:(left)) as Hra. rewrite Ha in Hra. injection Hra as Hra.
    set (h1 := <[a := prelude.set_refs nd 0]> h).
    assert (Hc1 : prelude.chain h1 (prelude._tail nd) (lu ++ lr) vs').
    { apply (chain_agree h); [exact Hc'|]. intros c Hin. unfold prelude.links, h1.
      rewrite lookup_insert_ne; [reflexivity|]. intros ->. contradiction. }
    destruct (IH h1 (prelude._tail nd) lr vs' fuel Hc1) as (h2 & Hrun & Hgone & Hkept & Hrest).
    { intros c Hin. unfold h1. rewrite lookup_insert_ne; [apply Hone; now right|].
      intros ->. apply Hnot, elem_of_app. now left. }
    { intros b nb Hb Hnb. unfold h1 in Hnb. rewrite lookup_insert_ne in Hnb.
      - now apply (Hshared b nb).
      - intros ->. apply Hnot, elem_of_app. right.
        destruct lr; [discriminate|]. injection Hb as ->. left. }
    { cbn in Hf. lia. }
    exists (delete a h2). split; [|split; [|split]].
    + rewrite release_eq.
      rewrite (bind_Ok _ _ h nd h (load_Some _ _ _ Ha)). cbv zeta.
      rewrite Hra. change ((1 - 1) mod SIZE_MOD)%Z with 0%Z.
      rewrite (bind_Ok _ _ h tt h1 (store_Some _ _ _ _ Ha)).
      change (0 =? 0)%Z with true. cbv iota.
      rewrite (bind_Ok _ _ h1 _ h2 Hrun).
      now rewrite (bind_Ok _ _ h2 tt (delete a h2)).
    + intros c [->|Hin]%elem_of_cons; [apply lookup_delete_eq|].
      rewrite lookup_delete_ne; [now apply Hgone|].
      intros ->. apply Hnot, elem_of_app. now left.
    + intros b nb Hb Hnb.
      assert (Hba : b <> a).
      { intros ->. apply Hnot, elem_of_app. right.
        destruct lr; [discriminate|]. injection Hb as ->. left. }
      rewrite lookup_delete_ne by congruence.
      apply Hkept; [exact Hb|]. unfold h1. now rewrite lookup_insert_ne by congruence.
    + intros c Hnin Hne. apply not_elem_of_cons in Hnin as [Hca Hnin].
      rewrite lookup_delete_ne by congruence.
      rewrite Hrest by assumption. unfold h1. now rewrite lookup_insert_ne by congruence.
Qed.

End PreludeRelease.

(** X13.  Copy-constructing a handle and destroying the copy leaves the heap
    exactly as it was, counts included, whenever the source handle counts in
    its node: the increment and the decrement cancel, also at the top of the
    range of [size_t]. *)
Theorem copy_then_destroy_restores (A : Type) (fuel : nat) (xs : prelude.list)
    (h : gmap prelude.loc (prelude.node A)) :
  prelude.counted h xs ->
  (do c <- prelude.list_copy xs; prelude.list_destroy fuel c)%heap h = prelude.Ok tt h.
Proof.
  intros Hc. unfold prelude.counted in Hc. destruct xs as [[a|]]; cbn [prelude._rep] in Hc.
  - destruct Hc as (nd & Ha & Hr).
    rewrite (bind_Ok _ _ h _ _ (list_copy_Some _ _ _ Ha)).
    unfold prelude.list_destroy. cbn [prelude._rep].
    now rewrite (bind_Ok _ _ _ (Some a) h (acquire_then_release fuel _ _ _ Ha Hr)).
  - rewrite (bind_Ok _ _ h (prelude.mk_list None) h) by reflexivity.
    apply list_destroy_null.
Qed.

Lemma copy_then_destroy_restores_witness :
  (do c <- prelude.list_copy (prelude.mk_list (Some 1%positive));
   prelude.list_destroy 0 c)%heap
    ({[1%positive := prelude.mk_node 18446744073709551615%Z 7 None]}
       : gmap prelude.loc (prelude.node N))
  = prelude.Ok tt {[1%positive := prelude.mk_node 18446744073709551615%Z 7 None]}.
Proof.
  apply (copy_then_destroy_restores N 0 (prelude.mk_list (Some 1%positive))).
  exists (prelude.mk_node 18446744073709551615%Z 7 None).
  split; [reflexivity|]. split; reflexivity.
Defined.

(** X14.  Destroying a handle frees exactly the nodes that nothing else
    counts in.  When the chain of the handle starts with nodes [lu] of count 1
    and goes on with nodes [lr] whose first has another reference, [~list]
    deletes every node of [lu], lowers the count of the first node of [lr] by
    one, and leaves every other node, the rest of [lr] included, as it was;
    so a list that shares [lr] still holds its elements.  With [lr] empty the
    whole chain is freed. *)
Theorem destroy_frees_owned_prefix (A : Type) (h : gmap prelude.loc (prelude.node A))
    (xs : prelude.list) (lu lr : list prelude.loc) (vs : list A) (fuel : nat) :
  prelude.chain h (prelude._rep xs) (lu ++ lr) vs ->
  (forall c, c ∈ lu -> prelude._refs <$> h !! c = Some 1%Z) ->
  (forall b nb, head lr = Some b -> h !! b = Some nb ->
                (1 < prelude._refs nb < SIZE_MOD)%Z) ->
  (Datatypes.length lu <= fuel)%nat ->
  exists h',
    prelude.list_destroy fuel xs h = prelude.Ok tt h'
    /\ (forall c, c ∈ lu -> h' !! c = None)
    /\ (forall b nb, head lr = Some b -> h !! b = Some nb ->
          h' !! b = Some (prelude.set_refs nb (prelude._refs nb - 1)%Z))
    /\ (forall c, c ∉ lu -> head lr <> Some c -> h' !! c = h !! c)
    /\ prelude.chain h' (head lr) lr (skipn (Datatypes.length lu) vs).
Proof.
  intros Hc Hone Hshared Hf.
  assert (Hsmall : forall b nb, head lr = Some b -> h !! b = Some nb ->
            ((prelude._refs nb - 1) mod SIZE_MOD)%Z = (prelude._refs nb - 1)%Z).
  { intros b nb Hb Hnb. specialize (Hshared b nb Hb Hnb). apply Z.mod_small. lia. }
  destruct (release_cascade lu h (prelude._rep xs) lr vs fuel Hc Hone) as
    (h' & Hrun & Hgone & Hkept & Hrest); [|exact Hf|].
  { intros b nb Hb Hnb. rewrite (Hsmall b nb Hb Hnb).
    specialize (Hshared b nb Hb Hnb). lia. }
  exists h'. split; [|split; [exact Hgone|split; [|split; [exact Hrest|]]]].
  - unfold prelude.list_destroy. now rewrite (bind_Ok _ _ h _ h' Hrun).
  - intros b nb Hb Hnb. rewrite (Hkept b nb Hb Hnb). now rewrite (Hsmall b nb Hb Hnb).
  - pose proof (chain_NoDup _ _ _ _ Hc) as Hnd.
    assert (Hsuffix : forall lu0 p vs0, prelude.chain h p (lu0 ++ lr) vs0 ->
              prelude.chain h (head lr) lr (skipn (Datatypes.length lu0) vs0)).
    { clear. induction lu0 as [|a lu0 IH]; intros p vs0 Hc.
      - cbn in *. inversion Hc; subst; [constructor|]. cbn. econstructor; eauto.
      - cbn [app] in Hc. inversion Hc; subst. cbn. eapply IH; eauto. }
    apply (chain_agree h); [now apply (Hsuffix lu (prelude._rep xs))|].
    intros c Hin. unfold prelude.links.
    assert (Hclu : c ∉ lu).
    { intros Hin'. apply NoDup_app in Hnd as (_ & Hdisj & _). now apply (Hdisj c). }
    destruct (decide (head lr = Some c)) as [Hhd|Hhd].
    + destruct (chain_in_heap _ _ _ _ c Hc) as [nc Hnc]; [apply elem_of_app; now right|].
      now rewrite (Hkept c nc Hhd Hnc), Hnc.
    + now rewrite Hrest.
Qed.

Lemma destroy_frees_owned_prefix_witness :
  exists h',
    prelude.list_destroy 2 (prelude.mk_list (Some 2%positive))
      (<[2%positive := prelude.mk_node 1%Z 1 (Some 1%positive)]>
         {[1%positive := prelude.mk_node 1%Z 2 None]})
    = prelude.Ok tt h'
    /\ h' !! 2%positive = None /\ h' !! 1%positive = None.
Proof.
  destruct (destroy_frees_owned_prefix N
              (<[2%positive := prelude.mk_node 1%Z 1 (Some 1%positive)]>
                 {[1%positive := prelude.mk_node 1%Z 2 None]})
              (prelude.mk_list (Some 2%positive)) [2%positive; 1%positive] [] [1; 2] 2)
    as (h' & Hrun & Hgone & _).
  - apply (prelude.chain_node _ 2%positive (prelude.mk_node 1%Z 1 (Some 1%positive)));
      [reflexivity|].
    apply (prelude.chain_node _ 1%positive (prelude.mk_node 1%Z 2 None));
      [reflexivity | constructor].
  - intros c [->|[->|Hin]%elem_of_cons]%elem_of_cons; [reflexivity | reflexivity | inversion Hin].
  - intros b nb [=].
  - cbn. lia.
  - exists h'. split; [exact Hrun|].
    split; apply Hgone; [left | right; left].
Defined.

(* --------------------------------------------------------------------- *)
(** ** [prelude::list]: the constructors                                    *)
(* --------------------------------------------------------------------- *)

Section PreludeConstructors.
Context {A : Type}.
Implicit Types (h : gmap prelude.loc (prelude.node A)) (xs ys : prelude.list)
  (a b l : prelude.loc) (nd : prelude.node A) (fuel : nat)
  (ls : list prelude.loc) (vs : list A).

Lemma subseteq_fresh h h' c : h ⊆ h' -> h' !! c = None -> h !! c = None.
Proof.
  intros Hsub Hc. destruct (h !! c) eqn:E; [|reflexivity].
  pose proof (lookup_weaken _ _ _ _ E Hsub). congruence.
Qed.

(** The brace-list constructor, run on [h]: the chain holds the values in
    their order, at addresses unused in [h]; its first node has count 1 and
    every other node count 2; nothing else is touched. *)
Lemma list_of_initializer_run (xs : list A) h :
  exists r h' ls,
    prelude.list_of_initializer xs h = prelude.Ok r h'
    /\ prelude.chain h' (prelude._rep r) ls xs
    /\ (forall c, c ∈ ls -> h !! c = None)
    /\ (forall c, head ls = Some c -> prelude._refs <$> h' !! c = Some 1%Z)
    /\ (forall c, c ∈ tail ls -> prelude._refs <$> h' !! c = Some 2%Z)
    /\ (forall c, c ∉ ls -> h' !! c = h !! c).
Proof.
  induction xs as [|x later IH].
  - exists (prelude.mk_list None), h, []. split; [reflexivity|].
    split; [constructor|]. split; [intros c Hin; inversion Hin|].
    split; [intros c [=]|]. split; [intros c Hin; inversion Hin | reflexivity].
  - destruct IH as (this & h1 & ls1 & Hrun & Hc & Hfresh & Hhead & Htail & Hframe).
    cbn [prelude.list_of_initializer]. rewrite (bind_Ok _ _ h this h1 Hrun).
    unfold prelude.new_node_cons. destruct this as [p]. cbn [prelude._rep] in *.
    inversion Hc as [E1 E2 E3|c1 nd1 rest1 vs1 Hc1 Hc' E1 E2 E3]; subst.
    + (* [later] is empty *)
      set (n := fresh (dom h1)).
      assert (Hn : h1 !! n = None) by apply fresh_not_in.
      exists (prelude.mk_list (Some n)), (<[n := prelude.mk_node 1 x None]> h1), [n].
      split; [|split; [|split; [|split; [|split]]]].
      * rewrite (bind_Ok _ _ h1 n (<[n := prelude.mk_node 0 x None]> h1)) by reflexivity.
        rewrite (bind_Ok _ _ _ (Some n) (<[n := prelude.mk_node 1 x None]> h1)); [reflexivity|].
        rewrite (acquire_Some _ _ (prelude.mk_node 0 x None)) by apply lookup_insert_eq.
        now rewrite insert_insert_eq.
      * change x with (prelude._head (prelude.mk_node 1 x None)) at 2.
        econstructor; [apply lookup_insert_eq | constructor].
      * intros c ->%list_elem_of_singleton. rewrite <- Hframe; [exact Hn|].
        intros Hin; inversion Hin.
      * intros c [= <-]. now rewrite lookup_insert_eq.
      * intros c Hin; inversion Hin.
      * intros c Hnin. rewrite lookup_insert_ne.
        -- apply Hframe. intros Hin; inversion Hin.
        -- intros ->. apply Hnin. left.
    + (* [later] starts at [c1] *)
      pose proof (Hhead c1 eq_refl) as Hr1. rewrite Hc1 in Hr1. injection Hr1 as Hr1.
      set (h2 := <[c1 := prelude.set_refs nd1 2]> h1).
      set (n := fresh (dom h2)).
      assert (Hn2 : h2 !! n = None) by apply fresh_not_in.
      assert (Hnc1 : n <> c1).
      { intros E. unfold h2 in Hn2. rewrite E, lookup_insert_eq in Hn2. discriminate. }
      assert (Hn1 : h1 !! n = None).
      { unfold h2 in Hn2. now rewrite lookup_insert_ne in Hn2 by congruence. }
      assert (Hnls : n ∉ c1 :: rest1).
      { intros Hin. destruct (chain_in_heap _ _ _ _ n Hc Hin). congruence. }
      exists (prelude.mk_list (Some n)),
        (<[n := prelude.mk_node 1 x (Some c1)]> h2), (n :: c1 :: rest1).
      split; [|split; [|split; [|split; [|split]]]].
      * rewrite (bind_Ok _ _ h1 n (<[n := prelude.mk_node 0 x (Some c1)]> h2)).
        2:{ rewrite (bind_Ok _ _ h1 (Some c1) h2); [reflexivity|].
            rewrite (acquire_Some _ _ _ Hc1). rewrite Hr1. reflexivity. }
        rewrite (bind_Ok _ _ _ (Some n) (<[n := prelude.mk_node 1 x (Some c1)]> h2));
          [reflexivity|].
        rewrite (acquire_Some _ _ (prelude.mk_node 0 x (Some c1))) by apply lookup_insert_eq.
        now rewrite insert_insert_eq.
      * change x with (prelude._head (prelude.mk_node 1 x (Some c1))) at 2.
        econstructor; [apply lookup_insert_eq|]. cbn [prelude._tail].
        apply (chain_agree h1); [exact Hc|].
        intros c Hin. unfold prelude.links.
        rewrite lookup_insert_ne by (intros ->; contradiction).
        unfold h2. destruct (decide (c = c1)) as [->|Hne].
        -- now rewrite lookup_insert_eq, Hc1.
        -- now rewrite lookup_insert_ne by congruence.
      * intros c [->|Hin]%elem_of_cons.
        -- rewrite <- Hframe; [exact Hn1 | exact Hnls].
        -- now apply Hfresh.
      * intros c [= <-]. now rewrite lookup_insert_eq.
      * cbn [tail]. intros c Hin.
        assert (Hcn : c <> n) by (intros ->; contradiction).
        rewrite lookup_insert_ne by congruence. unfold h2.
        apply elem_of_cons in Hin as [->|Hin].
        -- now rewrite lookup_insert_eq.
        -- rewrite lookup_insert_ne; [now apply Htail|].
           intros ->. pose proof (chain_NoDup _ _ _ _ Hc) as Hnd.
           apply NoDup_cons in Hnd as [Hnot _]. contradiction.
      * intros c Hnin. apply not_elem_of_cons in Hnin as [Hcn Hnin].
        rewrite lookup_insert_ne by congruence. unfold h2.
        rewrite lookup_insert_ne; [now apply Hframe|].
        intros ->. apply Hnin. left.
Qed.

(** A by-value parameter around a body that leaves the heap as it finds it. *)
Lemma by_value_net {T} fuel a nd (body : prelude.list -> prelude.M A T) h (v : T) :
  h !! a = Some nd ->
  (0 < prelude._refs nd < SIZE_MOD)%Z ->
  body (prelude.mk_list (Some a))
    (<[a := prelude.set_refs nd ((prelude._refs nd + 1) mod SIZE_MOD)%Z]> h)
  = prelude.Ok v
      (<[a := prelude.set_refs nd ((prelude._refs nd + 1) mod SIZE_MOD)%Z]> h) ->
  prelude.by_value fuel (prelude.mk_list (Some a)) body h = prelude.Ok v h.
Proof.
  intros Ha Hr Hbody.
  rewrite (by_value_Some fuel a nd body h v _
             (prelude.set_refs nd ((prelude._refs nd + 1) mod SIZE_MOD)%Z) Ha Hbody).
  - f_equal. cbn [prelude.set_refs prelude._refs prelude._head prelude._tail].
    rewrite counter_round_trip by assumption.
    rewrite insert_insert_eq. apply insert_id. rewrite Ha. now destruct nd.
  - apply lookup_insert_eq.
  - cbn [prelude.set_refs prelude._refs]. rewrite counter_round_trip by assumption. lia.
Qed.

(** [head] of a non-empty list returns its first value and leaves the heap
    as it was. *)
Lemma head_run fuel h a nd :
  h !! a = Some nd ->
  (0 < prelude._refs nd < SIZE_MOD - 1)%Z ->
  prelude.head fuel (prelude.mk_list (Some a)) h = prelude.Ok (prelude._head nd) h.
Proof.
  intros Ha Hr. unfold prelude.head. apply (by_value_net fuel a nd); [exact Ha | lia|].
  set (nd1 := prelude.set_refs nd ((prelude._refs nd + 1) mod SIZE_MOD)%Z).
  set (h1 := <[a := nd1]> h).
  assert (H1a : h1 !! a = Some nd1) by apply lookup_insert_eq.
  rewrite (bind_Ok _ _ h1 false h1).
  - cbn [prelude._rep]. now rewrite (bind_Ok _ _ h1 nd1 h1 (load_Some _ _ _ H1a)).
  - apply (null_spec fuel (prelude.mk_list (Some a)) h1).
    exists nd1. split; [exact H1a|]. cbn [nd1 prelude.set_refs prelude._refs].
    rewrite Z.mod_small; lia.
Qed.

(** [cons( x, xs )] on a non-empty [xs]: one node is made, pointing at the
    node of [xs], which gains one reference. *)
Lemma cons_run_Some fuel (x : A) h a nd :
  h !! a = Some nd ->
  (0 < prelude._refs nd < SIZE_MOD - 2)%Z ->
  prelude.cons fuel x (prelude.mk_list (Some a)) h
  = prelude.Ok (prelude.mk_list (Some (fresh (dom h))))
      (<[a := prelude.set_refs nd (prelude._refs nd + 1)%Z]>
         (<[fresh (dom h) := prelude.mk_node 1 x (Some a)]> h)).
Proof.
  intros Ha Hr. unfold prelude.cons.
  set (r := prelude._refs nd) in *.
  assert (Hr1 : ((r + 1) mod SIZE_MOD)%Z = (r + 1)%Z) by (apply Z.mod_small; lia).
  assert (Hr2 : ((r + 1 + 1) mod SIZE_MOD)%Z = (r + 2)%Z) by (rewrite Z.mod_small; lia).
  assert (Hr3 : ((r + 2 - 1) mod SIZE_MOD)%Z = (r + 1)%Z) by (rewrite Z.mod_small; lia).
  set (n := fresh (dom h)).
  assert (Hn : h !! n = None) by apply fresh_not_in.
  assert (Hna : n <> a) by congruence.
  set (h1 := <[a := prelude.set_refs nd (r + 1)%Z]> h).
  set (h2 := <[a := prelude.set_refs nd (r + 2)%Z]> h).
  assert (Hdom : dom h2 = dom h).
  { unfold h2. apply dom_insert_lookup_L. eauto. }
  rewrite (by_value_Some fuel a nd _ h (prelude.mk_list (Some n))
             (<[n := prelude.mk_node 1 x (Some a)]> h2)
             (prelude.set_refs nd (r + 2)%Z) Ha).
  - f_equal. cbn [prelude.set_refs prelude._refs prelude._head prelude._tail].
    rewrite Hr3. unfold h2. rewrite insert_insert_ne by congruence.
    rewrite insert_insert_eq. now rewrite insert_insert_ne by congruence.
  - fold r. rewrite Hr1. fold h1. unfold prelude.list_cons, prelude.new_node_cons.
    cbn [prelude._rep].
    assert (H1a : h1 !! a = Some (prelude.set_refs nd (r + 1)%Z)) by apply lookup_insert_eq.
    rewrite (bind_Ok _ _ h1 n (<[n := prelude.mk_node 0 x (Some a)]> h2)).
    + rewrite (bind_Ok _ _ _ (Some n) (<[n := prelude.mk_node 1 x (Some a)]> h2));
        [reflexivity|].
      rewrite (acquire_Some _ _ (prelude.mk_node 0 x (Some a))) by apply lookup_insert_eq.
      now rewrite insert_insert_eq.
    + rewrite (bind_Ok _ _ h1 (Some a) h2).
      * unfold prelude.new. now rewrite Hdom.
      * rewrite (acquire_Some _ _ _ H1a).
        cbn [prelude.set_refs prelude._refs prelude._head prelude._tail].
        rewrite Hr2. unfold h1, h2. now rewrite insert_insert_eq.
  - rewrite lookup_insert_ne by congruence. apply lookup_insert_eq.
  - cbn [prelude.set_refs prelude._refs]. rewrite Hr3. lia.
Qed.

Lemma cons_run_null fuel (x : A) h :
  prelude.cons fuel x (prelude.mk_list None) h
  = prelude.Ok (prelude.mk_list (Some (fresh (dom h))))
      (<[fresh (dom h) := prelude.mk_node 1 x None]> h).
Proof.
  unfold prelude.cons, prelude.by_value.
  rewrite (bind_Ok _ _ h (prelude.mk_list None) h) by reflexivity.
  unfold prelude.finally.
  assert (E : prelude.list_cons x (prelude.mk_list None) h
              = prelude.Ok (prelude.mk_list (Some (fresh (dom h))))
                  (<[fresh (dom h) := prelude.mk_node 1 x None]> h)).
  { unfold prelude.list_cons, prelude.new_node_cons. cbn [prelude._rep].
    rewrite (bind_Ok _ _ h (fresh (dom h))
               (<[fresh (dom h) := prelude.mk_node 0 x None]> h)) by reflexivity.
    rewrite (bind_Ok _ _ _ (Some (fresh (dom h)))
               (<[fresh (dom h) := prelude.mk_node 1 x None]> h)); [reflexivity|].
    rewrite (acquire_Some _ _ (prelude.mk_node 0 x None)) by apply lookup_insert_eq.
    now rewrite insert_insert_eq. }
  rewrite E. now rewrite (bind_Ok _ _ _ tt _ (list_destroy_null fuel _)).
Qed.

End PreludeConstructors.

(** X15. The brace-list constructor of [prelude::list]
    ([list( std::initializer_list<A> xs )]) always succeeds; the list it
    makes holds the given values in their order, in nodes at addresses that
    were unused before; every node that existed before is left as it was.
    The first node ends with reference count 1, and every later node with
    count 2: one reference from the node before it, and one that the
    constructor took with [acquire] when the node was, for one round of the
    loop, the first of the list. *)
Theorem initializer_list_builds (A : Type) (xs : list A)
    (h : gmap prelude.loc (prelude.node A)) :
  exists r h' ls,
    prelude.list_of_initializer xs h = prelude.Ok r h'
    /\ prelude.chain h' (prelude._rep r) ls xs
    /\ (forall c, c ∈ ls -> h !! c = None)
    /\ (forall c, c ∉ ls -> h' !! c = h !! c)
    /\ (forall (i : nat) c, ls !! i = Some c ->
          prelude._refs <$> h' !! c = Some (match i with O => 1 | S _ => 2 end)%Z).
Proof.
  destruct (list_of_initializer_run xs h)
    as (r & h' & ls & Hrun & Hc & Hfresh & Hhead & Htail & Hframe).
  exists r, h', ls. repeat (split; [assumption|]).
  intros [|i] c Hi.
  - apply Hhead. destruct ls; [discriminate | exact Hi].
  - apply Htail. destruct ls as [|c0 ls]; [discriminate|].
    cbn in Hi |- *. now apply list_elem_of_lookup_2 in Hi.
Qed.

(** X16. A list of two or more values made with the brace-list constructor
    and then destroyed gives back the storage of its first node only.  The
    destructor's [release] deletes the first node, whose count was 1; the
    cascade lowers the count of the second node from 2 to 1 and stops there.
    So the second node, with count 1, and every node after it, with count 2
    (one node per value but the first, all distinct, all made by the
    constructor), stay allocated in the final heap, still chained and
    holding the values after the first, though no handle leads to them.
    The nodes that existed before are as they were: the final heap is the
    initial one with the leaked nodes added. *)
Theorem initializer_list_leaks (A : Type) (x y : A) (rest : list A) (fuel : nat)
    (h : gmap prelude.loc (prelude.node A)) :
  exists r h1 n (leaked : list prelude.loc) h',
    prelude.list_of_initializer (x :: y :: rest) h = prelude.Ok r h1
    /\ prelude.chain h1 (prelude._rep r) (n :: leaked) (x :: y :: rest)
    /\ prelude.list_destroy (S fuel) r h1 = prelude.Ok tt h'
    /\ prelude.bind (prelude.list_of_initializer (x :: y :: rest))
         (fun r => prelude.list_destroy (S fuel) r) h = prelude.Ok tt h'
    /\ h' !! n = None
    /\ Datatypes.length leaked = S (Datatypes.length rest)
    /\ NoDup leaked
    /\ (forall (i : nat) c, leaked !! i = Some c ->
          h !! c = None
          /\ prelude._refs <$> h' !! c = Some (match i with O => 1 | S _ => 2 end)%Z)
    /\ prelude.chain h' (head leaked) leaked (y :: rest)
    /\ (forall c, is_Some (h !! c) -> h' !! c = h !! c)
    /\ (forall c, c ∉ leaked -> h' !! c = h !! c).
Proof.
  destruct (list_of_initializer_run (x :: y :: rest) h)
    as (r & h1 & ls & Hrun & Hc & Hfresh & Hhead & Htail & Hframe).
  pose proof (chain_lengths _ _ _ _ Hc) as Hlen.
  destruct ls as [|n [|c1 rest1]]; [discriminate.. |].
  pose proof (chain_NoDup _ _ _ _ Hc) as Hnd.
  apply NoDup_cons in Hnd as [Hn Hnd].
  destruct (chain_in_heap _ _ _ _ c1 Hc ltac:(right; left)) as [nd1 Hc1].
  pose proof (Htail c1 ltac:(left)) as Hr1. rewrite Hc1 in Hr1. injection Hr1 as Hr1.
  destruct (release_cascade [n] h1 (prelude._rep r) (c1 :: rest1) (x :: y :: rest) (S fuel))
    as (h' & Hrel & Hgone & Hdec & Hsame).
  { exact Hc. }
  { intros c ->%list_elem_of_singleton. now apply Hhead. }
  { intros b nb [= <-] Hb. rewrite Hc1 in Hb. injection Hb as <-. now rewrite Hr1. }
  { cbn. lia. }
  assert (Hdestroy : prelude.list_destroy (S fuel) r h1 = prelude.Ok tt h').
  { unfold prelude.list_destroy. now rewrite (bind_Ok _ _ h1 _ h' Hrel). }
  assert (Hc1' : h' !! c1 = Some (prelude.set_refs nd1 1)).
  { rewrite (Hdec c1 nd1 eq_refl Hc1). now rewrite Hr1. }
  assert (Hrest1 : forall c, c ∈ rest1 -> h' !! c = h1 !! c).
  { intros c Hin. apply Hsame.
    - intros ->%list_elem_of_singleton. apply Hn. now right.
    - intros [= ->]. apply NoDup_cons in Hnd as [Hnot _]. contradiction. }
  exists r, h1, n, (c1 :: rest1), h'.
  split; [exact Hrun|]. split; [exact Hc|]. split; [exact Hdestroy|].
  split; [now rewrite (bind_Ok _ _ h r h1 Hrun)|].
  split; [apply Hgone; left|].
  split; [cbn in Hlen |- *; lia|]. split; [exact Hnd|].
  split; [|split; [|split]].
  - intros [|i] c Hi.
    + injection Hi as <-. split; [apply Hfresh; right; left|].
      now rewrite Hc1'.
    + cbn in Hi. apply list_elem_of_lookup_2 in Hi.
      split; [apply Hfresh; right; now right|].
      rewrite (Hrest1 c Hi). apply Htail. now right.
  - cbn [head].
    assert (Hsuffix : prelude.chain h1 (Some c1) (c1 :: rest1) (y :: rest)).
    { inversion Hc as [|a nd ls' vs' Ha Hc' E1 E2 E3]; subst.
      inversion Hc'; subst. econstructor; eauto. }
    apply (chain_agree h1); [exact Hsuffix|].
    intros c Hin. unfold prelude.links.
    apply elem_of_cons in Hin as [->|Hin].
    + now rewrite Hc1', Hc1.
    + now rewrite Hrest1.
  - intros c [nc Hc'].
    assert (Hnin : c ∉ n :: c1 :: rest1).
    { intros Hin. rewrite (Hfresh c Hin) in Hc'. discriminate. }
    rewrite Hsame.
    + now apply Hframe.
    + intros ->%list_elem_of_singleton. apply Hnin. left.
    + intros [= ->]. apply Hnin. right. left.
  - intros c Hnin. destruct (decide (c = n)) as [->|Hcn].
    + rewrite (Hgone n ltac:(left)). symmetry. apply Hfresh. left.
    + rewrite Hsame.
      * apply Hframe. intros Hin. apply elem_of_cons in Hin as [->|Hin]; contradiction.
      * intros ->%list_elem_of_singleton. contradiction.
      * intros [= ->]. apply Hnin. left.
Qed.

(** X17. [cons( x, xs )] (and [x | xs]) of [prelude::list] makes exactly one
    node, at an unused address, with count 1, holding [x] and pointing at the
    first node of [xs]; the nodes of [xs] are shared, not copied: values and
    next fields of all existing nodes are as before, and the first node of
    [xs] has one more reference.  On the result, [head] returns [x] and
    [tail] returns a handle on the very node of [xs]. *)
Theorem cons_shares_its_tail (A : Type) (fuel : nat) (x : A) (xs : prelude.list)
    (h : gmap prelude.loc (prelude.node A)) :
  (forall a, prelude._rep xs = Some a ->
     exists nd, h !! a = Some nd /\ (0 < prelude._refs nd < SIZE_MOD - 2)%Z) ->
  exists n h',
    prelude.cons fuel x xs h = prelude.Ok (prelude.mk_list (Some n)) h'
    /\ h !! n = None
    /\ h' !! n = Some (prelude.mk_node 1 x (prelude._rep xs))
    /\ (forall c, c <> n -> prelude.links h' c = prelude.links h c)
    /\ (forall a nd, prelude._rep xs = Some a -> h !! a = Some nd ->
          prelude._refs <$> h' !! a = Some (prelude._refs nd + 1)%Z)
    /\ prelude.head fuel (prelude.mk_list (Some n)) h' = prelude.Ok x h'
    /\ exists h'', prelude.tail fuel (prelude.mk_list (Some n)) h'
                   = prelude.Ok (prelude.mk_list (prelude._rep xs)) h''.
Proof.
  intros Hxs. pose proof (fresh_not_in h) as Hn.
  destruct xs as [[a|]]; cbn [prelude._rep] in *.
  - destruct (Hxs a eq_refl) as (nd & Ha & Hr).
    assert (Hna : fresh (dom h) <> a) by congruence.
    set (h' := <[a := prelude.set_refs nd (prelude._refs nd + 1)%Z]>
                 (<[fresh (dom h) := prelude.mk_node 1 x (Some a)]> h)).
    assert (Hn' : h' !! fresh (dom h) = Some (prelude.mk_node 1 x (Some a))).
    { unfold h'. rewrite lookup_insert_ne by congruence. apply lookup_insert_eq. }
    exists (fresh (dom h)), h'. split; [now apply cons_run_Some|].
    split; [exact Hn|]. split; [exact Hn'|]. split; [|split; [|split]].
    + intros c Hc. unfold prelude.links, h'. destruct (decide (c = a)) as [->|Hca].
      * now rewrite lookup_insert_eq, Ha.
      * now rewrite !lookup_insert_ne by congruence.
    + intros a' nd' [= <-] Ha'. rewrite Ha in Ha'. injection Ha' as <-.
      unfold h'. now rewrite lookup_insert_eq.
    + apply (head_run fuel h' _ _ Hn'). cbn. unfold SIZE_MOD. lia.
    + destruct (prelude_tail_shares fuel h' _ _ Hn') as (h'' & _ & Ht).
      * cbn. unfold SIZE_MOD. lia.
      * cbn [prelude._tail]. intros b [= <-]. split; [congruence|].
        unfold h'. rewrite lookup_insert_eq. eauto.
      * exists h''. exact Ht.
  - set (h' := <[fresh (dom h) := prelude.mk_node 1 x None]> h).
    assert (Hn' : h' !! fresh (dom h) = Some (prelude.mk_node 1 x None))
      by apply lookup_insert_eq.
    exists (fresh (dom h)), h'. split; [apply cons_run_null|].
    split; [exact Hn|]. split; [exact Hn'|]. split; [|split; [|split]].
    + intros c Hc. unfold prelude.links, h'. now rewrite lookup_insert_ne by congruence.
    + intros a nd [=].
    + apply (head_run fuel h' _ _ Hn'). cbn. unfold SIZE_MOD. lia.
    + destruct (prelude_tail_shares fuel h' _ _ Hn') as (h'' & _ & Ht).
      * cbn. unfold SIZE_MOD. lia.
      * cbn [prelude._tail]. intros b [=].
      * exists h''. exact Ht.
Qed.

Lemma cons_shares_its_tail_witness :
  exists n h',
    prelude.cons 1 2 (prelude.mk_list (Some 1%positive))
      {[1%positive := prelude.mk_node 1%Z 3 None]}
    = prelude.Ok (prelude.mk_list (Some n)) h'
    /\ h' !! n = Some (prelude.mk_node 1 2 (Some 1%positive))
    /\ prelude._refs <$> h' !! 1%positive = Some 2%Z.
Proof.
  destruct (cons_shares_its_tail N 1 2 (prelude.mk_list (Some 1%positive))
              {[1%positive := prelude.mk_node 1%Z 3 None]})
    as (n & h' & Hrun & _ & Hn & _ & Hcount & _).
  - intros a [= <-]. eexists. split; [reflexivity|]. cbn. unfold SIZE_MOD. lia.
  - exists n, h'. split; [exact Hrun|]. split; [exact Hn|].
    exact (Hcount 1%positive _ eq_refl eq_refl).
Defined.

(* --------------------------------------------------------------------- *)
(** ** [prelude::list]: the operations that only read                       *)
(* --------------------------------------------------------------------- *)

Section PreludeReaders.
Context {A : Type}.
Implicit Types (h : gmap prelude.loc (prelude.node A)) (xs ys : prelude.list)
  (a b l : prelude.loc) (nd : prelude.node A) (fuel : nat)
  (ls : list prelude.loc) (vs : list A) (p q : option prelude.loc).

Lemma length_loop_spec h p ls vs :
  prelude.chain h p ls vs ->
  forall fuel (n : Z),
    (Datatypes.length ls <= fuel)%nat -> (0 <= n < SIZE_MOD)%Z ->
    prelude.length_loop fuel n p h
    = prelude.Ok ((n + Z.of_nat (Datatypes.length ls)) mod SIZE_MOD)%Z h.
Proof.
  induction 1 as [|a nd ls vs Ha Hc IH]; intros fuel n Hf Hn.
  - destruct fuel; cbn; unfold prelude.ret; rewrite Z.add_0_r, Z.mod_small; auto.
  - destruct fuel as [|fuel]; [cbn in Hf; lia|].
    cbn [prelude.length_loop]. rewrite (bind_Ok _ _ h nd h (load_Some _ _ _ Ha)).
    rewrite IH.
    + f_equal. cbn [Datatypes.length]. rewrite Nat2Z.inj_succ.
      rewrite Zplus_mod_idemp_l. f_equal. lia.
    + cbn in Hf. lia.
    + apply Z.mod_pos_bound. unfold SIZE_MOD. lia.
Qed.

Lemma sum_loop_spec (add : A -> A -> A) h p ls vs :
  prelude.chain h p ls vs ->
  forall fuel (acc : A),
    (Datatypes.length ls <= fuel)%nat ->
    prelude.sum_loop add fuel acc p h = prelude.Ok (fold_left add vs acc) h.
Proof.
  induction 1 as [|a nd ls vs Ha Hc IH]; intros fuel acc Hf.
  - now destruct fuel.
  - destruct fuel as [|fuel]; [cbn in Hf; lia|].
    cbn [prelude.sum_loop]. rewrite (bind_Ok _ _ h nd h (load_Some _ _ _ Ha)).
    rewrite IH by (cbn in Hf; lia). reflexivity.
Qed.

Lemma drop_loop_spec h (k : nat) : forall p ls vs,
  prelude.chain h p ls vs ->
  exists q, prelude.drop_loop k p h = prelude.Ok q h
            /\ prelude.chain h q (skipn k ls) (skipn k vs).
Proof.
  induction k as [|k IH]; intros p ls vs Hc.
  - exists p. split; [now destruct p | exact Hc].
  - inversion Hc as [|a nd ls' vs' Ha Hc']; subst.
    + exists None. split; [reflexivity | constructor].
    + destruct (IH _ _ _ Hc') as (q & Hrun & Hq).
      exists q. split; [|exact Hq].
      cbn [prelude.drop_loop]. now rewrite (bind_Ok _ _ h nd h (load_Some _ _ _ Ha)).
Qed.

Lemma links_dom h h' :
  (forall c, prelude.links h' c = prelude.links h c) -> dom h' = dom h.
Proof.
  intros Hl. apply set_eq. intros c. rewrite !elem_of_dom.
  specialize (Hl c). unfold prelude.links in Hl.
  destruct (h' !! c), (h !! c); cbn in Hl; try discriminate;
    split; intros [? ?]; eauto; discriminate.
Qed.

Lemma eq_loop_spec (neq : A -> A -> bool) h p lx vx :
  (forall x y, neq x y = false <-> x = y) ->
  prelude.chain h p lx vx ->
  forall q ly vy fuel,
    prelude.chain h q ly vy ->
    (Datatypes.length lx <= fuel)%nat ->
    exists r : bool, prelude.eq_loop neq fuel p q h = prelude.Ok r h
                     /\ (r = true <-> vx = vy).
Proof.
  intros Hneq Hc.
  induction Hc as [|a nd lx vx Ha Hc IH]; intros q ly vy fuel Hq Hf.
  - inversion Hq as [|c nc ly' vy' Hb Hq']; subst.
    + exists true. split; [now destruct fuel | tauto].
    + exists false. split; [now destruct fuel|]. split; discriminate.
  - inversion Hq as [|c nc ly' vy' Hb Hq']; subst.
    + exists false. split; [now destruct fuel|]. split; discriminate.
    + destruct fuel as [|fuel]; [cbn in Hf; lia|].
      cbn [prelude.eq_loop].
      rewrite (bind_Ok _ _ h nd h (load_Some _ _ _ Ha)).
      rewrite (bind_Ok _ _ h nc h (load_Some _ _ _ Hb)).
      destruct (neq (prelude._head nd) (prelude._head nc)) eqn:En.
      * exists false. split; [reflexivity|]. split; [discriminate|].
        intros [= Eh _]. apply Hneq in Eh. congruence.
      * apply Hneq in En.
        destruct (IH _ _ _ fuel Hq' ltac:(cbn in Hf; lia)) as (r' & Hrun & Hr').
        exists r'. split; [exact Hrun|]. rewrite Hr'. rewrite En.
        split; [now intros -> | now intros [= ->]].
Qed.

End PreludeReaders.

(** X18. [length( xs )] of [prelude::list] returns the number of elements of
    [xs] as a [size_t], that is modulo 2^64, and leaves the heap as it was:
    it walks the nodes without taking a reference. *)
Theorem prelude_length_counts_elements (A : Type) (h : gmap prelude.loc (prelude.node A))
    (xs : prelude.list) (ls : list prelude.loc) (vs : list A) (fuel : nat) :
  prelude.chain h (prelude._rep xs) ls vs ->
  (Datatypes.length ls <= fuel)%nat ->
  prelude.length fuel xs h
  = prelude.Ok (Z.of_nat (Datatypes.length vs) mod SIZE_MOD)%Z h.
Proof.
  intros Hc Hf. unfold prelude.length.
  rewrite (length_loop_spec h _ ls vs Hc fuel 0%Z Hf) by (unfold SIZE_MOD; lia).
  now rewrite (chain_lengths _ _ _ _ Hc).
Qed.

Lemma prelude_length_counts_elements_witness :
  prelude.length 2 (prelude.mk_list (Some 2%positive))
    (<[2%positive := prelude.mk_node 1%Z 2 (Some 1%positive)]>
       {[1%positive := prelude.mk_node 1%Z 3 None]})
  = prelude.Ok (Z.of_nat (Datatypes.length [2%N; 3%N]) mod SIZE_MOD)%Z
      (<[2%positive := prelude.mk_node 1%Z 2 (Some 1%positive)]>
         {[1%positive := prelude.mk_node 1%Z 3 None]}).
Proof.
  apply (prelude_length_counts_elements N _ _ [2%positive; 1%positive]).
  - apply (prelude.chain_node _ 2%positive (prelude.mk_node 1%Z 2 (Some 1%positive)));
      [reflexivity|].
    apply (prelude.chain_node _ 1%positive (prelude.mk_node 1%Z 3 None));
      [reflexivity | constructor].
  - cbn. lia.
Defined.

(** X19. [sum( xs )] of [prelude::list] adds the elements to the initial [0]
    from the first to the last, each with [operator+=] on the running result
    (a left fold), and leaves the heap as it was. *)
Theorem prelude_sum_folds_from_the_left (A : Type) (zero : A) (add : A -> A -> A)
    (h : gmap prelude.loc (prelude.node A))
    (xs : prelude.list) (ls : list prelude.loc) (vs : list A) (fuel : nat) :
  prelude.chain h (prelude._rep xs) ls vs ->
  (Datatypes.length ls <= fuel)%nat ->
  prelude.sum zero add fuel xs h = prelude.Ok (fold_left add vs zero) h.
Proof. intros Hc Hf. unfold prelude.sum. now apply (sum_loop_spec add h _ ls). Qed.

Lemma prelude_sum_folds_from_the_left_witness :
  prelude.sum 0 N.add 2 (prelude.mk_list (Some 2%positive))
    (<[2%positive := prelude.mk_node 1%Z 2 (Some 1%positive)]>
       {[1%positive := prelude.mk_node 1%Z 3 None]})
  = prelude.Ok (fold_left N.add [2; 3] 0)
      (<[2%positive := prelude.mk_node 1%Z 2 (Some 1%positive)]>
         {[1%positive := prelude.mk_node 1%Z 3 None]}).
Proof.
  apply (prelude_sum_folds_from_the_left N 0 N.add _ _ [2%positive; 1%positive]).
  - apply (prelude.chain_node _ 2%positive (prelude.mk_node 1%Z 2 (Some 1%positive)));
      [reflexivity|].
    apply (prelude.chain_node _ 1%positive (prelude.mk_node 1%Z 3 None));
      [reflexivity | constructor].
  - cbn. lia.
Defined.

(** X20. [drop( k, xs )] of [prelude::list] makes no node: the handle it
    returns holds the node of [xs] reached after [k] steps (or none, when
    [xs] has at most [k] elements), so the result is the chain of [xs]
    without its first [k] nodes, shared with [xs].  The only change to the
    heap is one reference more on that node. *)
Theorem prelude_drop_shares_suffix (A : Type) (k : N)
    (h : gmap prelude.loc (prelude.node A))
    (xs : prelude.list) (ls : list prelude.loc) (vs : list A) :
  prelude.chain h (prelude._rep xs) ls vs ->
  exists q h',
    prelude.drop k xs h = prelude.Ok (prelude.mk_list q) h'
    /\ q = head (skipn (N.to_nat k) ls)
    /\ prelude.chain h' q (skipn (N.to_nat k) ls) (skipn (N.to_nat k) vs)
    /\ dom h' = dom h
    /\ (forall c, q <> Some c -> h' !! c = h !! c)
    /\ (forall c nd, q = Some c -> h !! c = Some nd ->
          h' !! c = Some (prelude.set_refs nd ((prelude._refs nd + 1) mod SIZE_MOD)%Z)).
Proof.
  intros Hc.
  assert (Hq : exists q,
             prelude.chain h q (skipn (N.to_nat k) ls) (skipn (N.to_nat k) vs)
             /\ prelude.drop k xs h
                = prelude.bind (prelude.acquire q)
                    (fun r => prelude.ret (prelude.mk_list r)) h).
  { unfold prelude.drop. destruct (k <=? 0) eqn:Ek.
    - apply N.leb_le in Ek. assert (k = 0) as -> by lia.
      exists (prelude._rep xs). split; [exact Hc | reflexivity].
    - destruct (drop_loop_spec h (N.to_nat k) _ _ _ Hc) as (q & Hrun & Hq).
      exists q. split; [exact Hq|].
      now rewrite (bind_Ok _ _ h q h Hrun). }
  destruct Hq as (q & Hq & ->).
  assert (Hhd : q = head (skipn (N.to_nat k) ls)) by (now inversion Hq).
  destruct q as [c|].
  - destruct (chain_in_heap _ _ _ _ c Hq) as [nd Hnd].
    { rewrite Hhd in *. destruct (skipn (N.to_nat k) ls); [discriminate|].
      injection Hhd as ->. left. }
    set (h' := <[c := prelude.set_refs nd ((prelude._refs nd + 1) mod SIZE_MOD)%Z]> h).
    assert (Hl : forall c0, prelude.links h' c0 = prelude.links h c0).
    { intros c0. unfold prelude.links, h'. destruct (decide (c0 = c)) as [->|Hne].
      - now rewrite lookup_insert_eq, Hnd.
      - now rewrite lookup_insert_ne by congruence. }
    exists (Some c), h'. split; [|split; [exact Hhd|split; [|split; [|split]]]].
    + now rewrite (bind_Ok _ _ h (Some c) h' (acquire_Some _ _ _ Hnd)).
    + apply (chain_agree h); [exact Hq | intros; apply Hl].
    + now apply links_dom.
    + intros c0 Hne. unfold h'. rewrite lookup_insert_ne; congruence.
    + intros c0 nd0 [= <-] Hc0. rewrite Hnd in Hc0. injection Hc0 as <-.
      unfold h'. now rewrite lookup_insert_eq.
  - exists None, h. split; [reflexivity|]. split; [exact Hhd|].
    split; [exact Hq|]. split; [reflexivity|]. split; [reflexivity|]. intros c nd [=].
Qed.

Lemma prelude_drop_shares_suffix_witness :
  exists h',
    prelude.drop 1 (prelude.mk_list (Some 2%positive))
      (<[2%positive := prelude.mk_node 1%Z 2 (Some 1%positive)]>
         {[1%positive := prelude.mk_node 1%Z 3 None]})
    = prelude.Ok (prelude.mk_list (Some 1%positive)) h'
    /\ prelude.chain h' (Some 1%positive) [1%positive] [3].
Proof.
  destruct (prelude_drop_shares_suffix N 1
              (<[2%positive := prelude.mk_node 1%Z 2 (Some 1%positive)]>
                 {[1%positive := prelude.mk_node 1%Z 3 None]})
              (prelude.mk_list (Some 2%positive)) [2%positive; 1%positive] [2; 3])
    as (q & h' & Hrun & Hq & Hc & _).
  - apply (prelude.chain_node _ 2%positive (prelude.mk_node 1%Z 2 (Some 1%positive)));
      [reflexivity|].
    apply (prelude.chain_node _ 1%positive (prelude.mk_node 1%Z 3 None));
      [reflexivity | constructor].
  - cbn in Hq. subst q. exists h'. split; [exact Hrun | exact Hc].
Defined.

(** X21. [xs == ys] of [prelude::list], for an element type whose [!=] is
    the negation of equality: the result is [true] exactly when the two
    lists hold the same elements in the same order (two handles on one node
    are equal without a walk), and the heap is left as it was. *)
Theorem prelude_operator_eq_compares_elements (A : Type) (neq : A -> A -> bool)
    (h : gmap prelude.loc (prelude.node A)) (xs ys : prelude.list)
    (lx ly : list prelude.loc) (vx vy : list A) (fuel : nat) :
  (forall x y, neq x y = false <-> x = y) ->
  prelude.chain h (prelude._rep xs) lx vx ->
  prelude.chain h (prelude._rep ys) ly vy ->
  (Datatypes.length lx <= fuel)%nat ->
  exists r : bool,
    prelude.operator_eq neq fuel xs ys h = prelude.Ok r h
    /\ (r = true <-> vx = vy).
Proof.
  intros Hneq Hx Hy Hf. unfold prelude.operator_eq.
  destruct (decide (prelude._rep xs = prelude._rep ys)) as [E|E].
  - exists true. split; [reflexivity|]. split; [|reflexivity]. intros _.
    rewrite E in Hx. now destruct (chain_functional _ _ _ _ _ _ Hx Hy).
  - now apply (eq_loop_spec neq h _ lx vx Hneq Hx _ ly vy).
Qed.

Lemma prelude_operator_eq_compares_elements_witness :
  exists r : bool,
    prelude.operator_eq (fun x y => negb (x =? y)) 1
      (prelude.mk_list (Some 1%positive)) (prelude.mk_list (Some 2%positive))
      (<[2%positive := prelude.mk_node 1%Z 3 None]>
         {[1%positive := prelude.mk_node 1%Z 3 None]})
    = prelude.Ok r
        (<[2%positive := prelude.mk_node 1%Z 3 None]>
           {[1%positive := prelude.mk_node 1%Z 3 None]})
    /\ (r = true <-> [3] = [3]).
Proof.
  apply (prelude_operator_eq_compares_elements N (fun x y => negb (x =? y)) _ _ _
           [1%positive] [2%positive]).
  - intros x y. rewrite negb_false_iff. apply N.eqb_eq.
  - apply (prelude.chain_node _ 1%positive (prelude.mk_node 1%Z 3 None));
      [reflexivity | constructor].
  - apply (prelude.chain_node _ 2%positive (prelude.mk_node 1%Z 3 None));
      [reflexivity | constructor].
  - cbn. lia.
Defined.

(* --------------------------------------------------------------------- *)
(** ** [prelude::list]: the operations that build a new chain               *)
(* --------------------------------------------------------------------- *)

Section PreludeBuilders.
Context {A : Type}.
Implicit Types (h : gmap prelude.loc (prelude.node A)) (xs ys : prelude.list)
  (a l : prelude.loc) (nd : prelude.node A) (fuel : nat)
  (ls : list prelude.loc) (vs : list A) (p q : option prelude.loc).

Lemma chain_frame h h' p ls vs :
  prelude.chain h p ls vs ->
  (forall c, is_Some (h !! c) -> prelude.links h' c = prelude.links h c) ->
  prelude.chain h' p ls vs.
Proof.
  intros Hc Hl. apply (chain_agree h); [exact Hc|].
  intros c Hin. apply Hl. exact (chain_in_heap _ _ _ _ c Hc Hin).
Qed.

Lemma acquire_run h (n : option prelude.loc) :
  (forall c, n = Some c -> is_Some (h !! c)) ->
  exists h1,
    prelude.acquire n h = prelude.Ok n h1
    /\ (forall c, n <> Some c -> h1 !! c = h !! c)
    /\ (forall c nd, n = Some c -> h !! c = Some nd ->
          h1 !! c = Some (prelude.set_refs nd ((prelude._refs nd + 1) mod SIZE_MOD)%Z)).
Proof.
  intros Hn. destruct n as [c|].
  - destruct (Hn c eq_refl) as [nd Hc]. eexists. split; [exact (acquire_Some _ _ _ Hc)|].
    split.
    + intros c' Hne. rewrite lookup_insert_ne; congruence.
    + intros c' nd' [= <-] Hc'. rewrite Hc in Hc'. injection Hc' as <-.
      apply lookup_insert_eq.
  - exists h. split; [reflexivity|]. split; [reflexivity|]. intros c nd [=].
Qed.

Lemma list_singleton_run h (x : A) :
  prelude.list_singleton x h
  = prelude.Ok (prelude.mk_list (Some (fresh (dom h))))
      (<[fresh (dom h) := prelude.mk_node 1 x None]> h).
Proof.
  unfold prelude.list_singleton, prelude.list_cons, prelude.new_node_cons.
  cbn [prelude._rep prelude.EMPTY].
  rewrite (bind_Ok _ _ h (fresh (dom h))
             (<[fresh (dom h) := prelude.mk_node 0 x None]> h)) by reflexivity.
  rewrite (bind_Ok _ _ _ (Some (fresh (dom h)))
             (<[fresh (dom h) := prelude.mk_node 1 x None]> h)); [reflexivity|].
  rewrite (acquire_Some _ _ (prelude.mk_node 0 x None)) by apply lookup_insert_eq.
  now rewrite insert_insert_eq.
Qed.

Lemma plus_loop_eq fuel (from to : prelude.loc) :
  prelude.plus_loop (A := A) fuel from to
  = prelude.bind (prelude.load from) (fun fnd =>
      match prelude._tail fnd with
      | None => prelude.ret to
      | Some from' =>
          match fuel with
          | O => prelude.out_of_fuel
          | S fuel' =>
              prelude.bind (prelude.load from') (fun fnd' =>
                prelude.bind (prelude.new_node (prelude._head fnd')) (fun n =>
                  prelude.bind (prelude.acquire (Some n)) (fun r =>
                    prelude.bind (prelude.load to) (fun tnd =>
                      prelude.bind (prelude.store to (prelude.set_tail tnd r)) (fun _ =>
                        prelude.plus_loop fuel' from' n)))))
          end
      end).
Proof. now destruct fuel. Qed.

(** The copying loop of [operator+]: entered with [from] the node last
    copied and the chain built so far, it appends a copy of every node after
    [from]. *)
Lemma plus_loop_spec h0 p lf vf :
  prelude.chain h0 p lf vf ->
  forall from fuel h z lz vz to,
    p = Some from ->
    building h0 h z lz vz to ->
    (Datatypes.length lf <= S fuel)%nat ->
    exists to' h' lz',
      prelude.plus_loop fuel from to h = prelude.Ok to' h'
      /\ building h0 h' z (lz ++ lz') (vz ++ tail vf) to'
      /\ Datatypes.length lz' = Datatypes.length (tail lf).
Proof.
  induction 1 as [|a nd lf vf Ha Hc IH]; intros from fuel h z lz vz to Hp Hb Hf;
    [discriminate|].
  injection Hp as <-. rewrite plus_loop_eq.
  pose proof Hb as (Hsub & _).
  rewrite (bind_Ok _ _ h nd h (load_Some _ _ _ (lookup_weaken _ _ _ _ Ha Hsub))).
  cbn [tail]. destruct (prelude._tail nd) as [from'|] eqn:Et.
  - inversion Hc as [|a' nd' lf' vf' Ha' Hc' E1 E2 E3]; subst.
    destruct fuel as [|fuel]; [cbn in Hf; lia|].
    rewrite (bind_Ok _ _ h nd' h (load_Some _ _ _ (lookup_weaken _ _ _ _ Ha' Hsub))).
    destruct (building_step h0 h z lz vz to (prelude._head nd') Hb) as (tnd & Hto & Hb').
    rewrite (link_new_node h to tnd _ _ Hto).
    destruct (IH from' fuel _ z _ _ _ eq_refl Hb' ltac:(cbn in Hf |- *; lia))
      as (to' & h' & lz' & Hrun & Hb'' & Hlen).
    exists to', h', (fresh (dom h) :: lz'). split; [exact Hrun|]. split.
    + cbn [tail] in Hb''. now rewrite <- !app_assoc in Hb''.
    + cbn [tail Datatypes.length] in *. lia.
  - inversion Hc; subst. exists to, h, []. split; [reflexivity|].
    split; [now rewrite !app_nil_r | reflexivity].
Qed.

End PreludeBuilders.

(** X22. The copying [xs + ys] of [prelude::list] (both operands by
    reference to const, also [append( xs, ys )]) returns a list holding the
    elements of [xs] followed by those of [ys].  It makes one new node, of
    count 1, per element of [xs]; behind the last of them it links the very
    nodes of [ys], whose first node gains one reference.  No existing node is
    changed otherwise, so [xs] holds the same elements afterwards (the
    move overload, which relinks the last node of [xs], does not have this
    property). *)
Theorem prelude_append_copies_left_operand (A : Type)
    (h : gmap prelude.loc (prelude.node A)) (xs ys : prelude.list)
    (lx ly : list prelude.loc) (vx vy : list A) (fuel : nat) :
  prelude.chain h (prelude._rep xs) lx vx ->
  prelude.chain h (prelude._rep ys) ly vy ->
  prelude.counted h xs ->
  (Datatypes.length lx <= S fuel)%nat ->
  exists zs h' lz,
    prelude.operator_plus fuel xs ys h = prelude.Ok zs h'
    /\ prelude.chain h' (prelude._rep zs) (lz ++ ly) (vx ++ vy)
    /\ Datatypes.length lz = Datatypes.length lx
    /\ (forall c, c ∈ lz -> h !! c = None /\ prelude._refs <$> h' !! c = Some 1%Z)
    /\ (forall c, is_Some (h !! c) -> prelude._rep ys <> Some c -> h' !! c = h !! c)
    /\ (forall c nd, prelude._rep ys = Some c -> h !! c = Some nd ->
          h' !! c = Some (prelude.set_refs nd ((prelude._refs nd + 1) mod SIZE_MOD)%Z))
    /\ prelude.chain h' (prelude._rep xs) lx vx.
Proof.
  intros Hx Hy Hcnt Hf. unfold prelude.operator_plus.
  rewrite (bind_Ok _ _ h _ h (null_spec fuel xs h Hcnt)).
  assert (Hys : forall c, prelude._rep ys = Some c -> is_Some (h !! c)).
  { intros c E. rewrite E in Hy. inversion Hy; subst; eauto. }
  destruct xs as [[from|]]; cbn [prelude._rep prelude.operator_bool negb] in *.
  - inversion Hx as [|a fnd lx' vx' Hfrom Hx' E1 E2 E3]; subst.
    rewrite (bind_Ok _ _ h fnd h (load_Some _ _ _ Hfrom)).
    rewrite (bind_Ok _ _ h _ _ (list_singleton_run h (prelude._head fnd))).
    cbn [prelude._rep].
    set (n0 := fresh (dom h)).
    pose proof (building_start h (prelude._head fnd)) as Hb. fold n0 in Hb.
    destruct (plus_loop_spec h _ _ _ Hx from fuel _ n0 [n0] [prelude._head fnd] n0
                eq_refl Hb Hf) as (to' & h2 & lz' & Hrun & Hb2 & Hlen).
    cbn [tail app] in Hb2, Hlen.
    destruct Hb2 as (Hsub & Hcz & Hlast & Hfresh & Hrefs).
    assert (Hto_in : to' ∈ n0 :: lz') by now apply last_Some_elem_of.
    destruct (chain_in_heap _ _ _ _ _ Hcz Hto_in) as [tnd Hto].
    destruct (acquire_run h2 (prelude._rep ys)) as (h3 & Hacq & Hother & Hcount).
    { intros c E. destruct (Hys c E) as [nd Hc]. rewrite (lookup_weaken _ _ _ _ Hc Hsub). eauto. }
    assert (Hnew : forall c, c ∈ n0 :: lz' -> prelude._rep ys <> Some c).
    { intros c Hin E. destruct (Hys c E) as [nd Hc]. rewrite (Hfresh c Hin) in Hc. discriminate. }
    assert (Hto3 : h3 !! to' = Some tnd) by (rewrite Hother; auto).
    set (h4 := <[to' := prelude.set_tail tnd (prelude._rep ys)]> h3).
    assert (Hold : forall c, is_Some (h !! c) -> c <> to' /\ h2 !! c = h !! c).
    { intros c [nd Hc]. split.
      - intros ->. rewrite (Hfresh to' Hto_in) in Hc. discriminate.
      - rewrite Hc. exact (lookup_weaken _ _ _ _ Hc Hsub). }
    assert (Hframe : forall c, is_Some (h !! c) -> prelude._rep ys <> Some c ->
                               h4 !! c = h !! c).
    { intros c Hc Hne. destruct (Hold c Hc) as [Hcto Hc2].
      unfold h4. rewrite lookup_insert_ne by congruence. now rewrite Hother. }
    assert (Hshared : forall c nd, prelude._rep ys = Some c -> h !! c = Some nd ->
              h4 !! c = Some (prelude.set_refs nd ((prelude._refs nd + 1) mod SIZE_MOD)%Z)).
    { intros c nd E Hc. destruct (Hold c ltac:(eauto)) as [Hcto Hc2].
      unfold h4. rewrite lookup_insert_ne by congruence.
      apply Hcount; [exact E | congruence]. }
    assert (Hlinks : forall c, is_Some (h !! c) -> prelude.links h4 c = prelude.links h c).
    { intros c Hc. unfold prelude.links.
      destruct (decide (prelude._rep ys = Some c)) as [E|E].
      - destruct Hc as [nd Hc]. now rewrite (Hshared c nd E Hc), Hc.
      - now rewrite Hframe. }
    exists (prelude.mk_list (Some n0)), h4, (n0 :: lz').
    split; [|split; [|split; [|split; [|split; [|split]]]]].
    + rewrite (bind_Ok _ _ _ to' h2 Hrun).
      rewrite (bind_Ok _ _ _ _ h3 Hacq).
      rewrite (bind_Ok _ _ _ tnd h3 (load_Some _ _ _ Hto3)).
      now rewrite (bind_Ok _ _ _ tt h4 (store_Some _ _ _ _ Hto3)).
    + cbn [prelude._rep].
      apply (chain_relink h2 h4 (Some n0) (n0 :: lz') (prelude._head fnd :: vx') to'
               (prelude.set_tail tnd (prelude._rep ys)) ly vy Hcz Hlast).
      * intros c Hin Hne. unfold prelude.links, h4.
        rewrite lookup_insert_ne by congruence. rewrite Hother; auto.
      * apply lookup_insert_eq.
      * rewrite Hto. now destruct tnd.
      * assert (Et : prelude._tail (prelude.set_tail tnd (prelude._rep ys))
                     = prelude._rep ys) by now destruct tnd.
        rewrite Et. exact (chain_frame _ _ _ _ _ Hy Hlinks).
    + cbn [Datatypes.length] in *. lia.
    + intros c Hin. split; [now apply Hfresh|].
      unfold h4. destruct (decide (c = to')) as [->|Hne].
      * rewrite lookup_insert_eq. pose proof (Hrefs to' Hto_in) as Hr.
        rewrite Hto in Hr. now destruct tnd.
      * rewrite lookup_insert_ne by congruence. rewrite Hother; auto.
    + exact Hframe.
    + exact Hshared.
    + exact (chain_frame _ _ _ _ _ Hx Hlinks).
  - inversion Hx; subst.
    destruct (acquire_run h (prelude._rep ys) Hys) as (h1 & Hacq & Hother & Hcount).
    assert (Hlinks : forall c, prelude.links h1 c = prelude.links h c).
    { intros c. unfold prelude.links.
      destruct (decide (prelude._rep ys = Some c)) as [E|E].
      - destruct (Hys c E) as [nd Hc]. now rewrite (Hcount c nd E Hc), Hc.
      - now rewrite Hother. }
    exists (prelude.mk_list (prelude._rep ys)), h1, [].
    split; [|split; [|split; [|split; [|split; [|split]]]]].
    + unfold prelude.list_copy. now rewrite (bind_Ok _ _ _ _ h1 Hacq).
    + cbn [prelude._rep app]. apply (chain_agree h); [exact Hy | intros; apply Hlinks].
    + reflexivity.
    + intros c Hin. inversion Hin.
    + intros c _ Hne. now apply Hother.
    + exact Hcount.
    + constructor.
Qed.

Lemma prelude_append_copies_left_operand_witness :
  exists zs h' lz,
    prelude.operator_plus 1 (prelude.mk_list (Some 1%positive))
      (prelude.mk_list (Some 2%positive))
      (<[2%positive := prelude.mk_node 1%Z 20 None]>
         {[1%positive := prelude.mk_node 1%Z 10 None]})
    = prelude.Ok zs h'
    /\ prelude.chain h' (prelude._rep zs) (lz ++ [2%positive]) ([10] ++ [20])
    /\ prelude.chain h' (Some 1%positive) [1%positive] [10].
Proof.
  destruct (prelude_append_copies_left_operand N
              (<[2%positive := prelude.mk_node 1%Z 20 None]>
                 {[1%positive := prelude.mk_node 1%Z 10 None]})
              (prelude.mk_list (Some 1%positive)) (prelude.mk_list (Some 2%positive))
              [1%positive] [2%positive] [10] [20] 1)
    as (zs & h' & lz & Hrun & Hc & _ & _ & _ & _ & Hxs).
  - apply (prelude.chain_node _ 1%positive (prelude.mk_node 1%Z 10 None));
      [reflexivity | constructor].
  - apply (prelude.chain_node _ 2%positive (prelude.mk_node 1%Z 20 None));
      [reflexivity | constructor].
  - exists (prelude.mk_node 1%Z 10 None). split; [reflexivity|]. split; reflexivity.
  - cbn. lia.
  - exists zs, h', lz. split; [exact Hrun|]. split; [exact Hc | exact Hxs].
Defined.

Section PreludeTake.
Context {A : Type}.
Implicit Types (h : gmap prelude.loc (prelude.node A)) (xs ys : prelude.list)
  (a l : prelude.loc) (nd : prelude.node A)
  (ls : list prelude.loc) (vs : list A) (p q : option prelude.loc).

(** The loop of [take], entered with the counter at [k]: it appends copies of
    at most [k - 1] of the nodes after [from]. *)
Lemma take_loop_spec h0 p lf vf :
  prelude.chain h0 p lf vf ->
  forall from (k : nat) h z lz vz to,
    p = Some from ->
    building h0 h z lz vz to ->
    exists to' h' lz',
      prelude.take_loop k from to h = prelude.Ok tt h'
      /\ building h0 h' z (lz ++ lz') (vz ++ firstn (pred k) (tail vf)) to'.
Proof.
  induction 1 as [|a nd lf vf Ha Hc IH]; intros from k h z lz vz to Hp Hb;
    [discriminate|].
  injection Hp as <-.
  destruct k as [|[|m]].
  - exists to, h, []. split; [reflexivity|]. cbn. now rewrite !app_nil_r.
  - exists to, h, []. split; [reflexivity|]. cbn. now rewrite !app_nil_r.
  - cbn [prelude.take_loop pred tail].
    pose proof Hb as (Hsub & _).
    rewrite (bind_Ok _ _ h nd h (load_Some _ _ _ (lookup_weaken _ _ _ _ Ha Hsub))).
    destruct (prelude._tail nd) as [from'|] eqn:Et.
    + inversion Hc as [|a' nd' lf' vf' Ha' Hc' E1 E2 E3]; subst.
      rewrite (bind_Ok _ _ h nd' h (load_Some _ _ _ (lookup_weaken _ _ _ _ Ha' Hsub))).
      destruct (building_step h0 h z lz vz to (prelude._head nd') Hb) as (tnd & Hto & Hb').
      rewrite (link_new_node h to tnd _ _ Hto).
      destruct (IH from' (S m) _ z _ _ _ eq_refl Hb') as (to' & h' & lz' & Hrun & Hb'').
      exists to', h', (fresh (dom h) :: lz'). split; [exact Hrun|].
      cbn [pred tail firstn] in Hb'' |- *. now rewrite <- !app_assoc in Hb''.
    + inversion Hc; subst. exists to, h, []. split; [reflexivity|].
      cbn. now rewrite !app_nil_r.
Qed.

End PreludeTake.

(** X23. [take( k, xs )] of [prelude::list] returns a list holding the first
    [k] elements of [xs] in their order, or all of them when [xs] has fewer
    (the empty list when [k] is 0 or [xs] is empty).  Its nodes are all new,
    each with count 1, and every node that existed before is left exactly as
    it was, reference count included: nothing of [xs] is shared. *)
Theorem prelude_take_copies_prefix (A : Type) (k : N)
    (h : gmap prelude.loc (prelude.node A)) (xs : prelude.list)
    (lx : list prelude.loc) (vx : list A) :
  prelude.chain h (prelude._rep xs) lx vx ->
  exists zs h' lz,
    prelude.take k xs h = prelude.Ok zs h'
    /\ prelude.chain h' (prelude._rep zs) lz (firstn (N.to_nat k) vx)
    /\ (forall c, c ∈ lz -> h !! c = None /\ prelude._refs <$> h' !! c = Some 1%Z)
    /\ h ⊆ h'.
Proof.
  intros Hx. unfold prelude.take.
  inversion Hx as [E1 E2 E3|from fnd lx' vx' Hfrom Hx' E1 E2 E3]; subst.
  - exists (prelude.mk_list None), h, []. split; [reflexivity|].
    split; [rewrite firstn_nil; constructor|].
    split; [intros c Hin; inversion Hin | reflexivity].
  - destruct (k <=? 0) eqn:Ek.
    + apply N.leb_le in Ek. assert (k = 0) as -> by lia.
      exists (prelude.mk_list None), h, []. split; [reflexivity|].
      split; [constructor|]. split; [intros c Hin; inversion Hin | reflexivity].
    + apply N.leb_gt in Ek.
      destruct (N.to_nat k) as [|m] eqn:Ekn; [lia|].
      rewrite (bind_Ok _ _ h fnd h (load_Some _ _ _ Hfrom)).
      rewrite (bind_Ok _ _ h _ _ (list_singleton_run h (prelude._head fnd))).
      cbn [prelude._rep].
      set (n0 := fresh (dom h)).
      pose proof (building_start h (prelude._head fnd)) as Hb. fold n0 in Hb.
      assert (Hfull : prelude.chain h (Some from) (from :: lx') (prelude._head fnd :: vx'))
        by (econstructor; eauto).
      destruct (take_loop_spec h _ _ _ Hfull from (S m) _ n0 [n0] [prelude._head fnd] n0
                  eq_refl Hb) as (to' & h' & lz' & Hrun & Hb').
      destruct Hb' as (Hsub & Hcz & Hlast & Hfresh & Hrefs).
      exists (prelude.mk_list (Some n0)), h', ([n0] ++ lz').
      split; [now rewrite (bind_Ok _ _ _ tt h' Hrun)|].
      split; [exact Hcz|]. split; [|exact Hsub].
      intros c Hin. split; [now apply Hfresh | now apply Hrefs].
Qed.

Lemma prelude_take_copies_prefix_witness :
  exists zs h' lz,
    prelude.take 1 (prelude.mk_list (Some 2%positive))
      (<[2%positive := prelude.mk_node 1%Z 2 (Some 1%positive)]>
         {[1%positive := prelude.mk_node 1%Z 3 None]})
    = prelude.Ok zs h'
    /\ prelude.chain h' (prelude._rep zs) lz (firstn (N.to_nat 1) [2; 3]).
Proof.
  destruct (prelude_take_copies_prefix N 1
              (<[2%positive := prelude.mk_node 1%Z 2 (Some 1%positive)]>
                 {[1%positive := prelude.mk_node 1%Z 3 None]})
              (prelude.mk_list (Some 2%positive)) [2%positive; 1%positive] [2; 3])
    as (zs & h' & lz & Hrun & Hc & _).
  - apply (prelude.chain_node _ 2%positive (prelude.mk_node 1%Z 2 (Some 1%positive)));
      [reflexivity|].
    apply (prelude.chain_node _ 1%positive (prelude.mk_node 1%Z 3 None));
      [reflexivity | constructor].
  - exists zs, h', lz. split; [exact Hrun | exact Hc].
Defined.

Section PreludeReverse.
Context {A : Type}.
Implicit Types (h : gmap prelude.loc (prelude.node A)) (xs ys : prelude.list)
  (a l : prelude.loc) (nd : prelude.node A) (fuel : nat)
  (ls : list prelude.loc) (vs : list A) (p q : option prelude.loc).

Lemma reverse_loop_eq fuel (from to : prelude.loc) :
  prelude.reverse_loop (A := A) fuel from to
  = prelude.bind (prelude.load from) (fun fnd =>
      match prelude._tail fnd with
      | None => prelude.ret to
      | Some from' =>
          match fuel with
          | O => prelude.out_of_fuel
          | S fuel' =>
              prelude.bind (prelude.load from') (fun fnd' =>
                prelude.bind (prelude.new_node_cons (prelude._head fnd') (Some to)) (fun n =>
                  prelude.reverse_loop fuel' from' n))
          end
      end).
Proof. now destruct fuel. Qed.

(** [new node( x, to )] in front of a chain under construction whose first
    node [to] has no reference yet: [to] gets its one reference, and the new
    node is the first node, again without a reference. *)
Lemma push_front_step h0 h to lz vz (x : A) :
  h0 ⊆ h ->
  prelude.chain h (Some to) lz vz ->
  (forall c, c ∈ lz -> h0 !! c = None) ->
  prelude._refs <$> h !! to = Some 0%Z ->
  (forall c, c ∈ tail lz -> prelude._refs <$> h !! c = Some 1%Z) ->
  exists n h',
    prelude.new_node_cons x (Some to) h = prelude.Ok n h'
    /\ h0 ⊆ h'
    /\ prelude.chain h' (Some n) (n :: lz) (x :: vz)
    /\ (forall c, c ∈ n :: lz -> h0 !! c = None)
    /\ prelude._refs <$> h' !! n = Some 0%Z
    /\ (forall c, c ∈ lz -> prelude._refs <$> h' !! c = Some 1%Z).
Proof.
  intros Hsub Hc Hfresh Hzero Hone.
  inversion Hc as [|a tnd lz' vz' Hto Hc' E1 E2 E3]; subst.
  rewrite Hto in Hzero. injection Hzero as Hzero.
  set (h1 := <[to := prelude.set_refs tnd 1]> h).
  set (n := fresh (dom h1)).
  assert (Hn1 : h1 !! n = None) by apply fresh_not_in.
  assert (Hnto : n <> to).
  { intros E. unfold h1 in Hn1. rewrite E, lookup_insert_eq in Hn1. discriminate. }
  assert (Hn : h !! n = None).
  { unfold h1 in Hn1. now rewrite lookup_insert_ne in Hn1 by congruence. }
  assert (Hsub1 : h0 ⊆ h1).
  { apply insert_subseteq_r; [apply Hfresh; left | exact Hsub]. }
  assert (Hn0 : h0 !! n = None) by exact (subseteq_fresh _ _ _ Hsub Hn).
  assert (Hnin : n ∉ to :: lz').
  { intros Hin. destruct (chain_in_heap _ _ _ _ n Hc Hin). congruence. }
  exists n, (<[n := prelude.mk_node 0 x (Some to)]> h1).
  split; [|split; [|split; [|split; [|split]]]].
  - unfold prelude.new_node_cons.
    rewrite (bind_Ok _ _ h (Some to) h1); [reflexivity|].
    rewrite (acquire_Some _ _ _ Hto). rewrite Hzero. reflexivity.
  - now apply insert_subseteq_r.
  - change x with (prelude._head (prelude.mk_node 0 x (Some to))) at 2.
    econstructor; [apply lookup_insert_eq|]. cbn [prelude._tail].
    apply (chain_agree h); [exact Hc|].
    intros c Hin. unfold prelude.links.
    rewrite lookup_insert_ne by (intros ->; contradiction).
    unfold h1. destruct (decide (c = to)) as [->|Hne].
    + now rewrite lookup_insert_eq, Hto.
    + now rewrite lookup_insert_ne by congruence.
  - intros c [->|Hin]%elem_of_cons; [exact Hn0 | now apply Hfresh].
  - now rewrite lookup_insert_eq.
  - intros c Hin. rewrite lookup_insert_ne by (intros ->; contradiction).
    unfold h1. apply elem_of_cons in Hin as [->|Hin].
    + now rewrite lookup_insert_eq.
    + rewrite lookup_insert_ne; [now apply Hone|].
      intros ->. pose proof (chain_NoDup _ _ _ _ Hc) as Hnd.
      apply NoDup_cons in Hnd as [Hnot _]. contradiction.
Qed.

Lemma reverse_loop_spec h0 p lf vf :
  prelude.chain h0 p lf vf ->
  forall from fuel h to lz vz,
    p = Some from ->
    h0 ⊆ h ->
    prelude.chain h (Some to) lz vz ->
    (forall c, c ∈ lz -> h0 !! c = None) ->
    prelude._refs <$> h !! to = Some 0%Z ->
    (forall c, c ∈ tail lz -> prelude._refs <$> h !! c = Some 1%Z) ->
    (Datatypes.length lf <= S fuel)%nat ->
    exists to' h' lz',
      prelude.reverse_loop fuel from to h = prelude.Ok to' h'
      /\ h0 ⊆ h'
      /\ prelude.chain h' (Some to') lz' (rev (tail vf) ++ vz)
      /\ (forall c, c ∈ lz' -> h0 !! c = None)
      /\ prelude._refs <$> h' !! to' = Some 0%Z
      /\ (forall c, c ∈ tail lz' -> prelude._refs <$> h' !! c = Some 1%Z).
Proof.
  induction 1 as [|a nd lf vf Ha Hc IH];
    intros from fuel h to lz vz Hp Hsub Hcz Hfresh Hzero Hone Hf; [discriminate|].
  injection Hp as <-. rewrite reverse_loop_eq.
  rewrite (bind_Ok _ _ h nd h (load_Some _ _ _ (lookup_weaken _ _ _ _ Ha Hsub))).
  cbn [tail]. destruct (prelude._tail nd) as [from'|] eqn:Et.
  - inversion Hc as [|a' nd' lf' vf' Ha' Hc' E1 E2 E3]; subst.
    destruct fuel as [|fuel]; [cbn in Hf; lia|].
    rewrite (bind_Ok _ _ h nd' h (load_Some _ _ _ (lookup_weaken _ _ _ _ Ha' Hsub))).
    destruct (push_front_step h0 h to lz vz (prelude._head nd') Hsub Hcz Hfresh Hzero Hone)
      as (n & h1 & Hrun & Hsub1 & Hc1 & Hfresh1 & Hzero1 & Hone1).
    rewrite (bind_Ok _ _ h n h1 Hrun).
    destruct (IH from' fuel h1 n _ _ eq_refl Hsub1 Hc1 Hfresh1 Hzero1 Hone1
                ltac:(cbn in Hf |- *; lia))
      as (to' & h' & lz' & Hrun' & Hsub' & Hc'' & Hfresh' & Hzero' & Hone').
    exists to', h', lz'. split; [exact Hrun'|]. split; [exact Hsub'|].
    split; [|auto]. cbn [tail rev] in Hc'' |- *. now rewrite <- app_assoc.
  - inversion Hc; subst. exists to, h, lz. cbn [rev app]. auto 10.
Qed.

End PreludeReverse.

(** X24. [reverse( xs )] of [prelude::list] returns a list holding the
    elements of [xs] in the opposite order.  Its nodes are all new, each ends
    with count 1 (a node is made with count 0 and gets its one reference from
    the node made after it, the last one from the handle returned), and
    every node that existed before is left exactly as it was. *)
Theorem prelude_reverse_builds_reversed (A : Type)
    (h : gmap prelude.loc (prelude.node A)) (xs : prelude.list)
    (lx : list prelude.loc) (vx : list A) (fuel : nat) :
  prelude.chain h (prelude._rep xs) lx vx ->
  (Datatypes.length lx <= S fuel)%nat ->
  exists zs h' lz,
    prelude.reverse fuel xs h = prelude.Ok zs h'
    /\ prelude.chain h' (prelude._rep zs) lz (rev vx)
    /\ (forall c, c ∈ lz -> h !! c = None /\ prelude._refs <$> h' !! c = Some 1%Z)
    /\ h ⊆ h'.
Proof.
  intros Hx Hf. unfold prelude.reverse.
  destruct xs as [p]. cbn [prelude._rep] in *.
  inversion Hx as [E1 E2 E3|from fnd lx' vx' Hfrom Hx' E1 E2 E3]; subst.
  - exists (prelude.mk_list None), h, []. split.
    + reflexivity.
    + split; [constructor|]. split; [intros c Hin; inversion Hin | reflexivity].
  - rewrite (bind_Ok _ _ h fnd h (load_Some _ _ _ Hfrom)).
    rewrite (bind_Ok _ _ h _ _ (new_node_run h (prelude._head fnd))).
    set (t0 := fresh (dom h)).
    set (h1 := <[t0 := prelude.mk_node 0 (prelude._head fnd) None]> h).
    pose proof (fresh_not_in h) as Ht0. fold t0 in Ht0.
    assert (Hfull : prelude.chain h (Some from) (from :: lx') (prelude._head fnd :: vx'))
      by (econstructor; eauto).
    destruct (reverse_loop_spec h _ _ _ Hfull from fuel h1 t0 [t0] [prelude._head fnd] eq_refl)
      as (to' & h2 & lz & Hrun & Hsub & Hcz & Hfresh & Hzero & Hone).
    { now apply insert_subseteq. }
    { apply (prelude.chain_node h1 t0 (prelude.mk_node 0 (prelude._head fnd) None));
        [apply lookup_insert_eq | constructor]. }
    { intros c ->%list_elem_of_singleton. exact Ht0. }
    { unfold h1. now rewrite lookup_insert_eq. }
    { intros c Hin. inversion Hin. }
    { exact Hf. }
    rewrite (bind_Ok _ _ _ to' h2 Hrun).
    inversion Hcz as [|a tnd lz' vz' Hto Hc' F1 F2 F3]; subst.
    rewrite Hto in Hzero. injection Hzero as Hzero.
    set (h3 := <[to' := prelude.set_refs tnd 1]> h2).
    assert (Hto0 : h !! to' = None) by (apply Hfresh; left).
    exists (prelude.mk_list (Some to')), h3, (to' :: lz').
    split; [|split; [|split]].
    + unfold prelude.list_of_node.
      rewrite (bind_Ok _ _ h2 (Some to') h3); [reflexivity|].
      rewrite (acquire_Some _ _ _ Hto). now rewrite Hzero.
    + cbn [prelude._rep rev tail] in Hcz |- *.
      apply (chain_agree h2); [exact Hcz|].
      intros c Hin. unfold prelude.links, h3. destruct (decide (c = to')) as [->|Hne].
      * now rewrite lookup_insert_eq, Hto.
      * now rewrite lookup_insert_ne by congruence.
    + intros c Hin. split; [now apply Hfresh|]. unfold h3.
      apply elem_of_cons in Hin as [->|Hin].
      * now rewrite lookup_insert_eq.
      * rewrite lookup_insert_ne; [now apply Hone|].
        intros ->. pose proof (chain_NoDup _ _ _ _ Hcz) as Hnd.
        apply NoDup_cons in Hnd as [Hnot _]. contradiction.
    + now apply insert_subseteq_r.
Qed.

Lemma prelude_reverse_builds_reversed_witness :
  exists zs h' lz,
    prelude.reverse 1 (prelude.mk_list (Some 2%positive))
      (<[2%positive := prelude.mk_node 1%Z 2 (Some 1%positive)]>
         {[1%positive := prelude.mk_node 1%Z 3 None]})
    = prelude.Ok zs h'
    /\ prelude.chain h' (prelude._rep zs) lz (rev [2; 3]).
Proof.
  destruct (prelude_reverse_builds_reversed N
              (<[2%positive := prelude.mk_node 1%Z 2 (Some 1%positive)]>
                 {[1%positive := prelude.mk_node 1%Z 3 None]})
              (prelude.mk_list (Some 2%positive)) [2%positive; 1%positive] [2; 3] 1)
    as (zs & h' & lz & Hrun & Hc & _).
  - apply (prelude.chain_node _ 2%positive (prelude.mk_node 1%Z 2 (Some 1%positive)));
      [reflexivity|].
    apply (prelude.chain_node _ 1%positive (prelude.mk_node 1%Z 3 None));
      [reflexivity | constructor].
  - cbn. lia.
  - exists zs, h', lz. split; [exact Hrun | exact Hc].
Defined.

Section PreludeFilter.
Context {A : Type}.
Implicit Types (h : gmap prelude.loc (prelude.node A)) (xs ys : prelude.list)
  (a l : prelude.loc) (nd : prelude.node A) (fuel : nat)
  (ls : list prelude.loc) (vs : list A) (p q : option prelude.loc).

(** As [link_new_node], for a loop that goes on with the pointer returned by
    [acquire]. *)
Lemma link_acquired_node {T} h to tnd (v : A) (k : option prelude.loc -> prelude.M A T) :
  h !! to = Some tnd ->
  prelude.bind (prelude.new_node v) (fun n =>
    prelude.bind (prelude.acquire (Some n)) (fun r =>
      prelude.bind (prelude.load to) (fun tnd =>
        prelude.bind (prelude.store to (prelude.set_tail tnd r)) (fun _ =>
          k r)))) h
  = k (Some (fresh (dom h)))
      (<[to := prelude.set_tail tnd (Some (fresh (dom h)))]>
         (<[fresh (dom h) := prelude.mk_node 1 v None]> h)).
Proof.
  intros Hto. set (n := fresh (dom h)).
  assert (Hn : h !! n = None) by apply fresh_not_in.
  assert (Hne : to <> n) by congruence.
  rewrite (bind_Ok _ _ h _ _ (new_node_run h v)). fold n.
  rewrite (bind_Ok _ _ _ (Some n) (<[n := prelude.mk_node 1 v None]> h)).
  2:{ rewrite (acquire_Some _ _ (prelude.mk_node 0 v None)) by apply lookup_insert_eq.
      now rewrite insert_insert_eq. }
  assert (Hto1 : <[n := prelude.mk_node 1 v None]> h !! to = Some tnd)
    by now rewrite lookup_insert_ne.
  rewrite (bind_Ok _ _ _ tnd _ (load_Some _ _ _ Hto1)).
  now rewrite (bind_Ok _ _ _ tt _ (store_Some _ _ _ _ Hto1)).
Qed.

(** The loop of [filter]: [ys_rep] is the first and [to] the last node of
    the chain built so far (both null before the first match). *)
Lemma filter_loop_spec (pred : A -> bool) h0 p lf vf :
  prelude.chain h0 p lf vf ->
  forall fuel h ys_rep to lz vz,
    h0 ⊆ h ->
    prelude.chain h ys_rep lz vz ->
    last lz = to ->
    (forall c, c ∈ lz -> h0 !! c = None) ->
    (forall c, c ∈ lz -> prelude._refs <$> h !! c = Some 1%Z) ->
    (Datatypes.length lf <= fuel)%nat ->
    exists r h' lz',
      prelude.filter_loop pred fuel p ys_rep to h = prelude.Ok r h'
      /\ h0 ⊆ h'
      /\ prelude.chain h' r lz' (vz ++ List.filter pred vf)
      /\ (forall c, c ∈ lz' -> h0 !! c = None)
      /\ (forall c, c ∈ lz' -> prelude._refs <$> h' !! c = Some 1%Z).
Proof.
  induction 1 as [|a nd lf vf Ha Hc IH];
    intros fuel h ys_rep to lz vz Hsub Hcz Hlast Hfresh Hrefs Hf.
  - exists ys_rep, h, lz. split; [now destruct fuel|].
    cbn [List.filter]. rewrite app_nil_r. auto.
  - destruct fuel as [|fuel]; [cbn in Hf; lia|].
    assert (Hf' : (Datatypes.length lf <= fuel)%nat) by (cbn in Hf; lia).
    cbn [prelude.filter_loop List.filter].
    rewrite (bind_Ok _ _ h nd h (load_Some _ _ _ (lookup_weaken _ _ _ _ Ha Hsub))).
    destruct (pred (prelude._head nd)) eqn:Ep.
    + destruct to as [t|].
      * (* a chain is being built: link the copy behind [t] *)
        destruct ys_rep as [z|];
          [|inversion Hcz; subst; discriminate].
        assert (Hb : building h0 h z lz vz t) by (repeat split; assumption).
        destruct (building_step h0 h z lz vz t (prelude._head nd) Hb)
          as (tnd & Hto & Hsub' & Hcz' & Hlast' & Hfresh' & Hrefs').
        rewrite (link_acquired_node h t tnd _ _ Hto).
        rewrite (bind_Ok _ _ _ nd _ (load_Some _ _ _ (lookup_weaken _ _ _ _ Ha Hsub'))).
        destruct (IH fuel _ (Some z) (Some (fresh (dom h))) _ _
                    Hsub' Hcz' Hlast' Hfresh' Hrefs' Hf')
          as (r & h' & lz' & Hrun & Hres).
        exists r, h', lz'. split; [exact Hrun|].
        now rewrite <- app_assoc in Hres.
      * (* the first match: the copy is the first node *)
        apply last_None in Hlast. subst lz. inversion Hcz; subst.
        set (n := fresh (dom h)).
        assert (Hn : h !! n = None) by apply fresh_not_in.
        assert (Hn0 : h0 !! n = None) by exact (subseteq_fresh _ _ _ Hsub Hn).
        set (h1 := <[n := prelude.mk_node 1 (prelude._head nd) None]> h).
        assert (Hsub1 : h0 ⊆ h1) by now apply insert_subseteq_r.
        rewrite (bind_Ok _ _ h _ _ (new_node_run h (prelude._head nd))). fold n.
        rewrite (bind_Ok _ _ _ (Some n) h1).
        2:{ rewrite (acquire_Some _ _ (prelude.mk_node 0 (prelude._head nd) None))
              by apply lookup_insert_eq.
            unfold h1. now rewrite insert_insert_eq. }
        rewrite (bind_Ok _ _ _ nd _ (load_Some _ _ _ (lookup_weaken _ _ _ _ Ha Hsub1))).
        destruct (IH fuel h1 (Some n) (Some n) [n] [prelude._head nd] Hsub1)
          as (r & h' & lz' & Hrun & Hres); [| reflexivity | | | exact Hf' |].
        -- apply (prelude.chain_node h1 n (prelude.mk_node 1 (prelude._head nd) None));
             [apply lookup_insert_eq | constructor].
        -- intros c ->%list_elem_of_singleton. exact Hn0.
        -- intros c ->%list_elem_of_singleton. unfold h1. now rewrite lookup_insert_eq.
        -- exists r, h', lz'. split; [exact Hrun | exact Hres].
    + exact (IH fuel h ys_rep to lz vz Hsub Hcz Hlast Hfresh Hrefs Hf').
Qed.

End PreludeFilter.

(** X25. [filter( pred, xs )] of [prelude::list] returns a list holding, in
    their order, exactly the elements of [xs] that satisfy [pred] (the empty
    list when none does).  Its nodes are all new, each with count 1, and
    every node that existed before is left exactly as it was. *)
Theorem prelude_filter_copies_matching (A : Type) (pred : A -> bool)
    (h : gmap prelude.loc (prelude.node A)) (xs : prelude.list)
    (lx : list prelude.loc) (vx : list A) (fuel : nat) :
  prelude.chain h (prelude._rep xs) lx vx ->
  (Datatypes.length lx <= fuel)%nat ->
  exists zs h' lz,
    prelude.filter pred fuel xs h = prelude.Ok zs h'
    /\ prelude.chain h' (prelude._rep zs) lz (List.filter pred vx)
    /\ (forall c, c ∈ lz -> h !! c = None /\ prelude._refs <$> h' !! c = Some 1%Z)
    /\ h ⊆ h'.
Proof.
  intros Hx Hf. unfold prelude.filter.
  destruct (filter_loop_spec pred h _ _ _ Hx fuel h None None [] [])
    as (r & h' & lz & Hrun & Hsub & Hc & Hfresh & Hrefs);
    [reflexivity | constructor | reflexivity | | | exact Hf |].
  - intros c Hin. inversion Hin.
  - intros c Hin. inversion Hin.
  - exists (prelude.mk_list r), h', lz. split; [now rewrite (bind_Ok _ _ _ r h' Hrun)|].
    split; [exact Hc|]. split; [|exact Hsub].
    intros c Hin. split; [now apply Hfresh | now apply Hrefs].
Qed.

Lemma prelude_filter_copies_matching_witness :
  exists zs h' lz,
    prelude.filter N.even 2 (prelude.mk_list (Some 2%positive))
      (<[2%positive := prelude.mk_node 1%Z 2 (Some 1%positive)]>
         {[1%positive := prelude.mk_node 1%Z 3 None]})
    = prelude.Ok zs h'
    /\ prelude.chain h' (prelude._rep zs) lz (List.filter N.even [2; 3]).
Proof.
  destruct (prelude_filter_copies_matching N N.even
              (<[2%positive := prelude.mk_node 1%Z 2 (Some 1%positive)]>
                 {[1%positive := prelude.mk_node 1%Z 3 None]})
              (prelude.mk_list (Some 2%positive)) [2%positive; 1%positive] [2; 3] 2)
    as (zs & h' & lz & Hrun & Hc & _).
  - apply (prelude.chain_node _ 2%positive (prelude.mk_node 1%Z 2 (Some 1%positive)));
      [reflexivity|].
    apply (prelude.chain_node _ 1%positive (prelude.mk_node 1%Z 3 None));
      [reflexivity | constructor].
  - cbn. lia.
  - exists zs, h', lz. split; [exact Hrun | exact Hc].
Defined.

(** X26. On a non-empty [prelude::list], [head] returns the first element
    and leaves the heap as it was, and [tail] returns a handle on the very
    node that follows the first one (none for a one-element list), so the
    result holds the remaining elements and shares their nodes with [xs]:
    no node is made, and the only change to the heap is one more reference
    on that node. *)
Theorem prelude_head_tail_decompose (A : Type) (fuel : nat)
    (h : gmap prelude.loc (prelude.node A)) (xs : prelude.list)
    (a : prelude.loc) (nd : prelude.node A) (ls : list prelude.loc)
    (v : A) (vs : list A) :
  prelude.chain h (prelude._rep xs) (a :: ls) (v :: vs) ->
  h !! a = Some nd ->
  (0 < prelude._refs nd < SIZE_MOD - 1)%Z ->
  exists zs h',
    prelude.head fuel xs h = prelude.Ok v h
    /\ prelude.tail fuel xs h = prelude.Ok zs h'
    /\ prelude._rep zs = head ls
    /\ prelude.chain h' (prelude._rep zs) ls vs
    /\ dom h' = dom h
    /\ (forall c, prelude._rep zs <> Some c -> h' !! c = h !! c)
    /\ (forall c nc, prelude._rep zs = Some c -> h !! c = Some nc ->
          h' !! c = Some (prelude.set_refs nc ((prelude._refs nc + 1) mod SIZE_MOD)%Z)).
Proof.
  intros Hx Ha Hr. destruct xs as [p]. cbn [prelude._rep] in *.
  pose proof (chain_NoDup _ _ _ _ Hx) as Hnd.
  inversion Hx as [|a' nd' ls' vs' Ha' Hc' E1 E2 E3]; subst.
  rewrite Ha in Ha'. injection Ha' as <-.
  assert (Hnext : forall c, prelude._tail nd = Some c -> c <> a /\ is_Some (h !! c)).
  { intros c E. rewrite E in Hc'. inversion Hc'; subst. split; [|eauto].
    intros ->. apply NoDup_cons in Hnd as [Hnot _]. apply Hnot. left. }
  destruct (prelude_tail_shares fuel h a nd Ha Hr Hnext) as (h' & Hacq & Htail).
  destruct (acquire_run h (prelude._tail nd)) as (h1 & Hacq1 & Hother & Hcount).
  { intros c E. now apply Hnext. }
  rewrite Hacq in Hacq1. injection Hacq1 as <-.
  assert (Hl : forall c, prelude.links h' c = prelude.links h c).
  { intros c. unfold prelude.links.
    destruct (decide (prelude._tail nd = Some c)) as [E|E].
    - destruct (Hnext c E) as [_ [nc Hc]]. now rewrite (Hcount c nc E Hc), Hc.
    - now rewrite Hother. }
  exists (prelude.mk_list (prelude._tail nd)), h'.
  split; [apply (head_run fuel h a nd Ha Hr)|]. split; [exact Htail|].
  cbn [prelude._rep]. split; [now inversion Hc'|].
  split; [apply (chain_agree h); [exact Hc' | intros; apply Hl]|].
  split; [now apply links_dom|]. split; [exact Hother | exact Hcount].
Qed.

Lemma prelude_head_tail_decompose_witness :
  exists zs h',
    prelude.head 1 (prelude.mk_list (Some 2%positive))
      (<[2%positive := prelude.mk_node 1%Z 2 (Some 1%positive)]>
         {[1%positive := prelude.mk_node 1%Z 3 None]})
    = prelude.Ok 2
        (<[2%positive := prelude.mk_node 1%Z 2 (Some 1%positive)]>
           {[1%positive := prelude.mk_node 1%Z 3 None]})
    /\ prelude.tail 1 (prelude.mk_list (Some 2%positive))
         (<[2%positive := prelude.mk_node 1%Z 2 (Some 1%positive)]>
            {[1%positive := prelude.mk_node 1%Z 3 None]})
       = prelude.Ok zs h'
    /\ prelude._rep zs = Some 1%positive
    /\ prelude.chain h' (prelude._rep zs) [1%positive] [3].
Proof.
  destruct (prelude_head_tail_decompose N 1
              (<[2%positive := prelude.mk_node 1%Z 2 (Some 1%positive)]>
                 {[1%positive := prelude.mk_node 1%Z 3 None]})
              (prelude.mk_list (Some 2%positive)) 2%positive
              (prelude.mk_node 1%Z 2 (Some 1%positive)) [1%positive] 2 [3])
    as (zs & h' & Hhead & Htail & Hrep & Hc & _).
  - apply (prelude.chain_node _ 2%positive (prelude.mk_node 1%Z 2 (Some 1%positive)));
      [reflexivity|].
    apply (prelude.chain_node _ 1%positive (prelude.mk_node 1%Z 3 None));
      [reflexivity | constructor].
  - reflexivity.
  - cbn. unfold SIZE_MOD. lia.
  - exists zs, h'. split; [exact Hhead|]. split; [exact Htail|].
    split; [exact Hrep | exact Hc].
Defined.

Section PreludeLast.
Context {A : Type}.
Implicit Types (h : gmap prelude.loc (prelude.node A)) (xs ys : prelude.list)
  (a l : prelude.loc) (nd : prelude.node A) (fuel : nat)
  (ls : list prelude.loc) (vs : list A) (p q : option prelude.loc).

Lemma finally_Ok {T} (m : prelude.M A T) (cleanup : prelude.M A unit) h (v : T) h1 h2 :
  m h = prelude.Ok v h1 ->
  cleanup h1 = prelude.Ok tt h2 ->
  prelude.finally m cleanup h = prelude.Ok v h2.
Proof.
  intros Hm Hc. unfold prelude.finally. rewrite Hm.
  now rewrite (bind_Ok _ _ h1 tt h2 Hc).
Qed.

Lemma last_eq fuel (arg : prelude.list) :
  prelude.last (A := A) fuel arg
  = prelude.by_value fuel arg (fun xs =>
      prelude.bind (prelude.null fuel xs) (fun b =>
        if b then prelude.throw (prelude.domain_error "prelude::last: empty list")
        else
          prelude.bind (prelude.tail fuel xs) (fun ys =>
            prelude.finally
              (prelude.bind (prelude.null fuel ys) (fun e =>
                 if e then prelude.head fuel xs
                 else
                   match fuel with
                   | O => prelude.out_of_fuel
                   | S fuel' => prelude.last fuel' ys
                   end))
              (prelude.list_destroy fuel ys)))).
Proof. now destruct fuel. Qed.

(** [last] on a non-empty chain: the parameter copies and the handles made by
    [tail] are all released again, so the heap ends as it started. *)
Lemma last_run ls : forall h a vs fuel (v : A),
  prelude.chain h (Some a) ls vs ->
  last vs = Some v ->
  (forall c nd, c ∈ ls -> h !! c = Some nd -> (0 < prelude._refs nd < SIZE_MOD - 2)%Z) ->
  (forall c nd, c ∈ tail ls -> h !! c = Some nd -> (prelude._refs nd < SIZE_MOD - 3)%Z) ->
  (Datatypes.length ls <= S fuel)%nat ->
  prelude.last fuel (prelude.mk_list (Some a)) h = prelude.Ok v h.
Proof.
  induction ls as [|a0 ls IH]; intros h a vs fuel v Hc Hv Hfirst Hrest Hf;
    [inversion Hc|].
  assert (a0 = a) as -> by now inversion Hc.
  pose proof (chain_NoDup _ _ _ _ Hc) as Hnd.
  inversion Hc as [|a' nd ls' vs' Ha Hc' E1 E2 E3]; subst.
  apply NoDup_cons in Hnd as [Hnot Hnd'].
  pose proof (Hfirst a nd ltac:(left) Ha) as Hr.
  rewrite last_eq. apply (by_value_net fuel a nd); [exact Ha | lia|].
  set (nd1 := prelude.set_refs nd ((prelude._refs nd + 1) mod SIZE_MOD)%Z).
  set (h1 := <[a := nd1]> h).
  assert (Hr1 : prelude._refs nd1 = (prelude._refs nd + 1)%Z).
  { cbn. apply Z.mod_small. lia. }
  assert (H1a : h1 !! a = Some nd1) by apply lookup_insert_eq.
  assert (Hnull : prelude.null fuel (prelude.mk_list (Some a)) h1 = prelude.Ok false h1).
  { apply (null_spec fuel (prelude.mk_list (Some a)) h1).
    exists nd1. split; [exact H1a | lia]. }
  rewrite (bind_Ok _ _ h1 false h1 Hnull).
  assert (Hnext : forall c, prelude._tail nd1 = Some c -> c <> a /\ is_Some (h1 !! c)).
  { cbn [nd1 prelude.set_refs prelude._tail]. intros c E. rewrite E in Hc'.
    inversion Hc'; subst. assert (c <> a) by (intros ->; apply Hnot; left).
    split; [assumption|]. unfold h1. rewrite lookup_insert_ne by congruence. eauto. }
  destruct (prelude_tail_shares fuel h1 a nd1 H1a ltac:(lia) Hnext) as (h2 & Hacq & Htail).
  rewrite (bind_Ok _ _ h1 _ h2 Htail).
  cbn [nd1 prelude.set_refs prelude._tail] in Hacq |- *.
  destruct (prelude._tail nd) as [b|] eqn:Et.
  - (* more than one element: go on with the rest *)
    inversion Hc' as [|b' nb ls'' vs'' Hb Hc'' F1 F2 F3]; subst.
    assert (Hba : b <> a) by (intros ->; apply Hnot; left).
    assert (H1b : h1 !! b = Some nb) by (unfold h1; now rewrite lookup_insert_ne).
    pose proof (Hfirst b nb ltac:(right; left) Hb) as Hrb.
    pose proof (Hrest b nb ltac:(left) Hb) as Hrb'.
    rewrite (acquire_Some _ _ _ H1b) in Hacq. injection Hacq as <-.
    set (nb1 := prelude.set_refs nb ((prelude._refs nb + 1) mod SIZE_MOD)%Z).
    assert (Hrb1 : prelude._refs nb1 = (prelude._refs nb + 1)%Z).
    { cbn. apply Z.mod_small. lia. }
    set (h2 := <[b := nb1]> h1).
    assert (H2b : h2 !! b = Some nb1) by apply lookup_insert_eq.
    assert (Hother : forall c, c <> a -> c <> b -> h2 !! c = h !! c).
    { intros c Hca Hcb. unfold h2, h1. now rewrite !lookup_insert_ne by congruence. }
    destruct fuel as [|fuel]; [cbn in Hf; lia|].
    apply (finally_Ok _ _ h2 v h2 h1).
    + assert (Hnull2 : prelude.null (S fuel) (prelude.mk_list (Some b)) h2
                       = prelude.Ok false h2).
      { apply (null_spec (S fuel) (prelude.mk_list (Some b)) h2).
        exists nb1. split; [exact H2b | lia]. }
      rewrite (bind_Ok _ _ h2 false h2 Hnull2).
      apply (IH h2 b (prelude._head nb :: vs'')).
      * apply (chain_agree h); [exact Hc'|].
        intros c Hin. unfold prelude.links.
        destruct (decide (c = b)) as [->|Hcb]; [now rewrite H2b, Hb|].
        rewrite Hother; [reflexivity | | exact Hcb].
        intros ->. apply Hnot. exact Hin.
      * rewrite <- Hv. reflexivity.
      * intros c nc Hin Hcn. destruct (decide (c = b)) as [->|Hcb].
        -- rewrite H2b in Hcn. injection Hcn as <-. lia.
        -- rewrite Hother in Hcn; [| |exact Hcb].
           ++ pose proof (Hfirst c nc ltac:(now right) Hcn).
              pose proof (Hrest c nc Hin Hcn). lia.
           ++ intros ->. apply Hnot. exact Hin.
      * intros c nc Hin Hcn. cbn [tail] in Hin.
        assert (Hcb : c <> b).
        { intros ->. apply NoDup_cons in Hnd' as [Hnb _]. contradiction. }
        rewrite Hother in Hcn; [| |exact Hcb].
        -- apply (Hrest c nc); [now right | exact Hcn].
        -- intros ->. apply Hnot. now right.
      * cbn in Hf |- *. lia.
    + unfold prelude.list_destroy. cbn [prelude._rep].
      now rewrite (bind_Ok _ _ _ _ h1 (acquire_then_release (S fuel) h1 b nb H1b ltac:(lia))).
  - (* one element *)
    inversion Hc'; subst. injection Hacq as <-. injection Hv as <-.
    apply (finally_Ok _ _ h1 _ h1 h1); [|apply list_destroy_null].
    rewrite (bind_Ok _ _ h1 true h1).
    + apply (head_run fuel h1 a nd1 H1a). lia.
    + now apply (null_spec fuel (prelude.mk_list None) h1).
Qed.

End PreludeLast.

(** X27. [last( xs )] of [prelude::list] on a non-empty [xs] returns the last
    element.  Each nested call copies its by-value parameter and takes a
    handle on the next node with [tail]; all of them are released again on
    the way back, so the heap, reference counts included, ends exactly as it
    started (the counts must leave room for these three temporary
    references). *)
Theorem prelude_last_returns_last_element (A : Type)
    (h : gmap prelude.loc (prelude.node A)) (xs : prelude.list)
    (ls : list prelude.loc) (vs : list A) (v : A) (fuel : nat) :
  prelude.chain h (prelude._rep xs) ls vs ->
  last vs = Some v ->
  (forall c nd, c ∈ ls -> h !! c = Some nd -> (0 < prelude._refs nd < SIZE_MOD - 3)%Z) ->
  (Datatypes.length ls <= S fuel)%nat ->
  prelude.last fuel xs h = prelude.Ok v h.
Proof.
  intros Hc Hv Hr Hf. destruct xs as [[a|]]; cbn [prelude._rep] in *.
  - apply (last_run ls h a vs fuel v Hc Hv); [| |exact Hf].
    + intros c nd Hin Hcn. pose proof (Hr c nd Hin Hcn). lia.
    + intros c nd Hin Hcn. destruct ls as [|a0 ls]; [inversion Hin|].
      pose proof (Hr c nd ltac:(now right) Hcn). lia.
  - inversion Hc; subst. discriminate.
Qed.

Lemma prelude_last_returns_last_element_witness :
  prelude.last 1 (prelude.mk_list (Some 2%positive))
    (<[2%positive := prelude.mk_node 1%Z 2 (Some 1%positive)]>
       {[1%positive := prelude.mk_node 1%Z 3 None]})
  = prelude.Ok 3
      (<[2%positive := prelude.mk_node 1%Z 2 (Some 1%positive)]>
         {[1%positive := prelude.mk_node 1%Z 3 None]}).
Proof.
  apply (prelude_last_returns_last_element N _ _ [2%positive; 1%positive] [2; 3]).
  - apply (prelude.chain_node _ 2%positive (prelude.mk_node 1%Z 2 (Some 1%positive)));
      [reflexivity|].
    apply (prelude.chain_node _ 1%positive (prelude.mk_node 1%Z 3 None));
      [reflexivity | constructor].
  - reflexivity.
  - intros c nd Hin Hc.
    apply elem_of_cons in Hin as [->|Hin].
    + vm_compute in Hc. injection Hc as <-. vm_compute. split; reflexivity.
    + apply list_elem_of_singleton in Hin as ->. vm_compute in Hc. injection Hc as <-.
      vm_compute. split; reflexivity.
  - cbn. lia.
Defined.

Section PreludeInit.
Context {A : Type}.
Implicit Types (h : gmap prelude.loc (prelude.node A)) (xs ys : prelude.list)
  (a l : prelude.loc) (nd : prelude.node A) (fuel : nat)
  (ls : list prelude.loc) (vs : list A) (p q : option prelude.loc).

Lemma init_eq fuel (arg : prelude.list) :
  prelude.init (A := A) fuel arg
  = prelude.by_value fuel arg (fun xs =>
      prelude.bind (prelude.null fuel xs) (fun b =>
        if b then prelude.throw (prelude.domain_error "prelude::init: empty list")
        else
          prelude.bind (prelude.tail fuel xs) (fun ys =>
            prelude.bind (prelude.null fuel ys) (fun e =>
              if e then prelude.ret ys
              else
                prelude.finally
                  (prelude.bind (prelude.head fuel xs) (fun x =>
                     match fuel with
                     | O => prelude.out_of_fuel
                     | S fuel' =>
                         prelude.bind (prelude.init fuel' ys) (fun zs =>
                           prelude.operator_bar_temporary fuel x zs)
                     end))
                  (prelude.list_destroy fuel ys))))).
Proof. now destruct fuel. Qed.

(** [x | zs] with [zs] a temporary whose first node has count 1: the one
    new node points at that node, and the temporary's reference is given
    back, so the chain of [zs] is taken over as it is. *)
Lemma cons_temporary_run fuel (x : A) h p :
  (forall c, p = Some c -> prelude._refs <$> h !! c = Some 1%Z) ->
  prelude.operator_bar_temporary fuel x (prelude.mk_list p) h
  = prelude.Ok (prelude.mk_list (Some (fresh (dom h))))
      (<[fresh (dom h) := prelude.mk_node 1 x p]> h).
Proof.
  intros Hp. unfold prelude.operator_bar_temporary, prelude.by_value_temporary.
  set (n := fresh (dom h)).
  assert (Hn : h !! n = None) by apply fresh_not_in.
  destruct p as [z|].
  - pose proof (Hp z eq_refl) as Hz.
    destruct (h !! z) as [nz|] eqn:Ez; [|discriminate]. injection Hz as Hz.
    assert (Hnz : n <> z) by congruence.
    set (h1 := <[z := prelude.set_refs nz 2]> h).
    assert (Hdom : dom h1 = dom h).
    { unfold h1. apply dom_insert_lookup_L. eauto. }
    apply (finally_Ok _ _ h _ (<[n := prelude.mk_node 1 x (Some z)]> h1)).
    + unfold prelude.list_cons, prelude.new_node_cons. cbn [prelude._rep].
      rewrite (bind_Ok _ _ h n (<[n := prelude.mk_node 0 x (Some z)]> h1)).
      * rewrite (bind_Ok _ _ _ (Some n) (<[n := prelude.mk_node 1 x (Some z)]> h1));
          [reflexivity|].
        rewrite (acquire_Some _ _ (prelude.mk_node 0 x (Some z))) by apply lookup_insert_eq.
        now rewrite insert_insert_eq.
      * rewrite (bind_Ok _ _ h (Some z) h1).
        -- unfold prelude.new. now rewrite Hdom.
        -- rewrite (acquire_Some _ _ _ Ez). now rewrite Hz.
    + unfold prelude.list_destroy. cbn [prelude._rep].
      rewrite (bind_Ok _ _ _ (Some z) (<[n := prelude.mk_node 1 x (Some z)]> h));
        [reflexivity|].
      rewrite (release_keeps fuel _ z (prelude.set_refs nz 2)).
      * f_equal. cbn [prelude.set_refs prelude._refs prelude._head prelude._tail].
        change ((2 - 1) mod SIZE_MOD)%Z with 1%Z.
        apply map_eq. intros c. destruct (decide (c = z)) as [->|Hcz].
        -- rewrite lookup_insert_eq. rewrite lookup_insert_ne by congruence.
           rewrite Ez. f_equal. rewrite <- Hz. now destruct nz.
        -- rewrite lookup_insert_ne by congruence.
           destruct (decide (c = n)) as [->|Hcn].
           ++ now rewrite !lookup_insert_eq.
           ++ rewrite !lookup_insert_ne by congruence. unfold h1.
              now rewrite lookup_insert_ne by congruence.
      * rewrite lookup_insert_ne by congruence. unfold h1. apply lookup_insert_eq.
      * cbn [prelude.set_refs prelude._refs]. now change ((2 - 1) mod SIZE_MOD)%Z with 1%Z.
  - apply (finally_Ok _ _ h _ (<[n := prelude.mk_node 1 x None]> h));
      [|apply list_destroy_null].
    unfold prelude.list_cons, prelude.new_node_cons. cbn [prelude._rep].
    rewrite (bind_Ok _ _ h n (<[n := prelude.mk_node 0 x None]> h)) by reflexivity.
    rewrite (bind_Ok _ _ _ (Some n) (<[n := prelude.mk_node 1 x None]> h)); [reflexivity|].
    rewrite (acquire_Some _ _ (prelude.mk_node 0 x None)) by apply lookup_insert_eq.
    now rewrite insert_insert_eq.
Qed.

Lemma init_run ls : forall h a vs fuel,
  prelude.chain h (Some a) ls vs ->
  (forall c nd, c ∈ ls -> h !! c = Some nd -> (0 < prelude._refs nd < SIZE_MOD - 2)%Z) ->
  (forall c nd, c ∈ tail ls -> h !! c = Some nd -> (prelude._refs nd < SIZE_MOD - 3)%Z) ->
  (Datatypes.length ls <= S fuel)%nat ->
  exists p h' lz,
    prelude.init fuel (prelude.mk_list (Some a)) h = prelude.Ok (prelude.mk_list p) h'
    /\ prelude.chain h' p lz (removelast vs)
    /\ (forall c, c ∈ lz -> h !! c = None /\ prelude._refs <$> h' !! c = Some 1%Z)
    /\ h ⊆ h'.
Proof.
  induction ls as [|a0 ls IH]; intros h a vs fuel Hc Hfirst Hrest Hf;
    [inversion Hc|].
  assert (a0 = a) as -> by now inversion Hc.
  pose proof (chain_NoDup _ _ _ _ Hc) as Hnd.
  inversion Hc as [|a' nd ls' vs' Ha Hc' E1 E2 E3]; subst.
  apply NoDup_cons in Hnd as [Hnot Hnd'].
  pose proof (Hfirst a nd ltac:(left) Ha) as Hr.
  rewrite init_eq.
  set (nd1 := prelude.set_refs nd ((prelude._refs nd + 1) mod SIZE_MOD)%Z).
  set (h1 := <[a := nd1]> h).
  assert (Hr1 : prelude._refs nd1 = (prelude._refs nd + 1)%Z).
  { cbn. apply Z.mod_small. lia. }
  assert (Hback : forall m : gmap prelude.loc (prelude.node A),
             <[a := prelude.set_refs nd1 ((prelude._refs nd1 - 1) mod SIZE_MOD)%Z]> m
             = <[a := nd]> m).
  { intros m. f_equal.
    rewrite Hr1. replace (prelude._refs nd + 1 - 1)%Z with (prelude._refs nd) by lia.
    rewrite Z.mod_small by lia. unfold nd1. now destruct nd. }
  assert (Hkeep : ((prelude._refs nd1 - 1) mod SIZE_MOD)%Z <> 0%Z).
  { rewrite Hr1. replace (prelude._refs nd + 1 - 1)%Z with (prelude._refs nd) by lia.
    rewrite Z.mod_small; lia. }
  assert (H1a : h1 !! a = Some nd1) by apply lookup_insert_eq.
  assert (Hnull : prelude.null fuel (prelude.mk_list (Some a)) h1 = prelude.Ok false h1).
  { apply (null_spec fuel (prelude.mk_list (Some a)) h1).
    exists nd1. split; [exact H1a | lia]. }
  assert (Hnext : forall c, prelude._tail nd1 = Some c -> c <> a /\ is_Some (h1 !! c)).
  { cbn [nd1 prelude.set_refs prelude._tail]. intros c E. rewrite E in Hc'.
    inversion Hc'; subst. assert (c <> a) by (intros ->; apply Hnot; left).
    split; [assumption|]. unfold h1. rewrite lookup_insert_ne by congruence. eauto. }
  destruct (prelude_tail_shares fuel h1 a nd1 H1a ltac:(lia) Hnext) as (h2 & Hacq & Htail).
  assert (Et1 : prelude._tail nd1 = prelude._tail nd) by reflexivity.
  rewrite Et1 in Hacq, Htail. clear Et1.
  destruct (prelude._tail nd) as [b|] eqn:Et.
  - (* more than one element *)
    inversion Hc' as [|b' nb ls'' vs'' Hb Hc'' F1 F2 F3]; subst.
    assert (Hba : b <> a) by (intros ->; apply Hnot; left).
    assert (H1b : h1 !! b = Some nb) by (unfold h1; now rewrite lookup_insert_ne).
    pose proof (Hfirst b nb ltac:(right; left) Hb) as Hrb.
    pose proof (Hrest b nb ltac:(left) Hb) as Hrb'.
    rewrite (acquire_Some _ _ _ H1b) in Hacq. injection Hacq as <-.
    set (nb1 := prelude.set_refs nb ((prelude._refs nb + 1) mod SIZE_MOD)%Z) in *.
    assert (Hrb1 : prelude._refs nb1 = (prelude._refs nb + 1)%Z).
    { cbn. apply Z.mod_small. lia. }
    assert (Hbackb : forall m : gmap prelude.loc (prelude.node A),
               <[b := prelude.set_refs nb1 ((prelude._refs nb1 - 1) mod SIZE_MOD)%Z]> m
               = <[b := nb]> m).
    { intros m. f_equal.
      rewrite Hrb1. replace (prelude._refs nb + 1 - 1)%Z with (prelude._refs nb) by lia.
      rewrite Z.mod_small by lia. unfold nb1. now destruct nb. }
    assert (Hkeepb : ((prelude._refs nb1 - 1) mod SIZE_MOD)%Z <> 0%Z).
    { rewrite Hrb1. replace (prelude._refs nb + 1 - 1)%Z with (prelude._refs nb) by lia.
      rewrite Z.mod_small; lia. }
    set (h2 := <[b := nb1]> h1) in *.
    assert (H2b : h2 !! b = Some nb1) by apply lookup_insert_eq.
    assert (H2a : h2 !! a = Some nd1) by (unfold h2; now rewrite lookup_insert_ne).
    assert (Hother : forall c, c <> a -> c <> b -> h2 !! c = h !! c).
    { intros c Hca Hcb. unfold h2, h1. now rewrite !lookup_insert_ne by congruence. }
    destruct fuel as [|fuel]; [cbn in Hf; lia|].
    destruct (IH h2 b (prelude._head nb :: vs'') fuel) as (p & h3 & lz & Hrun & Hcz & Hlz & Hsub).
    { apply (chain_agree h); [exact Hc'|].
      intros c Hin. unfold prelude.links.
      destruct (decide (c = b)) as [->|Hcb]; [now rewrite H2b, Hb|].
      rewrite Hother; [reflexivity | | exact Hcb].
      intros ->. apply Hnot. exact Hin. }
    { intros c nc Hin Hcn. destruct (decide (c = b)) as [->|Hcb].
      - rewrite H2b in Hcn. injection Hcn as <-. lia.
      - rewrite Hother in Hcn; [| |exact Hcb].
        + pose proof (Hfirst c nc ltac:(now right) Hcn).
          pose proof (Hrest c nc Hin Hcn). lia.
        + intros ->. apply Hnot. exact Hin. }
    { intros c nc Hin Hcn. cbn [tail] in Hin.
      assert (Hcb : c <> b).
      { intros ->. apply NoDup_cons in Hnd' as [Hnb _]. contradiction. }
      rewrite Hother in Hcn; [| |exact Hcb].
      - apply (Hrest c nc); [now right | exact Hcn].
      - intros ->. apply Hnot. now right. }
    { cbn in Hf |- *. lia. }
    set (n := fresh (dom h3)).
    assert (Hn3 : h3 !! n = None) by apply fresh_not_in.
    assert (H3a : h3 !! a = Some nd1) by exact (lookup_weaken _ _ _ _ H2a Hsub).
    assert (H3b : h3 !! b = Some nb1) by exact (lookup_weaken _ _ _ _ H2b Hsub).
    assert (Hna : n <> a) by congruence.
    assert (Hnb : n <> b) by congruence.
    set (h5 := <[n := prelude.mk_node 1 (prelude._head nd) p]> h3).
    set (h6 := <[b := nb]> h5).
    set (h7 := <[a := nd]> h6).
    assert (Hbody :
      prelude.bind (prelude.null (S fuel) (prelude.mk_list (Some a))) (fun b0 =>
        if b0 then prelude.throw (prelude.domain_error "prelude::init: empty list")
        else
          prelude.bind (prelude.tail (S fuel) (prelude.mk_list (Some a))) (fun ys =>
            prelude.bind (prelude.null (S fuel) ys) (fun e =>
              if e then prelude.ret ys
              else
                prelude.finally
                  (prelude.bind (prelude.head (S fuel) (prelude.mk_list (Some a))) (fun x =>
                     prelude.bind (prelude.init fuel ys) (fun zs =>
                       prelude.operator_bar_temporary (S fuel) x zs)))
                  (prelude.list_destroy (S fuel) ys)))) h1
      = prelude.Ok (prelude.mk_list (Some n)) h6).
    { rewrite (bind_Ok _ _ h1 false h1 Hnull).
      rewrite (bind_Ok _ _ h1 _ h2 Htail).
      rewrite (bind_Ok _ _ h2 false h2).
      2:{ apply (null_spec (S fuel) (prelude.mk_list (Some b)) h2).
          exists nb1. split; [exact H2b | lia]. }
      apply (finally_Ok _ _ h2 _ h5 h6).
      - rewrite (bind_Ok _ _ h2 _ h2 (head_run (S fuel) h2 a nd1 H2a ltac:(lia))).
        rewrite (bind_Ok _ _ h2 _ h3 Hrun).
        cbn [nd1 prelude.set_refs prelude._head].
        apply cons_temporary_run.
        intros c ->. inversion Hcz; subst. apply Hlz. left.
      - unfold prelude.list_destroy. cbn [prelude._rep].
        rewrite (bind_Ok _ _ h5 (Some b) h6); [reflexivity|].
        rewrite (release_keeps (S fuel) h5 b nb1).
        + now rewrite Hbackb.
        + unfold h5. now rewrite lookup_insert_ne by congruence.
        + exact Hkeepb. }
    assert (H6a : h6 !! a = Some nd1).
    { unfold h6, h5. now rewrite !lookup_insert_ne by congruence. }
    assert (Hnew : forall c, c ∈ lz -> c <> a /\ c <> b /\ c <> n).
    { intros c Hin. destruct (Hlz c Hin) as [Hc2 Hc3].
      repeat split; intros ->; [congruence | congruence|].
      rewrite Hn3 in Hc3. discriminate. }
    exists (Some n), h7, (n :: lz). split; [|split; [|split]].
    + rewrite (by_value_Some (S fuel) a nd _ h (prelude.mk_list (Some n)) h6 nd1 Ha Hbody H6a Hkeep).
      now rewrite Hback.
    + cbn [removelast].
      apply (prelude.chain_node h7 n (prelude.mk_node 1 (prelude._head nd) p)).
      * unfold h7, h6, h5. rewrite !lookup_insert_ne by congruence. apply lookup_insert_eq.
      * cbn [prelude._tail]. apply (chain_agree h3); [exact Hcz|].
        intros c Hin. destruct (Hnew c Hin) as (Hca & Hcb & Hcn).
        unfold prelude.links, h7, h6, h5. now rewrite !lookup_insert_ne by congruence.
    + intros c [->|Hin]%elem_of_cons.
      * split.
        -- rewrite <- (Hother n) by congruence. exact (subseteq_fresh _ _ _ Hsub Hn3).
        -- unfold h7, h6, h5. rewrite !lookup_insert_ne by congruence.
           now rewrite lookup_insert_eq.
      * destruct (Hnew c Hin) as (Hca & Hcb & Hcn). destruct (Hlz c Hin) as [Hc2 Hc3].
        split; [now rewrite <- (Hother c)|].
        unfold h7, h6, h5. now rewrite !lookup_insert_ne by congruence.
    + apply map_subseteq_spec. intros c nc Hcn. unfold h7.
      destruct (decide (c = a)) as [->|Hca]; [rewrite lookup_insert_eq; congruence|].
      rewrite lookup_insert_ne by congruence. unfold h6.
      destruct (decide (c = b)) as [->|Hcb]; [rewrite lookup_insert_eq; congruence|].
      rewrite lookup_insert_ne by congruence.
      rewrite <- (Hother c Hca Hcb) in Hcn.
      pose proof (lookup_weaken _ _ _ _ Hcn Hsub) as Hc3.
      unfold h5. rewrite lookup_insert_ne; [exact Hc3 | congruence].
  - (* one element: the tail is empty, and it is what [init] returns *)
    inversion Hc'; subst. injection Hacq as <-.
    exists None, h, []. split; [|split; [|split]].
    + rewrite (by_value_Some fuel a nd _ h (prelude.mk_list None) h1 nd1 Ha).
      * rewrite Hback. unfold h1. rewrite insert_insert_eq. f_equal.
        apply insert_id. exact Ha.
      * rewrite (bind_Ok _ _ h1 false h1 Hnull).
        rewrite (bind_Ok _ _ h1 _ h1 Htail).
        now rewrite (bind_Ok _ _ h1 true h1
                       (null_spec fuel (prelude.mk_list None) h1 I)).
      * exact H1a.
      * exact Hkeep.
    + constructor.
    + intros c Hin. inversion Hin.
    + reflexivity.
Qed.

End PreludeInit.

(** X28. [init( xs )] of [prelude::list] on a non-empty [xs] returns a list
    holding all the elements of [xs] but the last, in their order (the empty
    list for a one-element [xs]).  Its nodes are all new, each with count 1,
    and every node that existed before ends exactly as it was: the
    references taken by the by-value parameters, by [tail] and by the
    temporaries are all given back. *)
Theorem prelude_init_copies_all_but_last (A : Type)
    (h : gmap prelude.loc (prelude.node A)) (xs : prelude.list)
    (ls : list prelude.loc) (vs : list A) (fuel : nat) :
  prelude.chain h (prelude._rep xs) ls vs ->
  vs <> [] ->
  (forall c nd, c ∈ ls -> h !! c = Some nd -> (0 < prelude._refs nd < SIZE_MOD - 3)%Z) ->
  (Datatypes.length ls <= S fuel)%nat ->
  exists zs h' lz,
    prelude.init fuel xs h = prelude.Ok zs h'
    /\ prelude.chain h' (prelude._rep zs) lz (removelast vs)
    /\ (forall c, c ∈ lz -> h !! c = None /\ prelude._refs <$> h' !! c = Some 1%Z)
    /\ h ⊆ h'.
Proof.
  intros Hc Hv Hr Hf. destruct xs as [[a|]]; cbn [prelude._rep] in *.
  - destruct (init_run ls h a vs fuel Hc) as (p & h' & lz & Hrun & Hres); [| |exact Hf|].
    + intros c nd Hin Hcn. pose proof (Hr c nd Hin Hcn). lia.
    + intros c nd Hin Hcn. destruct ls as [|a0 ls]; [inversion Hin|].
      pose proof (Hr c nd ltac:(now right) Hcn). lia.
    + exists (prelude.mk_list p), h', lz. split; [exact Hrun | exact Hres].
  - inversion Hc; subst. contradiction.
Qed.

Lemma prelude_init_copies_all_but_last_witness :
  exists zs h' lz,
    prelude.init 1 (prelude.mk_list (Some 2%positive))
      (<[2%positive := prelude.mk_node 1%Z 2 (Some 1%positive)]>
         {[1%positive := prelude.mk_node 1%Z 3 None]})
    = prelude.Ok zs h'
    /\ prelude.chain h' (prelude._rep zs) lz (removelast [2; 3]).
Proof.
  destruct (prelude_init_copies_all_but_last N
              (<[2%positive := prelude.mk_node 1%Z 2 (Some 1%positive)]>
                 {[1%positive := prelude.mk_node 1%Z 3 None]})
              (prelude.mk_list (Some 2%positive)) [2%positive; 1%positive] [2; 3] 1)
    as (zs & h' & lz & Hrun & Hc & _).
  - apply (prelude.chain_node _ 2%positive (prelude.mk_node 1%Z 2 (Some 1%positive)));
      [reflexivity|].
    apply (prelude.chain_node _ 1%positive (prelude.mk_node 1%Z 3 None));
      [reflexivity | constructor].
  - discriminate.
  - intros c nd Hin Hc.
    apply elem_of_cons in Hin as [->|Hin].
    + vm_compute in Hc. injection Hc as <-. vm_compute. split; reflexivity.
    + apply list_elem_of_singleton in Hin as ->. vm_compute in Hc. injection Hc as <-.
      vm_compute. split; reflexivity.
  - cbn. lia.
  - exists zs, h', lz. split; [exact Hrun | exact Hc].
Defined.

(** X29. [os << xs] for a [prelude::list] appends to the text already in the
    stream an opening bracket, the elements of [xs] in their order, each
    written with the element type's [operator<<] and separated by single
    commas, and a closing bracket (the two brackets alone for the empty
    list); it leaves the heap as it was.  Since it returns the stream, two
    lists written in a row give the two renderings one after the other. *)
Theorem prelude_shl_appends_rendering (A : Type) (show : A -> string)
    (h : gmap prelude.loc (prelude.node A)) (xs ys : prelude.list)
    (lx ly : list prelude.loc) (vx vy : list A) (fuel : nat) (os : string) :
  prelude.chain h (prelude._rep xs) lx vx ->
  prelude.chain h (prelude._rep ys) ly vy ->
  (Datatypes.length lx <= S fuel)%nat ->
  (Datatypes.length ly <= S fuel)%nat ->
  prelude.operator_shl show fuel os xs h
  = prelude.Ok (os +:+ "[" +:+ comma_separated (show <$> vx) +:+ "]") h
  /\ prelude.bind (prelude.operator_shl show fuel os xs)
       (fun os1 => prelude.operator_shl show fuel os1 ys) h
     = prelude.Ok ((os +:+ rendering_spec show vx) +:+ rendering_spec show vy) h.
Proof.
  intros Hx Hy Hfx Hfy.
  pose proof (prelude_operator_shl_spec show h xs lx vx fuel os Hx Hfx) as Ex.
  split; [exact Ex|].
  rewrite (bind_Ok _ _ h _ h Ex).
  exact (prelude_operator_shl_spec show h ys ly vy fuel _ Hy Hfy).
Qed.

Lemma prelude_shl_appends_rendering_witness :
  prelude.operator_shl pretty 1 "xs = "
    (prelude.mk_list (Some 2%positive))
    (<[2%positive := prelude.mk_node 1%Z 2 (Some 1%positive)]>
       {[1%positive := prelude.mk_node 1%Z 3 None]})
  = prelude.Ok ("xs = " +:+ "[" +:+ comma_separated ((pretty : N -> string) <$> [2; 3]) +:+ "]")
      (<[2%positive := prelude.mk_node 1%Z 2 (Some 1%positive)]>
         {[1%positive := prelude.mk_node 1%Z 3 None]}).
Proof.
  refine (proj1 (prelude_shl_appends_rendering N pretty
                   (<[2%positive := prelude.mk_node 1%Z 2 (Some 1%positive)]>
                      {[1%positive := prelude.mk_node 1%Z 3 None]})
                   (prelude.mk_list (Some 2%positive)) (prelude.mk_list None)
                   [2%positive; 1%positive] [] [2; 3] [] 1 "xs = " _ _ _ _)).
  - apply (prelude.chain_node _ 2%positive (prelude.mk_node 1%Z 2 (Some 1%positive)));
      [reflexivity|].
    apply (prelude.chain_node _ 1%positive (prelude.mk_node 1%Z 3 None));
      [reflexivity | constructor].
  - constructor.
  - cbn. lia.
  - cbn. lia.
Defined.

(** X30. Copy assignment [this = xs] of [prelude::list] between handles on
    different nodes: the handle then holds the node of [xs], so it has the
    elements of [xs], and [xs] keeps them.  The old chain is released first:
    its leading nodes that only [this] counted in are freed, nothing else is
    removed, and values and next fields of all remaining nodes are as before
    (the guard [_rep != xs._rep] is what C10 is about). *)
Theorem copy_assign_takes_over (A : Type)
    (h : gmap prelude.loc (prelude.node A)) (this xs : prelude.list)
    (lu lr lx : list prelude.loc) (vs vx : list A) (fuel : nat) :
  prelude.chain h (prelude._rep this) (lu ++ lr) vs ->
  prelude.chain h (prelude._rep xs) lx vx ->
  (forall c, c ∈ lu -> prelude._refs <$> h !! c = Some 1%Z /\ c ∉ lx) ->
  (forall b nb, head lr = Some b -> h !! b = Some nb ->
                (1 < prelude._refs nb < SIZE_MOD)%Z) ->
  (Datatypes.length lu <= fuel)%nat ->
  prelude._rep this <> prelude._rep xs ->
  exists h',
    prelude.operator_assign fuel this xs h = prelude.Ok (prelude.mk_list (prelude._rep xs)) h'
    /\ prelude.chain h' (prelude._rep xs) lx vx
    /\ (forall c, c ∈ lu -> h' !! c = None)
    /\ (forall c, c ∉ lu -> prelude.links h' c = prelude.links h c)
    /\ (forall c, c ∉ lu -> head lr <> Some c -> prelude._rep xs <> Some c ->
          h' !! c = h !! c).
Proof.
  intros Hc Hx Hlu Hshared Hf Hne.
  destruct (release_cascade lu h (prelude._rep this) lr vs fuel Hc) as
    (h1 & Hrun & Hgone & Hkept & Hrest); [| |exact Hf|].
  { intros c Hin. now apply Hlu. }
  { intros b nb Hb Hnb. specialize (Hshared b nb Hb Hnb).
    rewrite Z.mod_small; lia. }
  assert (Hl1 : forall c, c ∉ lu -> prelude.links h1 c = prelude.links h c).
  { intros c Hin. unfold prelude.links.
    destruct (decide (head lr = Some c)) as [Hhd|Hhd].
    - destruct (chain_in_heap _ _ _ _ c Hc) as [nc Hnc].
      { apply elem_of_app. right. destruct lr; [discriminate|].
        injection Hhd as ->. left. }
      now rewrite (Hkept c nc Hhd Hnc), Hnc.
    - now rewrite Hrest. }
  assert (Hxs : forall c, prelude._rep xs = Some c -> (c ∉ lu) /\ is_Some (h !! c)).
  { intros c E. rewrite E in Hx. inversion Hx; subst. split; [|eauto].
    intros Hin. destruct (Hlu c Hin) as [_ Hnot]. apply Hnot. left. }
  destruct (acquire_run h1 (prelude._rep xs)) as (h2 & Hacq & Hother & Hcount).
  { intros c E. destruct (Hxs c E) as [Hnin [nc Hnc]].
    pose proof (Hl1 c Hnin) as Hl. unfold prelude.links in Hl. rewrite Hnc in Hl.
    destruct (h1 !! c); [eauto | discriminate]. }
  assert (Hl2 : forall c, prelude.links h2 c = prelude.links h1 c).
  { intros c. unfold prelude.links.
    destruct (decide (prelude._rep xs = Some c)) as [E|E].
    - destruct (Hxs c E) as [Hnin [nc Hnc]].
      pose proof (Hl1 c Hnin) as Hl. unfold prelude.links in Hl. rewrite Hnc in Hl.
      destruct (h1 !! c) as [nc1|] eqn:E1; [|discriminate].
      now rewrite (Hcount c nc1 E E1).
    - now rewrite Hother. }
  exists h2. split; [|split; [|split; [|split]]].
  - unfold prelude.operator_assign.
    destruct (decide (prelude._rep this <> prelude._rep xs)) as [_|Hn]; [|contradiction].
    rewrite (bind_Ok _ _ h _ h1 Hrun).
    now rewrite (bind_Ok _ _ h1 _ h2 Hacq).
  - apply (chain_agree h); [exact Hx|].
    intros c Hin. rewrite Hl2. apply Hl1.
    intros Hin'. destruct (Hlu c Hin') as [_ Hnot]. contradiction.
  - intros c Hin. rewrite Hother; [now apply Hgone|].
    intros E. destruct (Hxs c E) as [Hnin _]. contradiction.
  - intros c Hin. rewrite Hl2. now apply Hl1.
  - intros c Hin Hhd Hrep. rewrite Hother by exact Hrep. now apply Hrest.
Qed.

Lemma copy_assign_takes_over_witness :
  exists h',
    prelude.operator_assign 1 (prelude.mk_list (Some 1%positive))
      (prelude.mk_list (Some 2%positive))
      (<[2%positive := prelude.mk_node 1%Z 20 None]>
         {[1%positive := prelude.mk_node 1%Z 10 None]})
    = prelude.Ok (prelude.mk_list (Some 2%positive)) h'
    /\ prelude.chain h' (Some 2%positive) [2%positive] [20]
    /\ h' !! 1%positive = None.
Proof.
  destruct (copy_assign_takes_over N
              (<[2%positive := prelude.mk_node 1%Z 20 None]>
                 {[1%positive := prelude.mk_node 1%Z 10 None]})
              (prelude.mk_list (Some 1%positive)) (prelude.mk_list (Some 2%positive))
              [1%positive] [] [2%positive] [10] [20] 1)
    as (h' & Hrun & Hc & Hgone & _).
  - apply (prelude.chain_node _ 1%positive (prelude.mk_node 1%Z 10 None));
      [reflexivity | constructor].
  - apply (prelude.chain_node _ 2%positive (prelude.mk_node 1%Z 20 None));
      [reflexivity | constructor].
  - intros c ->%list_elem_of_singleton. split; [reflexivity|].
    intros Hin%list_elem_of_singleton. discriminate.
  - intros b nb [=].
  - cbn. lia.
  - cbn. discriminate.
  - exists h'. split; [exact Hrun|]. split; [exact Hc|]. apply Hgone. left.
Defined.
